(** * Mason: the boskos recycling pipeline (boskos/mason/mason.go)

    A shallow embedding of the four pipeline stages of Mason (recycleAll,
    fulfillAll, cleanAll, freeAll), of the request predicate isFulFilled, of
    RegisterConfigConverter and of ValidateConfig, together with the
    properties of the stages and of their loops.

    Conventions.
    - Go maps are [gmap]s; a Go [range] over a map visits the entries in an
      order that Go leaves unspecified, which is the class [MapOrder].
    - Go's [int] is taken to be 64 bits wide; additions wrap ([int_add]).
    - A Go [error] is an [option error], [None] being [nil].
    - The broker client and the config storage are interfaces: the stages
      are written over any implementation (classes [boskosClient] and
      [Storage]); every call to the client and every logrus line is recorded
      as an [event], in program order. *)

From Stdlib Require Import ZArith Lia Ascii.
From stdpp Require Import gmap strings list fin_maps.

Local Open Scope string_scope.
Local Open Scope list_scope.

(* ===================================================================== *)
(** ** Package common: the data the stages exchange *)
(* ===================================================================== *)

Module common.

(** Modelled from the spec: the state tags of boskos/common ("Dirty / free /
    cleaning / leased: broker state tags in the resource lifecycle"); the
    package is outside mason.go. *)
Definition Free : string := "free".
Definition Dirty : string := "dirty".
Definition Cleaning : string := "cleaning".
Definition Leased : string := "leased".

(** [common.UserData] is a [map[string]string]; [None] is the nil map. *)
Definition UserData : Type := option (gmap string string).

(** [common.LeasedResources] is a [[]string]; [None] is the nil slice. *)
Definition LeasedResources : Type := option (list string).

(** [common.Resource], with the fields mason.go reads. *)
Record Resource : Type := mkResource {
  rType : string;
  rName : string;
  rState : string;
  rUserData : UserData
}.

(** [common.ConfigType]: the constructor descriptor. *)
Record ConfigType : Type := mkConfigType {
  ctType : string;
  ctContent : string
}.

(** [common.ResourcesConfig], with the fields mason.go reads: [c.Name],
    [c.Config] and [c.Needs].  mason.go uses the name of a config as the
    type of the primary resource it governs ([GetConfig(res.Type)],
    [Acquire(c.Name, ...)], [configNames[res.Type]]). *)
Record ResourcesConfig : Type := mkResourcesConfig {
  cName : string;
  cConfig : ConfigType;
  cNeeds : gmap string Z
}.

Definition set_rUserData (ud : UserData) (r : Resource) : Resource :=
  {| rType := rType r; rName := rName r; rState := rState r; rUserData := ud |}.

Definition set_rState (st : string) (r : Resource) : Resource :=
  {| rType := rType r; rName := rName r; rState := st; rUserData := rUserData r |}.

End common.
Export common.

(** [common.ResourceNeeds] and [common.TypeToResources]. *)
Abbreviation ResourceNeeds := (gmap string Z).
Abbreviation TypeToResources := (gmap string (list Resource)).

(** [const LeasedResources]: the user-data key of the lease list. *)
Definition LeasedResourcesKey : string := "leasedResources".

(** The line feed of a format string. *)
Definition newline : string := String (ascii_of_nat 10) EmptyString.

(* ===================================================================== *)
(** ** Errors, results, Go's int *)
(* ===================================================================== *)

#[warnings="-register-all"]
Inductive error : Type :=
| Errorf (msg : string)               (* fmt.Errorf *)
| UserDataNotFound (id : string)      (* common.UserDataNotFound *)
| YamlError (msg : string)            (* an error of yaml.Marshal / Unmarshal *)
| ContextCanceled                     (* ctx.Err() after cancellation *)
| NotFound                            (* the broker's acquire miss *)
| External (msg : string)             (* any other error of a collaborator *)
| MultiError (errs : list error).     (* multierror.Error *)

Inductive result (A : Type) : Type :=
| Ok (a : A)
| Err (e : error).
Arguments Ok {A} a.
Arguments Err {A} e.

Definition error_of {A} (r : result A) : option error :=
  match r with Ok _ => None | Err e => Some e end.

Definition returned_of {A} (r : result A) : list A :=
  match r with Ok a => [a] | Err _ => [] end.

(** The type assertion of [err] to a pointer to [common.UserDataNotFound]. *)
Definition isUserDataNotFound (e : error) : bool :=
  match e with UserDataNotFound _ => true | _ => false end.

(** [multierror.Append(acc, err)]: a nil accumulator starts a new list, a
    multierror accumulator is extended, and a multierror argument is
    flattened into the list. *)
Definition multierror_flatten (e : error) : list error :=
  match e with MultiError es => es | _ => [e] end.

Definition multierror_Append (acc : option error) (e : error) : error :=
  match acc with
  | None => MultiError (multierror_flatten e)
  | Some (MultiError es) => MultiError (es ++ multierror_flatten e)
  | Some other => MultiError (other :: multierror_flatten e)
  end.

(** Go's [int], 64 bits, two's complement. *)
Definition int_wrap (z : Z) : Z := ((z + 2 ^ 63) mod 2 ^ 64 - 2 ^ 63)%Z.
Definition int_add (a b : Z) : Z := int_wrap (a + b).

(** The iteration order of [range] over a map: some enumeration of the
    entries, each exactly once.  The stages are written over any such order;
    no property below compares two traversals of a map. *)
Class MapOrder : Type := {
  range : ∀ {V : Type}, gmap string V → list (string * V);
  range_perm : ∀ (V : Type) (m : gmap string V), range m ≡ₚ map_to_list m
}.

(* ===================================================================== *)
(** ** Requests *)
(* ===================================================================== *)

Record requirements : Type := mkRequirements {
  resource : Resource;
  needs : ResourceNeeds;
  fulfillment : TypeToResources
}.

Definition set_resource (res : Resource) (r : requirements) : requirements :=
  {| resource := res; needs := needs r; fulfillment := fulfillment r |}.

Definition set_fulfillment (f : TypeToResources) (r : requirements) : requirements :=
  {| resource := resource r; needs := needs r; fulfillment := f |}.

(** [func (r requirements) isFulFilled() bool]: the loop returns false at the
    first type that is missing or has the wrong number of resources. *)
Definition isFulFilled `{MapOrder} (r : requirements) : bool :=
  forallb (λ '(rType, count),
    match fulfillment r !! rType with
    | None => false
    | Some resources => bool_decide (Z.of_nat (length resources) = count)
    end) (range (needs r)).

(* ===================================================================== *)
(** ** Collaborators: broker client, config storage, constructors, codec *)
(* ===================================================================== *)

(** The calls of [boskosClient], as they appear in the event trace. *)
Inductive call : Type :=
| CAcquire (rtype state dest : string)
| CAcquireByState (state dest : string) (names : list string)
| CReleaseOne (name dest : string)
| CUpdateOne (name state : string) (userData : UserData)
| CUpdateAll (state : string).

(** logrus levels. *)
Inductive level : Type := DebugLevel | InfoLevel | WarningLevel | ErrorLevel.

(** What a stage does that the outside can observe: a call to the broker
    client with the resources and the error it returned, or a log line with
    the error attached by [WithError]. *)
Inductive event : Type :=
| Call (c : call) (returned : list Resource) (err : option error)
| Log (lvl : level) (err : option error) (msg : string).

(** [type boskosClient interface]: every method takes the client's state and
    returns the new one.  [AcquireByState] returns both a slice and an error,
    and mason.go reads the slice even when the error is not nil. *)
Class boskosClient (C : Type) : Type := {
  Acquire : string → string → string → C → result Resource * C;
  AcquireByState : string → string → list string → C → (list Resource * option error) * C;
  ReleaseOne : string → string → C → option error * C;
  UpdateOne : string → string → UserData → C → option error * C;
  UpdateAll : string → C → option error * C
}.

(** The config storage of Mason ([m.storage]); its implementation is in
    storage.go, so it is taken as an interface here. *)
Class Storage (S : Type) : Type := {
  GetConfig : string → S → result ResourcesConfig;
  GetConfigs : S → result (list ResourcesConfig)
}.

(** [type Masonable interface] and [type ConfigConverter]. *)
Record Masonable : Type := mkMasonable {
  Construct : Resource → TypeToResources → result UserData
}.

Definition ConfigConverter : Type := string → result Masonable.

(** The parts of the user-data codec that are outside mason.go: the YAML
    encoding of a name list (an error is a message), and the merge
    [UserData.Update]. *)
Class UserDataCodec : Type := {
  yaml_Unmarshal : string → LeasedResources + string;
  yaml_Marshal : LeasedResources → string + string;
  Update : gmap string string → UserData → gmap string string
}.

(** Modelled from the spec: [common.UserData.Extract], which is in
    boskos/common.  "Extract(key, out) decodes if present and signals
    not-found distinctly from decode-error"; reading a nil map finds
    nothing. *)
Definition Extract `{UserDataCodec} (ud : UserData) (id : string) : result LeasedResources :=
  match ud ≫= (.!! id) with
  | None => Err (UserDataNotFound id)
  | Some content =>
      match yaml_Unmarshal content with
      | inl out => Ok out
      | inr msg => Err (YamlError msg)
      end
  end.

(** Modelled from the spec: [common.UserData.Set], which is in
    boskos/common.  "Set(key, value) encodes and stores". *)
Definition UserData_Set `{UserDataCodec} (ud : gmap string string) (id : string)
    (value : LeasedResources) : result (gmap string string) :=
  match yaml_Marshal value with
  | inl content => Ok (<[id := content]> ud)
  | inr msg => Err (YamlError msg)
  end.

(** [if res.UserData == nil { res.UserData = userData } else
    { res.UserData.Update(userData) }] *)
Definition mergeUserData `{UserDataCodec} (res : Resource) (userData : UserData) : Resource :=
  match rUserData res with
  | None => set_rUserData userData res
  | Some ud => set_rUserData (Some (Update ud userData)) res
  end.

(* ===================================================================== *)
(** ** The Mason object and the monad of the stages *)
(* ===================================================================== *)

Section Mason.
Context {C S : Type}.

(** [type Mason struct], with the three channels as FIFO lists, and the
    context that [Start] hands to every stage: [ctx = Some n] is a context
    that is cancelled after [n] more waits on the sleep timer, [None] one
    that is never cancelled.  The fields [cleanerCount], [sleepTime], [wg]
    and [cancel] schedule the goroutines and have no part in what one stage
    does with one request; no more has the capacity of the channels, and a
    send appends to the queue. *)
Record Mason : Type := mkMason {
  client : C;
  storage : S;
  pending : list requirements;
  fulfilled : list requirements;
  cleaned : list requirements;
  configConverters : gmap string ConfigConverter;
  ctx : option nat
}.

Definition set_client (c : C) (m : Mason) : Mason :=
  mkMason c (storage m) (pending m) (fulfilled m) (cleaned m) (configConverters m) (ctx m).
Definition set_pending (q : list requirements) (m : Mason) : Mason :=
  mkMason (client m) (storage m) q (fulfilled m) (cleaned m) (configConverters m) (ctx m).
Definition set_fulfilled (q : list requirements) (m : Mason) : Mason :=
  mkMason (client m) (storage m) (pending m) q (cleaned m) (configConverters m) (ctx m).
Definition set_cleaned (q : list requirements) (m : Mason) : Mason :=
  mkMason (client m) (storage m) (pending m) (fulfilled m) q (configConverters m) (ctx m).
Definition set_ctx (c : option nat) (m : Mason) : Mason :=
  mkMason (client m) (storage m) (pending m) (fulfilled m) (cleaned m) (configConverters m) c.
Definition set_configConverters (cs : gmap string ConfigConverter) (m : Mason) : Mason :=
  mkMason (client m) (storage m) (pending m) (fulfilled m) (cleaned m) cs (ctx m).

(** A computation of a stage: from the Mason object to a value, the new
    Mason object and the events emitted, oldest first. *)
Definition M (A : Type) : Type := Mason → A * Mason * list event.

Definition ret {A} (a : A) : M A := λ m, (a, m, []).

Definition bind {A B} (x : M A) (k : A → M B) : M B :=
  λ m, let '(a, m1, t1) := x m in
       let '(b, m2, t2) := k a m1 in
       (b, m2, t1 ++ t2).

Definition value {A} (r : A * Mason * list event) : A := r.1.1.
Definition after {A} (r : A * Mason * list event) : Mason := r.1.2.
Definition events {A} (r : A * Mason * list event) : list event := r.2.

Definition gets {A} (f : Mason → A) : M A := λ m, (f m, m, []).
Definition modify (f : Mason → Mason) : M unit := λ m, (tt, f m, []).

(** [logrus.WithError(err).<Level>f(msg)] *)
Definition logf (lvl : level) (err : option error) (msg : string) : M unit :=
  λ m, (tt, m, [Log lvl err msg]).

End Mason.

Arguments Mason : clear implicits.
Arguments M : clear implicits.

Notation "'let*' x ':=' c 'in' k" := (bind c (λ x, k))
  (at level 10, x pattern, c at level 100, k at level 200,
   format "'[v' 'let*'  x  ':='  c  'in' '/' k ']'").

Notation "c ';;;' k" := (bind c (λ _, k))
  (at level 100, k at level 200, right associativity).

(* ===================================================================== *)
(** ** The stages *)
(* ===================================================================== *)

Section Stages.
Context {C S : Type} `{!boskosClient C} `{!Storage S} `{!MapOrder} `{!UserDataCodec}.

Local Abbreviation M := (M C S).
Local Abbreviation Mason := (Mason C S).

(** *** Calls to the collaborators *)

Definition client_Acquire (rtype state dest : string) : M (result Resource) :=
  λ m, let '(r, c) := Acquire rtype state dest (client m) in
       (r, set_client c m, [Call (CAcquire rtype state dest) (returned_of r) (error_of r)]).

Definition client_AcquireByState (state dest : string) (names : list string)
    : M (list Resource * option error) :=
  λ m, let '(r, c) := AcquireByState state dest names (client m) in
       (r, set_client c m, [Call (CAcquireByState state dest names) r.1 r.2]).

Definition client_ReleaseOne (name dest : string) : M (option error) :=
  λ m, let '(err, c) := ReleaseOne name dest (client m) in
       (err, set_client c m, [Call (CReleaseOne name dest) [] err]).

Definition client_UpdateOne (name state : string) (userData : UserData) : M (option error) :=
  λ m, let '(err, c) := UpdateOne name state userData (client m) in
       (err, set_client c m, [Call (CUpdateOne name state userData) [] err]).

Definition storage_GetConfig (rtype : string) : M (result ResourcesConfig) :=
  gets (λ m, GetConfig rtype (storage m)).

Definition storage_GetConfigs : M (result (list ResourcesConfig)) :=
  gets (λ m, GetConfigs (storage m)).

(** [m.pending <- req], [m.fulfilled <- req], [m.cleaned <- req] *)
Definition send_pending (req : requirements) : M unit :=
  modify (λ m, set_pending (pending m ++ [req]) m).
Definition send_fulfilled (req : requirements) : M unit :=
  modify (λ m, set_fulfilled (fulfilled m ++ [req]) m).
Definition send_cleaned (req : requirements) : M unit :=
  modify (λ m, set_cleaned (cleaned m ++ [req]) m).

(** [select { case <-ctx.Done(): ...; case <-time.After(m.sleepTime): ... }]:
    [true] when the context is done, [false] when the timer fired. *)
Definition select_timer : M bool :=
  λ m, match ctx m with
       | Some O => (true, m, [])
       | Some (Datatypes.S n) => (false, set_ctx (Some n) m, [])
       | None => (false, m, [])
       end.

(** [select { case <-ctx.Done(): ...; case req := <-queue: ... }]; with an
    empty queue and a live context the stage waits. *)
Inductive selected : Type := Done | Received (req : requirements) | Waiting.

Definition select_recv (queue : Mason → list requirements)
    (set_queue : list requirements → Mason → Mason) : M selected :=
  λ m, match ctx m with
       | Some O => (Done, m, [])
       | _ => match queue m with
              | [] => (Waiting, m, [])
              | req :: rest => (Received req, set_queue rest m, [])
              end
       end.

(** A [for _, x := range xs { body }] over a slice. *)
Fixpoint forM_ {A} (xs : list A) (body : A → M unit) : M unit :=
  match xs with
  | [] => ret tt
  | x :: rest => body x ;;; forM_ rest body
  end.

(** [for _, resources := range ttr { for _, r := range resources { ... } }]
    visits these resources in this order. *)
Definition allResources (ttr : TypeToResources) : list Resource :=
  range ttr ≫= snd.

(** *** RegisterConfigConverter, convertConfig *)

(** [func (m *Mason) RegisterConfigConverter(name string, fn ConfigConverter)
    error]: a name is registered once. *)
Definition RegisterConfigConverter (name : string) (fn : ConfigConverter)
    : M (option error) :=
  let* converters := gets configConverters in
  match converters !! name with
  | Some _ => ret (Some (Errorf ("a converter for " +:+ name +:+ " already exists")))
  | None => modify (set_configConverters (<[name := fn]> converters)) ;;; ret None
  end.

Definition convertConfig (configEntry : ResourcesConfig) : M (result Masonable) :=
  let* converters := gets configConverters in
  match converters !! ctType (cConfig configEntry) with
  | None => ret (Err (Errorf ("config type " +:+ cName configEntry +:+ " is not supported")))
  | Some fn => ret (fn (ctContent (cConfig configEntry)))
  end.

(** *** The Cleaner: cleanOne, cleanAll *)

(** [cleanOne] writes the merged user data through its pointer argument, so
    the embedding returns the resource next to the error. *)
Definition cleanOne (res : Resource) (leasedResources : TypeToResources)
    : M (option error * Resource) :=
  let* r := storage_GetConfig (rType res) in
  match r with
  | Err err =>
      logf ErrorLevel (Some err) ("failed to get config for resource " +:+ rType res) ;;;
      ret (Some err, res)
  | Ok configEntry =>
      let* r := convertConfig configEntry in
      match r with
      | Err err =>
          logf ErrorLevel (Some err)
            ("failed to convert config type " +:+ ctType (cConfig configEntry)
               +:+ " - " +:+ newline +:+ ctContent (cConfig configEntry)) ;;;
          ret (Some err, res)
      | Ok config =>
          match Construct config res leasedResources with
          | Err err =>
              logf ErrorLevel (Some err) ("failed to construct resource " +:+ rName res) ;;;
              ret (Some err, res)
          | Ok userData =>
              let* e := client_UpdateOne (rName res) (rState res) userData in
              match e with
              | Some err =>
                  logf ErrorLevel (Some err) "unable to update user data" ;;;
                  ret (Some err, res)
              | None =>
                  logf InfoLevel None ("Resource " +:+ rName res +:+ " is cleaned") ;;;
                  ret (None, mergeUserData res userData)
              end
          end
      end
  end.

Definition releaseLogged (lvl : level) (what : string) (name dest : string) : M unit :=
  let* err := client_ReleaseOne name dest in
  match err with
  | Some err => logf lvl (Some err) (what +:+ name)
  | None => ret tt
  end.

(** The body of [case req := <-m.fulfilled] in cleanAll. *)
Definition cleanRecv (req : requirements) : M unit :=
  let* r := cleanOne (resource req) (fulfillment req) in
  match r with
  | (Some _, _) =>
      releaseLogged ErrorLevel "Unable to release resource " (rName (resource req)) Dirty ;;;
      forM_ (allResources (fulfillment req))
        (λ r, releaseLogged ErrorLevel "Unable to release leased resource " (rName r) Dirty)
  | (None, res) => send_cleaned (set_resource res req)
  end.

(** How a stage loop stopped: the context was done and the thread returned,
    it waits on an empty queue, or the fuel of the embedding ran out. *)
Inductive stop : Type := Exited | Idle | OutOfFuel.

Fixpoint cleanAll (fuel : nat) : M stop :=
  match fuel with
  | O => ret OutOfFuel
  | Datatypes.S fuel' =>
      let* sel := select_recv fulfilled set_fulfilled in
      match sel with
      | Done => logf InfoLevel None "Exiting cleanAll Thread" ;;; ret Exited
      | Waiting => ret Idle
      | Received req => cleanRecv req ;;; cleanAll fuel'
      end
  end.

(** *** The Releaser: freeOne, freeAll *)

(** The loop over the leased names in freeOne, with its accumulator. *)
Fixpoint freeLeased (names : list string) (dest : string) (allErrors : option error)
    : M (option error) :=
  match names with
  | [] => ret allErrors
  | name :: rest =>
      let* err := client_ReleaseOne name dest in
      match err with
      | Some err =>
          logf ErrorLevel (Some err)
            ("unable to release " +:+ name +:+ " to state " +:+ dest) ;;;
          freeLeased rest dest (Some (multierror_Append allErrors err))
      | None => freeLeased rest dest allErrors
      end
  end.

Definition freeOne (res : Resource) : M (option error) :=
  let* err := client_ReleaseOne (rName res) Free in
  match err with
  | Some err =>
      logf ErrorLevel (Some err) ("failed to release resource " +:+ rName res) ;;;
      ret (Some err)
  | None =>
      match rUserData res with
      | None =>
          let err := Errorf "UserData is empty" in
          logf ErrorLevel (Some err) ("failed to extract " +:+ LeasedResourcesKey) ;;;
          ret (Some err)
      | Some _ =>
          match Extract (rUserData res) LeasedResourcesKey with
          | Err err =>
              logf ErrorLevel (Some err) ("failed to extract " +:+ LeasedResourcesKey) ;;;
              ret (Some err)
          | Ok leasedResources =>
              let* allErrors := freeLeased (default [] leasedResources) (rName res) None in
              match allErrors with
              | Some err => ret (Some err)
              | None =>
                  logf InfoLevel None ("Resource " +:+ rName res +:+ " has been freed") ;;;
                  ret None
              end
          end
      end
  end.

(** The body of [case req := <-m.cleaned] in freeAll. *)
Definition freeRecv (req : requirements) : M unit :=
  let* err := freeOne (resource req) in
  match err with
  | Some _ => send_cleaned req
  | None => ret tt
  end.

Fixpoint freeAll (fuel : nat) : M stop :=
  match fuel with
  | O => ret OutOfFuel
  | Datatypes.S fuel' =>
      let* sel := select_recv cleaned set_cleaned in
      match sel with
      | Done => logf InfoLevel None "Exiting freeAll Thread" ;;; ret Exited
      | Waiting => ret Idle
      | Received req => freeRecv req ;;; freeAll fuel'
      end
  end.

(** *** The Recycler: recycleOne, recycleAll *)

(** The lease reclaim of recycleOne, entered with the decoded names.
    [delete(res.UserData, LeasedResources)] writes through the pointer, so
    the request carries the user data without the key. *)
Definition reclaim (res : Resource) (configEntry : ResourcesConfig)
    (leasedResources : LeasedResources) : M (result requirements) :=
  match leasedResources with
  | Some names =>
      let* acquired := client_AcquireByState (rName res) Leased names in
      let resources := acquired.1 in
      match acquired.2 with
      | Some err =>
          logf WarningLevel (Some err)
            ("could not acquire any leased resources for " +:+ rName res)
      | None => ret tt
      end ;;;
      forM_ resources
        (λ r, releaseLogged WarningLevel "could not release resource " (rName r) Dirty) ;;;
      let res' := set_rUserData (delete LeasedResourcesKey <$> rUserData res) res in
      let* err := client_UpdateOne (rName res) (rState res)
                    (Some {[ LeasedResourcesKey := "" ]}) in
      match err with
      | Some err =>
          logf ErrorLevel (Some err)
            ("could not update resource " +:+ rName res +:+ " with freed leased resources")
      | None => ret tt
      end ;;;
      ret (Ok {| resource := res'; needs := cNeeds configEntry; fulfillment := ∅ |})
  | None =>
      ret (Ok {| resource := res; needs := cNeeds configEntry; fulfillment := ∅ |})
  end.

Definition recycleOne (res : Resource) : M (result requirements) :=
  logf InfoLevel None ("Resource " +:+ rName res +:+ " is being recycled") ;;;
  let* r := storage_GetConfig (rType res) in
  match r with
  | Err err =>
      logf ErrorLevel (Some err) ("could not get config for resource type " +:+ rType res) ;;;
      ret (Err err)
  | Ok configEntry =>
      match Extract (rUserData res) LeasedResourcesKey with
      | Err err =>
          if isUserDataNotFound err
          then reclaim res configEntry None
          else
            logf ErrorLevel (Some err)
              ("cannot parse " +:+ LeasedResourcesKey +:+ " from User Data") ;;;
            ret (Err err)
      | Ok leasedResources => reclaim res configEntry leasedResources
      end
  end.

(** The body of [for _, r := range configTypes] in recycleAll. *)
Definition recycleType (r : string) : M unit :=
  let* a := client_Acquire r Dirty Cleaning in
  match a with
  | Err err => logf DebugLevel (Some err) "boskos acquire failed!"
  | Ok res =>
      let* q := recycleOne res in
      match q with
      | Err err =>
          logf ErrorLevel (Some err) ("unable to recycle resource " +:+ rName res) ;;;
          releaseLogged ErrorLevel "Unable to release resources " (rName res) Dirty
      | Ok req => send_pending req
      end
  end.

(** The body of [case <-time.After(m.sleepTime)] in recycleAll. *)
Definition recycleTick : M unit :=
  let* r := storage_GetConfigs in
  match r with
  | Err err => logf ErrorLevel (Some err) "unable to get configuration"
  | Ok configs =>
      let configTypes := map cName configs in
      forM_ configTypes recycleType
  end.

Fixpoint recycleAll (fuel : nat) : M stop :=
  match fuel with
  | O => ret OutOfFuel
  | Datatypes.S fuel' =>
      let* done := select_timer in
      if done : bool
      then logf InfoLevel None "Exiting recycleAll Thread" ;;; ret Exited
      else recycleTick ;;; recycleAll fuel'
  end.

(** *** The Fulfiller: updateResources, fulfillOne, fulfillAll *)

Definition updateResources (req : requirements) : M unit :=
  let resources := resource req :: allResources (fulfillment req) in
  forM_ resources (λ r,
    let* err := client_UpdateOne (rName r) (rState r) None in
    match err with
    | Some err => logf WarningLevel (Some err) ("failed to update resource " +:+ rName r)
    | None => ret tt
    end).

(** [needs[rType]] of a Go map: the zero value when the key is absent. *)
Definition needs_at (needs : ResourceNeeds) (rType : string) : Z :=
  default 0%Z (needs !! rType).

(** [req.fulfillment[rType] = append(req.fulfillment[rType], res)] *)
Definition appendFulfillment (rType : string) (res : Resource) (req : requirements)
    : requirements :=
  set_fulfillment
    (<[rType := default [] (fulfillment req !! rType) ++ [res]]> (fulfillment req)) req.

(** [for needs[rType] > 0 { select ... }].  The loop runs for as long as
    the broker has nothing to lease, so the embedding takes fuel: [None] is
    "still looping when the fuel ran out".  A returned triple holds the
    error fulfillOne returns at once (the context's), the working copy of
    the needs and the request. *)
Fixpoint fulfillType (fuel : nat) (rType : string) (needs : ResourceNeeds)
    (req : requirements) : M (option (option error * ResourceNeeds * requirements)) :=
  if bool_decide (0 < needs_at needs rType)%Z then
    match fuel with
    | O => ret None
    | Datatypes.S fuel' =>
        let* done := select_timer in
        if done : bool then ret (Some (Some ContextCanceled, needs, req))
        else
          updateResources req ;;;
          let* a := client_Acquire rType Free Leased in
          match a with
          | Err err =>
              logf DebugLevel (Some err) "boskos acquire failed!" ;;;
              fulfillType fuel' rType needs req
          | Ok res =>
              fulfillType fuel' rType
                (<[rType := int_add (needs_at needs rType) (-1)]> needs)
                (appendFulfillment rType res req)
          end
    end
  else ret (Some (None, needs, req)).

(** [for rType := range needs { ... }] over the types in iteration order. *)
Fixpoint fulfillTypes (fuel : nat) (rTypes : list string) (needs : ResourceNeeds)
    (req : requirements) : M (option (option error * requirements)) :=
  match rTypes with
  | [] => ret (Some (None, req))
  | rType :: rest =>
      let* r := fulfillType fuel rType needs req in
      match r with
      | None => ret None
      | Some (Some err, _, req') => ret (Some (Some err, req'))
      | Some (None, needs', req') => fulfillTypes fuel rest needs' req'
      end
  end.

(** The working copy: [needs := common.ResourceNeeds{}; for k, v := range
    req.needs { needs[k] = v }]. *)
Definition copyNeeds (req : requirements) : ResourceNeeds :=
  foldl (λ acc '(k, v), <[k := v]> acc) ∅ (range (needs req)).

(** The acquisition loops of fulfillOne. *)
Definition acquireNeeds (fuel : nat) (req : requirements)
    : M (option (option error * requirements)) :=
  let needs := copyNeeds req in
  fulfillTypes fuel (range needs).*1 needs req.

(** The names appended to [leasedResources]; the slice stays nil when
    nothing is appended. *)
Definition leasedNames (ttr : TypeToResources) : LeasedResources :=
  match map rName (allResources ttr) with
  | [] => None
  | names => Some names
  end.

(** The end of fulfillOne, from [if req.isFulFilled()] on. *)
Definition persistLease (req : requirements) : M (option error * requirements) :=
  if isFulFilled req then
    let leasedResources := leasedNames (fulfillment req) in
    match UserData_Set ∅ LeasedResourcesKey leasedResources with
    | Err err =>
        logf ErrorLevel (Some err) ("failed to add " +:+ LeasedResourcesKey +:+ " user data") ;;;
        ret (Some err, req)
    | Ok userData =>
        let* e := client_UpdateOne (rName (resource req)) (rState (resource req))
                    (Some userData) in
        match e with
        | Some err =>
            logf ErrorLevel (Some err)
              ("Unable to release resource " +:+ rName (resource req)) ;;;
            ret (Some err, req)
        | None =>
            logf InfoLevel None
              ("requirements for release " +:+ rName (resource req) +:+ " is fulfilled") ;;;
            ret (None, set_resource (mergeUserData (resource req) (Some userData)) req)
        end
    end
  else ret (None, req).

(** fulfillOne writes the fulfillment and the primary's user data through
    its pointer argument, so the embedding returns the request next to the
    error. *)
Definition fulfillOne (fuel : nat) (req : requirements)
    : M (option (option error * requirements)) :=
  let* r := acquireNeeds fuel req in
  match r with
  | None => ret None
  | Some (Some err, req') => ret (Some (Some err, req'))
  | Some (None, req') => let* r := persistLease req' in ret (Some r)
  end.

(** The release loop of fulfillAll; the "Released" line is logged whether
    or not the release failed. *)
Definition releaseFulfillment (req : requirements) : M unit :=
  forM_ (allResources (fulfillment req)) (λ res,
    releaseLogged ErrorLevel "failed to release resource " (rName res) Free ;;;
    logf InfoLevel None ("Released resource " +:+ rName res)).

(** The body of [case req := <-m.pending] in fulfillAll; [None] when
    fulfillOne was still looping when the fuel ran out. *)
Definition fulfillRecv (fuel : nat) (req : requirements) : M (option unit) :=
  let* r := fulfillOne fuel req in
  match r with
  | None => ret None
  | Some (Some _, req') => releaseFulfillment req' ;;; ret (Some tt)
  | Some (None, req') => send_fulfilled req' ;;; ret (Some tt)
  end.

Fixpoint fulfillAll (fuel : nat) : M stop :=
  match fuel with
  | O => ret OutOfFuel
  | Datatypes.S fuel' =>
      let* sel := select_recv pending set_pending in
      match sel with
      | Done => logf InfoLevel None "Exiting fulfillAll Thread" ;;; ret Exited
      | Waiting => ret Idle
      | Received req =>
          let* r := fulfillRecv fuel' req in
          match r with
          | None => ret OutOfFuel
          | Some _ => fulfillAll fuel'
          end
      end
  end.

End Stages.

(* ===================================================================== *)
(** ** ValidateConfig *)
(* ===================================================================== *)

Section Validate.
Context {C S : Type} `{!MapOrder}.

Local Abbreviation M := (M C S).

(** The first loop: [configNames[c.Name] = c.Needs], or the error at the
    first name seen twice. *)
Fixpoint collectConfigNames (configs : list ResourcesConfig)
    (configNames : gmap string ResourceNeeds) : result (gmap string ResourceNeeds) :=
  match configs with
  | [] => Ok configNames
  | c :: rest =>
      match configNames !! cName c with
      | Some _ => Err (Errorf ("config " +:+ cName c +:+ " already exists"))
      | None => collectConfigNames rest (<[cName c := cNeeds c]> configNames)
      end
  end.

(** [for k, v := range c { resourcesNeeds[k] += v }] *)
Definition addNeeds (c : ResourceNeeds) (resourcesNeeds : gmap string Z) : gmap string Z :=
  foldl (λ acc '(k, v), <[k := int_add (needs_at acc k) v]> acc) resourcesNeeds (range c).

(** [actualResources[rtype]++] *)
Definition countOne (rtype : string) (actualResources : gmap string Z) : gmap string Z :=
  <[rtype := int_add (needs_at actualResources rtype) 1]> actualResources.

(** The second loop, over the census.  The map is looked up twice, as in
    the source. *)
Fixpoint countResources (resources : list Resource)
    (configNames : gmap string ResourceNeeds)
    (resourcesNeeds actualResources : gmap string Z)
    : M (result (gmap string Z * gmap string Z)) :=
  match resources with
  | [] => ret (Ok (resourcesNeeds, actualResources))
  | res :: rest =>
      match configNames !! rType res with
      | Some _ =>
          match configNames !! rType res with
          | None =>
              let err := Errorf ("resource type " +:+ rType res
                                   +:+ " does not have associated config") in
              logf ErrorLevel (Some err) "using useconfig implies associated config" ;;;
              ret (Err err)
          | Some c =>
              countResources rest configNames (addNeeds c resourcesNeeds)
                (countOne (rType res) actualResources)
          end
      | None =>
          countResources rest configNames resourcesNeeds
            (countOne (rType res) actualResources)
      end
  end.

(** The third loop, over [resourcesNeeds] in iteration order. *)
Fixpoint checkNeeds (entries : list (string * Z)) (actualResources : gmap string Z)
    : M (option error) :=
  match entries with
  | [] => ret None
  | (rType, needs) :: rest =>
      match actualResources !! rType with
      | None =>
          let err := Errorf ("need for resource " +:+ rType +:+ " that does not exist") in
          logf ErrorLevel (Some err) "invalid configuration" ;;;
          ret (Some err)
      | Some actual =>
          if bool_decide (needs > actual)%Z then
            let err := Errorf ("not enough resource of type " +:+ rType
                                 +:+ " for provisioning") in
            logf ErrorLevel (Some err) "invalid configuration" ;;;
            ret (Some err)
          else checkNeeds rest actualResources
      end
  end.

Definition ValidateConfig (configs : list ResourcesConfig) (resources : list Resource)
    : M (option error) :=
  match collectConfigNames configs ∅ with
  | Err err => ret (Some err)
  | Ok configNames =>
      let* r := countResources resources configNames ∅ ∅ in
      match r with
      | Err err => ret (Some err)
      | Ok (resourcesNeeds, actualResources) =>
          checkNeeds (range resourcesNeeds) actualResources
      end
  end.

End Validate.

(* ===================================================================== *)
(** ** A broker, a storage and a codec to run the stages on *)
(* ===================================================================== *)

(** An in-memory broker in the manner of the client double of the Go tests:
    a pool of resources, and the releases the broker will refuse: a name
    listed [n] times has its next [n] releases refused. *)
Module fake.

Record broker : Type := mkBroker {
  pool : list Resource;
  refused : list string
}.

Definition set_pool (p : list Resource) (b : broker) : broker :=
  {| pool := p; refused := refused b |}.

Fixpoint refuse_once (name : string) (names : list string) : list string :=
  match names with
  | [] => []
  | n :: rest => if bool_decide (n = name) then rest else n :: refuse_once name rest
  end.

Fixpoint acquire (rtype state dest : string) (p : list Resource)
    : option (Resource * list Resource) :=
  match p with
  | [] => None
  | r :: rest =>
      if bool_decide (rType r = rtype ∧ rState r = state)
      then Some (set_rState dest r, set_rState dest r :: rest)
      else '(found, rest') ← acquire rtype state dest rest; Some (found, r :: rest')
  end.

Definition moves (state : string) (names : list string) (r : Resource) : bool :=
  bool_decide (rState r = state ∧ rName r ∈ names).

(** [ud.Update(new)] of the broker: an empty value deletes the key. *)
Definition update (ud : gmap string string) (new : UserData) : gmap string string :=
  match new with
  | None => ud
  | Some n =>
      foldl (λ acc '(k, v), if bool_decide (v = "") then delete k acc else <[k := v]> acc)
        ud (map_to_list n)
  end.

#[export] Instance broker_client : boskosClient broker := {
  Acquire rtype state dest b :=
    match acquire rtype state dest (pool b) with
    | Some (r, p) => (Ok r, set_pool p b)
    | None => (Err NotFound, b)
    end;
  AcquireByState state dest names b :=
    let moved := filter (λ r, moves state names r = true) (pool b) in
    ((set_rState dest <$> moved, None),
     set_pool ((λ r, if moves state names r then set_rState dest r else r) <$> pool b) b);
  ReleaseOne name dest b :=
    if bool_decide (name ∈ refused b)
    then (Some (External ("cannot release " +:+ name)),
      {| pool := pool b; refused := refuse_once name (refused b) |})
    else if bool_decide (name ∈ rName <$> pool b)
    then (None, set_pool ((λ r, if bool_decide (rName r = name)
                                 then set_rState dest r else r) <$> pool b) b)
    else (Some NotFound, b);
  UpdateOne name state userData b :=
    if existsb (λ r, bool_decide (rName r = name ∧ rState r = state)) (pool b)
    then (None, set_pool ((λ r, if bool_decide (rName r = name)
                                 then set_rUserData
                                        (Some (update (default ∅ (rUserData r)) userData)) r
                                 else r) <$> pool b) b)
    else (Some (External ("cannot update " +:+ name)), b);
  UpdateAll state b := (None, b)
}.

(** The config storage: the list of configs, found by name. *)
#[export] Instance config_storage : Storage (list ResourcesConfig) := {
  GetConfig rtype cs :=
    match List.find (λ c, bool_decide (cName c = rtype)) cs with
    | Some c => Ok c
    | None => Err (External ("no config for " +:+ rtype))
    end;
  GetConfigs cs := Ok cs
}.

(** [range] in the order of [map_to_list]. *)
#[export] Instance map_order : MapOrder := {
  range V m := map_to_list m;
  range_perm V m := reflexivity _
}.

(** A codec that writes a name list as its names, each followed by a
    semicolon; the nil list is the empty string, and a text that does not
    end in a semicolon is malformed. *)
Fixpoint encode (names : list string) : string :=
  match names with
  | [] => ""
  | n :: rest => n +:+ ";" +:+ encode rest
  end.

Fixpoint decode (s : string) (cur : string) : option (list string) :=
  match s with
  | EmptyString => if bool_decide (cur = "") then Some [] else None
  | String c rest =>
      if bool_decide (c = ";"%char)
      then (cur ::.) <$> decode rest ""
      else decode rest (cur +:+ String c EmptyString)
  end.

#[export] Instance names_codec : UserDataCodec := {
  yaml_Unmarshal s :=
    if bool_decide (s = "") then inl None
    else match decode s "" with
         | Some names => inl (Some names)
         | None => inr "malformed name list"
         end;
  yaml_Marshal lr := inl (encode (default [] lr));
  Update := update
}.

End fake.

(* ===================================================================== *)
(** ** What the properties speak about *)
(* ===================================================================== *)

(** The calls to the broker in a trace, and the errors of the calls that
    failed, both in program order. *)
Definition calls_of (evs : list event) : list call :=
  omap (λ ev, match ev with Call c _ _ => Some c | Log _ _ _ => None end) evs.

Definition failures_of (evs : list event) : list error :=
  omap (λ ev, match ev with Call _ _ (Some err) => Some err | _ => None end) evs.

(** The multierror built from a list of errors, one [multierror.Append] per
    error; [None] for the empty list. *)
Definition aggregate (acc : option error) (errs : list error) : option error :=
  foldl (λ acc err, Some (multierror_Append acc err)) acc errs.

(** The errors that were logged, in program order. *)
Definition logged_of (evs : list event) : list error :=
  omap (λ ev, match ev with Log _ (Some err) _ => Some err | _ => None end) evs.

(** The resources that Acquire handed out, in program order. *)
Definition acquired_of (evs : list event) : list Resource :=
  evs ≫= λ ev, match ev with Call (CAcquire _ _ _) rs _ => rs | _ => [] end.

Definition isAcquire (ev : event) : bool :=
  match ev with Call (CAcquire _ _ _) _ _ => true | _ => false end.

Definition isRelease (ev : event) : bool :=
  match ev with Call (CReleaseOne _ _) _ _ => true | _ => false end.

(** The number of resources a request holds for a type. *)
Definition held (req : requirements) (t : string) : Z :=
  Z.of_nat (length (default [] (fulfillment req !! t))).

Section Observations.
Context {C S : Type} `{!boskosClient C} `{!Storage S}.

(** The three hand-off queues. *)
Definition queues (m : Mason C S)
    : list requirements * list requirements * list requirements :=
  (pending m, fulfilled m, cleaned m).

(** A computation leaves an aspect [f] of the Mason object as it was. *)
Definition preserves {A X} (f : Mason C S → X) (x : M C S A) : Prop :=
  ∀ m, f (after (x m)) = f m.

(** Every event a computation emits satisfies [P]. *)
Definition emits {A} (P : event → Prop) (x : M C S A) : Prop :=
  ∀ m, Forall P (events (x m)).

(** The four ways in which cleaning a request fails, in the order cleanOne
    meets them: the config lookup, the build of the constructor (no converter
    registered for the type, or the converter fails), Construct, and the
    broker's UpdateOne. *)
Definition cleaningFails (req : requirements) (m : Mason C S) : Prop :=
  match GetConfig (rType (resource req)) (storage m) with
  | Err _ => True
  | Ok configEntry =>
      match configConverters m !! ctType (cConfig configEntry) with
      | None => True
      | Some fn =>
          match fn (ctContent (cConfig configEntry)) with
          | Err _ => True
          | Ok config =>
              match Construct config (resource req) (fulfillment req) with
              | Err _ => True
              | Ok userData =>
                  is_Some (UpdateOne (rName (resource req)) (rState (resource req))
                             userData (client m)).1
              end
          end
      end
  end.

End Observations.

(** *** The rules of ValidateConfig, in the words of its callers *)

(** The config that governs a resource type: the one named after it. *)
Definition configFor (configs : list ResourcesConfig) (rtype : string)
    : option ResourcesConfig :=
  List.find (λ c, bool_decide (cName c = rtype)) configs.

(** The number of census resources of type [t]. *)
Definition supply (census : list Resource) (t : string) : Z :=
  Z.of_nat (length (filter (λ r, rType r = t) census)).

(** The resources of type [t] needed to provision the census: every census
    resource whose type names a config adds that config's need of [t]. *)
Definition demand (configs : list ResourcesConfig) (census : list Resource) (t : string) : Z :=
  foldr (λ r acc,
    (needs_at (default ∅ (cNeeds <$> configFor configs (rType r))) t + acc)%Z) 0%Z census.

(** [t] is a key of the Needs of a config whose name is the type of a census
    resource. *)
Definition referenced (configs : list ResourcesConfig) (census : list Resource)
    (t : string) : Prop :=
  ∃ r c, r ∈ census ∧ c ∈ configs ∧ cName c = rType r ∧ is_Some (cNeeds c !! t).

(** The sum of the needs of [t] over the configs whose type appears in the
    census, each config counted once. *)
Definition claimedSum (configs : list ResourcesConfig) (census : list Resource)
    (t : string) : Z :=
  foldr (λ c acc,
    ((if bool_decide (cName c ∈ rType <$> census)
      then needs_at (cNeeds c) t else 0) + acc)%Z) 0%Z configs.

(** The same two notions over the map [configNames] that ValidateConfig
    builds. *)
Definition touches (cn : gmap string ResourceNeeds) (t : string) (r : Resource) : bool :=
  match cn !! rType r with
  | Some c => bool_decide (is_Some (c !! t))
  | None => false
  end.

Definition demand_of (cn : gmap string ResourceNeeds) (census : list Resource)
    (t : string) : Z :=
  foldr (λ r acc, (needs_at (default ∅ (cn !! rType r)) t + acc)%Z) 0%Z census.

(** *** The loops and what they hand on *)

(** A caller that registers its converters one after the other, ignoring the
    errors. *)
Definition registered {C S : Type} (regs : list (string * ConfigConverter))
    (m : Mason C S) : Mason C S :=
  foldl (λ m '(name, fn), after (RegisterConfigConverter name fn m)) m regs.

(** The converter registered first under [name]. *)
Definition firstRegistered (regs : list (string * ConfigConverter)) (name : string)
    : option ConfigConverter :=
  snd <$> List.find (λ r, bool_decide (r.1 = name)) regs.

(** An event is a log line or a call of the kind [Q]. *)
Definition callsAre (Q : call → Prop) (ev : event) : Prop :=
  match ev with Call c _ _ => Q c | Log _ _ _ => True end.

(** The calls of the Recycler: Acquire from dirty to cleaning, AcquireByState
    into leased, releases to dirty, and the UpdateOne that empties the lease
    list. *)
Definition recyclerCall (c : call) : Prop :=
  match c with
  | CAcquire _ state dest => state = Dirty ∧ dest = Cleaning
  | CAcquireByState _ dest _ => dest = Leased
  | CReleaseOne _ dest => dest = Dirty
  | CUpdateOne _ _ userData => userData = Some {[ LeasedResourcesKey := "" ]}
  | CUpdateAll _ => False
  end.

(** The calls fulfillOne may make for a request: UpdateOne without user data
    (the keep-alive of updateResources), UpdateOne on the primary with a
    lease list, and Acquire from free to leased of a type the request
    needs. *)
Definition fulfillerCall (req : requirements) (c : call) : Prop :=
  match c with
  | CUpdateOne name state userData =>
      userData = None
      ∨ (name = rName (resource req) ∧ state = rState (resource req)
         ∧ ∃ content, userData = Some {[ LeasedResourcesKey := content ]})
  | CAcquire rtype state dest =>
      is_Some (needs req !! rtype) ∧ state = Free ∧ dest = Leased
  | _ => False
  end.

(** The calls of the Cleaner: UpdateOne, and releases to dirty. *)
Definition cleanerCall (c : call) : Prop :=
  match c with
  | CUpdateOne _ _ _ => True
  | CReleaseOne _ dest => dest = Dirty
  | _ => False
  end.

(** The calls of the Releaser: releases. *)
Definition releaserCall (c : call) : Prop :=
  match c with CReleaseOne _ _ => True | _ => False end.

(** A request as the Recycler builds it from a resource that Acquire handed
    out in [evs]: the primary with at most its user data changed, nothing
    leased yet, and no lease list left to read. *)
Definition recycled `{UserDataCodec} (evs : list event) (req : requirements) : Prop :=
  fulfillment req = ∅
  ∧ (∃ res ud, res ∈ acquired_of evs ∧ resource req = set_rUserData ud res)
  ∧ ∀ names, Extract (rUserData (resource req)) LeasedResourcesKey ≠ Ok (Some names).

(** [new] is [old] further along the pipeline: the same needs, the same
    primary up to its user data, and a fulfillment that holds what [old]
    held, each list extended at its end, and untouched for the types [old]
    does not need. *)
Definition advances (old new : requirements) : Prop :=
  needs new = needs old
  ∧ (∃ ud, resource new = set_rUserData ud (resource old))
  ∧ (∀ t l, fulfillment old !! t = Some l → ∃ l', fulfillment new !! t = Some (l ++ l'))
  ∧ (∀ t, needs old !! t = None → fulfillment new !! t = fulfillment old !! t).



(** The names freeOne reads from the lease list of a primary. *)
Definition leasedBy `{UserDataCodec} (res : Resource) : list string :=
  match Extract (rUserData res) LeasedResourcesKey with
  | Ok names => default [] names
  | Err _ => []
  end.

(** The errors of the failed calls of a trace are among the errors it
    logged, in the same order. *)
Definition accounted (evs : list event) : Prop :=
  failures_of evs `sublist_of` logged_of evs.

(** A computation that logs the errors [owed] to it and the errors of its
    own failed calls. *)
Definition settles {C S A : Type} (owed : list error) (x : M C S A) : Prop :=
  ∀ m, (owed ++ failures_of (events (x m))) `sublist_of` logged_of (events (x m)).

(** The messages logged at info level. *)
Definition infos_of (evs : list event) : list string :=
  omap (λ ev, match ev with Log InfoLevel _ msg => Some msg | _ => None end) evs.

(* ===================================================================== *)
(** ** Scenarios *)
(* ===================================================================== *)

(** One config [A] that needs two resources of type [B], as in the
    end-to-end scenarios, on the in-memory broker. *)
Module scenario.
Import fake.

Definition cfgA : ResourcesConfig :=
  mkResourcesConfig "A" (mkConfigType "greeter" "hi") {[ "B" := 2%Z ]}.

Definition cfgZ : ResourcesConfig :=
  mkResourcesConfig "Z" (mkConfigType "greeter" "hi") ∅.

(** A constructor that returns the user data [{greeting: content}], and one
    that always fails. *)
Definition greeter : ConfigConverter :=
  λ content, Ok (mkMasonable (λ _ _, Ok (Some {[ "greeting" := content ]}))).

Definition faulty : ConfigConverter :=
  λ _, Ok (mkMasonable (λ _ _, Err (External "cannot construct"))).

Definition mason (b : broker) (converter : ConfigConverter) (ctx : option nat)
    : Mason broker (list ResourcesConfig) :=
  mkMason b [cfgA] [] [] [] {[ "greeter" := converter ]} ctx.

Definition b1 (state : string) : Resource := mkResource "B" "b1" state None.
Definition b2 (state : string) : Resource := mkResource "B" "b2" state None.

(** The primary once fulfilled and cleaned: it records its two leases. *)
Definition a1_leasing (state : string) : Resource :=
  mkResource "A" "a1" state
    (Some {[ LeasedResourcesKey := "b1;b2;"; "greeting" := "hi" ]}).

Definition cleaned_request : requirements :=
  {| resource := a1_leasing Cleaning;
     needs := {[ "B" := 2%Z ]};
     fulfillment := {[ "B" := [b1 Leased; b2 Leased] ]} |}.

(** The Releaser has received [cleaned_request]; the broker will refuse the
    release of [b2] once. *)
Definition releasing : Mason broker (list ResourcesConfig) :=
  mason (mkBroker [a1_leasing Cleaning; b1 Leased; b2 Leased] ["b2"]) greeter None.

(** A request whose primary carries no user data at all. *)
Definition bare_request : requirements :=
  {| resource := mkResource "A" "a1" Cleaning None;
     needs := {[ "B" := 2%Z ]};
     fulfillment := ∅ |}.

Definition releasing_bare : Mason broker (list ResourcesConfig) :=
  mason (mkBroker [mkResource "A" "a1" Cleaning None] []) greeter None.

(** The Cleaner has received a fulfilled request, and the constructor
    fails. *)
Definition fulfilled_request : requirements :=
  {| resource := mkResource "A" "a1" Cleaning (Some {[ LeasedResourcesKey := "b1;b2;" ]});
     needs := {[ "B" := 2%Z ]};
     fulfillment := {[ "B" := [b1 Leased; b2 Leased] ]} |}.

Definition cleaning_fails : Mason broker (list ResourcesConfig) :=
  mason (mkBroker [resource fulfilled_request; b1 Leased; b2 Leased] []) faulty None.

(** The second recycle: the primary is dirty again and its two secondaries
    are parked under its name. *)
Definition recycling : Mason broker (list ResourcesConfig) :=
  mason (mkBroker [a1_leasing Dirty; b1 "a1"; b2 "a1"] []) greeter None.

(** A primary whose lease was dissolved by a broker that keeps the emptied
    entry: the key is there, with the empty value the Recycler wrote. *)
Definition a1_cleared (state : string) : Resource :=
  mkResource "A" "a1" state (Some {[ LeasedResourcesKey := "" ]}).

(** A dirty primary whose lease list cannot be decoded. *)
Definition a1_garbled (state : string) : Resource :=
  mkResource "A" "a1" state (Some {[ LeasedResourcesKey := "b1" ]}).

Definition recycling_garbled : Mason broker (list ResourcesConfig) :=
  mason (mkBroker [a1_garbled Dirty] []) greeter None.

(** Two configs, and nothing dirty of type [Z]. *)
Definition recycling_two : Mason broker (list ResourcesConfig) :=
  mkMason (mkBroker [mkResource "A" "a1" Dirty None] []) [cfgZ; cfgA] [] [] []
    {[ "greeter" := greeter ]} None.

(** Shutdown mid-fulfillment: one of the two needed [B]s is free, and the
    context is cancelled after one wait. *)
Definition pending_request : requirements :=
  {| resource := mkResource "A" "a1" Cleaning None;
     needs := {[ "B" := 2%Z ]};
     fulfillment := ∅ |}.

Definition fulfilling : Mason broker (list ResourcesConfig) :=
  mason (mkBroker [mkResource "A" "a1" Cleaning None; b1 Free] []) greeter (Some 1).

(** The same request with both [B]s free and a context that stays live. *)
Definition fulfilling_two : Mason broker (list ResourcesConfig) :=
  mason (mkBroker [mkResource "A" "a1" Cleaning None; b1 Free; b2 Free] []) greeter None.

(** A request that needs zero resources of type [B]. *)
Definition zero_request : requirements :=
  {| resource := mkResource "A" "a1" Cleaning None;
     needs := {[ "B" := 0%Z ]};
     fulfillment := ∅ |}.

(** A census with two primaries and three secondaries. *)
Definition census5 : list Resource :=
  [ mkResource "A" "a1" Dirty None; mkResource "A" "a2" Dirty None;
    b1 Free; b2 Free; mkResource "B" "b3" Free None ].

Definition idle : Mason broker (list ResourcesConfig) :=
  mason (mkBroker census5 []) greeter None.

(** The Cleaner has the fulfilled request of the happy path before it. *)
Definition cleaning : Mason broker (list ResourcesConfig) :=
  set_fulfilled [fulfilled_request]
    (mason (mkBroker [resource fulfilled_request; b1 Leased; b2 Leased] []) greeter None).

(** The Releaser has the cleaned request before it, and a broker that
    refuses nothing. *)
Definition freeing : Mason broker (list ResourcesConfig) :=
  set_cleaned [cleaned_request]
    (mason (mkBroker [a1_leasing Cleaning; b1 Leased; b2 Leased] []) greeter None).

(** The Releaser has a request without user data before it. *)
Definition freeing_bare : Mason broker (list ResourcesConfig) :=
  set_cleaned [bare_request] releasing_bare.

(** The Recycler of [recycling_two] under a context that is cancelled after
    one wait. *)
Definition recycling_once : Mason broker (list ResourcesConfig) :=
  set_ctx (Some 1%nat) recycling_two.

(** A census without a primary. *)
Definition census_secondaries : list Resource := [b1 Free; b2 Free].

End scenario.

(* ===================================================================== *)
(** ** Facts about [range] and Go's int *)
(* ===================================================================== *)

Section RangeFacts.
Context `{!MapOrder}.

Lemma elem_of_range {V} (m : gmap string V) (k : string) (v : V) :
  (k, v) ∈ range m ↔ m !! k = Some v.
Proof. rewrite (range_perm V m). apply elem_of_map_to_list. Qed.

Lemma NoDup_fst_range {V} (m : gmap string V) : NoDup (range m).*1.
Proof.
  eapply NoDup_Permutation_proper; [| apply (NoDup_fst_map_to_list m)].
  apply fmap_Permutation, range_perm.
Qed.

Lemma list_to_map_range {V} (m : gmap string V) : list_to_map (range m) = m.
Proof.
  rewrite <- (list_to_map_to_list m) at 2.
  apply list_to_map_proper; [apply NoDup_fst_range | apply range_perm].
Qed.

Lemma elem_of_allResources (ttr : TypeToResources) (r : Resource) :
  r ∈ allResources ttr ↔ ∃ t rs, ttr !! t = Some rs ∧ r ∈ rs.
Proof.
  unfold allResources. rewrite list_elem_of_bind. split.
  - intros ([t rs] & Hr & Hin). exists t, rs. split; [|done].
    by apply elem_of_range.
  - intros (t & rs & Hl & Hr). exists (t, rs). split; [done|].
    by apply elem_of_range.
Qed.

End RangeFacts.

Lemma int_wrap_add_l (a b : Z) : int_wrap (int_wrap a + b) = int_wrap (a + b).
Proof.
  unfold int_wrap.
  replace ((a + 2 ^ 63) mod 2 ^ 64 - 2 ^ 63 + b + 2 ^ 63)%Z
    with ((a + 2 ^ 63) mod 2 ^ 64 + b)%Z by lia.
  rewrite Zplus_mod_idemp_l. f_equal. f_equal. lia.
Qed.

(** A value in the range of an int is its own wrap-around. *)
Lemma int_wrap_small (z : Z) : (- 2 ^ 63 ≤ z < 2 ^ 63)%Z → int_wrap z = z.
Proof. intros Hz. unfold int_wrap. rewrite Z.mod_small; lia. Qed.

(* ===================================================================== *)
(** ** isFulFilled *)
(* ===================================================================== *)

Section Fulfilled.
Context `{!MapOrder}.

Lemma isFulFilled_true (r : requirements) :
  isFulFilled r = true ↔
  ∀ t n, needs r !! t = Some n →
    ∃ rs, fulfillment r !! t = Some rs ∧ Z.of_nat (length rs) = n.
Proof.
  unfold isFulFilled. rewrite forallb_forall. split.
  - intros Hall t n Hn.
    specialize (Hall (t, n)). cbn in Hall.
    destruct (fulfillment r !! t) as [rs|].
    + exists rs. split; [done|].
      eapply bool_decide_eq_true_1, Hall, list_elem_of_In, elem_of_range, Hn.
    + discriminate Hall. by apply list_elem_of_In, elem_of_range.
  - intros Hall [t n] Hin%list_elem_of_In%elem_of_range.
    destruct (Hall t n Hin) as (rs & -> & Hlen).
    by apply bool_decide_eq_true_2.
Qed.

(** Only the entries of the needed types matter. *)
Lemma isFulFilled_ext (r : requirements) (f : TypeToResources) :
  (∀ t, is_Some (needs r !! t) → f !! t = fulfillment r !! t) →
  isFulFilled (set_fulfillment f r) = isFulFilled r.
Proof.
  intros Hsame. apply Bool.eq_iff_eq_true.
  rewrite !isFulFilled_true. cbn.
  split; intros Hall t n Hn; destruct (Hall t n Hn) as (rs & Hl & Hlen);
    exists rs; (split; [|done]).
  - by rewrite <- Hsame.
  - by rewrite Hsame.
Qed.

(** C4. isFulFilled is true exactly when every type of the needs has an
    entry in the fulfillment with exactly the needed number of resources;
    adding, replacing or removing the entry of a type that the needs do not
    mention leaves the answer unchanged. *)
Theorem isFulFilled_iff (r : requirements) :
  (isFulFilled r = true ↔
     ∀ t n, needs r !! t = Some n →
       ∃ rs, fulfillment r !! t = Some rs ∧ Z.of_nat (length rs) = n)
  ∧ (∀ t rs, needs r !! t = None →
       isFulFilled (set_fulfillment (<[t := rs]> (fulfillment r)) r) = isFulFilled r
       ∧ isFulFilled (set_fulfillment (delete t (fulfillment r)) r) = isFulFilled r).
Proof.
  split; [apply isFulFilled_true|].
  intros t rs Hnone.
  split; apply isFulFilled_ext; intros t' [n Hn].
  - apply lookup_insert_ne. congruence.
  - apply lookup_delete_ne. congruence.
Qed.

End Fulfilled.

(* ===================================================================== *)
(** ** ValidateConfig *)
(* ===================================================================== *)

Section ValidateFacts.
Context {C S : Type} `{!MapOrder}.

Lemma foldl_addNeeds (l : list (string * Z)) (rn : gmap string Z) (t : string) :
  NoDup l.*1 →
  foldl (λ acc '(k, v), <[k := int_add (needs_at acc k) v]> acc) rn l !! t
  = match (list_to_map l : gmap string Z) !! t with
    | Some v => Some (int_add (needs_at rn t) v)
    | None => rn !! t
    end.
Proof.
  revert rn. induction l as [|[k v] l IH]; intros rn Hnd; cbn.
  - by rewrite lookup_empty.
  - apply NoDup_cons in Hnd as [Hk Hnd]. rewrite IH by done.
    destruct (decide (k = t)) as [->|Hne].
    + rewrite lookup_insert_eq.
      rewrite (not_elem_of_list_to_map_1 _ t Hk).
      by rewrite lookup_insert_eq.
    + rewrite (lookup_insert_ne _ k t) by done.
      unfold needs_at at 1. rewrite !lookup_insert_ne by done. done.
Qed.

Lemma addNeeds_lookup (c rn : gmap string Z) (t : string) :
  addNeeds c rn !! t
  = match c !! t with
    | Some v => Some (int_add (needs_at rn t) v)
    | None => rn !! t
    end.
Proof.
  unfold addNeeds. rewrite foldl_addNeeds by apply NoDup_fst_range.
  by rewrite list_to_map_range.
Qed.

Lemma needs_at_addNeeds (c rn : gmap string Z) (t : string) :
  needs_at (addNeeds c rn) t
  = match c !! t with
    | Some v => int_add (needs_at rn t) v
    | None => needs_at rn t
    end.
Proof.
  unfold needs_at at 1. rewrite addNeeds_lookup. by destruct (c !! t).
Qed.

Lemma demand_of_cons cn r census t :
  demand_of cn (r :: census) t
  = (needs_at (default ∅ (cn !! rType r)) t + demand_of cn census t)%Z.
Proof. reflexivity. Qed.

Lemma demand_of_untouched cn census t :
  existsb (touches cn t) census = false → demand_of cn census t = 0%Z.
Proof.
  induction census as [|r census IH]; [done|].
  cbn [existsb]. intros [Hr Hrest]%orb_false_elim.
  rewrite demand_of_cons, IH by done.
  unfold touches in Hr. unfold needs_at.
  destruct (cn !! rType r) as [c|]; cbn.
  - apply bool_decide_eq_false_1 in Hr.
    destruct (c !! t); [|done]. by destruct Hr.
  - by rewrite lookup_empty.
Qed.

Lemma countOne_lookup (rtype : string) (act : gmap string Z) (t : string) :
  countOne rtype act !! t
  = if bool_decide (rtype = t) then Some (int_wrap (needs_at act t + 1)) else act !! t.
Proof.
  unfold countOne. case_bool_decide as Heq.
  - subst. by rewrite lookup_insert_eq.
  - by rewrite lookup_insert_ne.
Qed.

Lemma supply_cons (r : Resource) (census : list Resource) (t : string) :
  supply (r :: census) t
  = ((if bool_decide (rType r = t) then 1 else 0) + supply census t)%Z.
Proof.
  unfold supply. rewrite filter_cons.
  case_bool_decide; destruct (decide _); try done; cbn [length]; lia.
Qed.

Lemma supply_none (census : list Resource) (t : string) :
  existsb (λ r, bool_decide (rType r = t)) census = false → supply census t = 0%Z.
Proof.
  induction census as [|r census IH]; [done|].
  cbn [existsb]. intros [Hr Hrest]%orb_false_elim.
  rewrite supply_cons, Hr, IH by done. done.
Qed.

Lemma countResources_spec (census : list Resource) (cn : gmap string ResourceNeeds)
    (rn act : gmap string Z) (m : Mason C S) :
  ∃ rn' act',
    countResources census cn rn act m = (Ok (rn', act'), m, [])
    ∧ (∀ t, rn' !! t
            = if existsb (touches cn t) census
              then Some (int_wrap (needs_at rn t + demand_of cn census t))
              else rn !! t)
    ∧ (∀ t, act' !! t
            = if existsb (λ r, bool_decide (rType r = t)) census
              then Some (int_wrap (needs_at act t + supply census t))
              else act !! t).
Proof.
  revert rn act. induction census as [|r census IH]; intros rn act.
  - exists rn, act. done.
  - cbn [countResources existsb].
    assert (Hact : ∀ act' : gmap string Z,
      (∀ t, act' !! t
            = if existsb (λ r, bool_decide (rType r = t)) census
              then Some (int_wrap (needs_at (countOne (rType r) act) t + supply census t))
              else countOne (rType r) act !! t) →
      ∀ t, act' !! t
           = if bool_decide (rType r = t) || existsb (λ r, bool_decide (rType r = t)) census
             then Some (int_wrap (needs_at act t + supply (r :: census) t))
             else act !! t).
    { intros act' Hact' t. rewrite Hact', supply_cons. unfold needs_at at 1.
      rewrite countOne_lookup.
      destruct (existsb _ census) eqn:Hex; case_bool_decide; cbn.
      all: try rewrite int_wrap_add_l.
      all: try rewrite supply_none by done.
      all: try done.
      all: do 2 f_equal; lia. }
    unfold touches at 1.
    destruct (cn !! rType r) as [c|] eqn:Hc.
    + destruct (IH (addNeeds c rn) (countOne (rType r) act)) as (rn' & act' & Hrun & Hrn & Hac).
      exists rn', act'. split; [done|]. split; [|by apply Hact].
      intros t. rewrite Hrn, demand_of_cons, Hc, needs_at_addNeeds, addNeeds_lookup.
      change (needs_at (default ∅ (Some c)) t) with (default 0%Z (c !! t)).
      destruct (c !! t) as [v|] eqn:Hv; cbn.
      * destruct (existsb _ census) eqn:Hex; unfold int_add.
        -- rewrite int_wrap_add_l. do 2 f_equal. lia.
        -- rewrite demand_of_untouched by done. do 2 f_equal. lia.
      * destruct (existsb _ census); done.
    + destruct (IH rn (countOne (rType r) act)) as (rn' & act' & Hrun & Hrn & Hac).
      exists rn', act'. split; [done|]. split; [|by apply Hact].
      intros t. rewrite Hrn, demand_of_cons, Hc. cbn.
      unfold needs_at at 3. rewrite lookup_empty. cbn.
      destruct (existsb _ census); done.
Qed.

Lemma configFor_Some configs k c :
  configFor configs k = Some c → c ∈ configs ∧ cName c = k.
Proof.
  intros [Hin Hk]%find_some. split; [by apply list_elem_of_In|].
  by apply bool_decide_eq_true_1 in Hk.
Qed.

Lemma configFor_NoDup configs k c :
  NoDup (cName <$> configs) → c ∈ configs → cName c = k → configFor configs k = Some c.
Proof.
  induction configs as [|c' configs IH]; intros Hnd Hin Hk.
  - by apply elem_of_nil in Hin.
  - rewrite fmap_cons in Hnd. apply NoDup_cons in Hnd as [Hfresh Hnd].
    unfold configFor. cbn. case_bool_decide as Hc'.
    + apply elem_of_cons in Hin as [->|Hin]; [done|].
      exfalso. apply Hfresh. apply list_elem_of_fmap. exists c. split; [congruence|done].
    + apply elem_of_cons in Hin as [->|Hin]; [done|]. by apply IH.
Qed.

Lemma collectConfigNames_spec (configs : list ResourcesConfig)
    (acc : gmap string ResourceNeeds) :
  match collectConfigNames configs acc with
  | Ok cn =>
      NoDup (cName <$> configs) ∧ (∀ c, c ∈ configs → acc !! cName c = None)
      ∧ ∀ k, cn !! k = match configFor configs k with
                       | Some c => Some (cNeeds c)
                       | None => acc !! k
                       end
  | Err _ => ¬ (NoDup (cName <$> configs) ∧ ∀ c, c ∈ configs → acc !! cName c = None)
  end.
Proof.
  revert acc. induction configs as [|c configs IH]; intros acc; cbn.
  - split; [constructor|]. split; [|done]. by intros c ?%elem_of_nil.
  - destruct (acc !! cName c) eqn:Hacc.
    + intros [_ Hfree]. rewrite Hfree in Hacc by left. done.
    + specialize (IH (<[cName c := cNeeds c]> acc)).
      destruct (collectConfigNames configs _) as [cn|err].
      * destruct IH as (Hnd & Hfree & Hcn).
        assert (Hfresh : ∀ c', c' ∈ configs → cName c' ≠ cName c).
        { intros c' Hin Heq. specialize (Hfree c' Hin).
          by rewrite Heq, lookup_insert_eq in Hfree. }
        split; [|split].
        -- apply NoDup_cons. split; [|done].
           intros (c' & Heq & Hin)%list_elem_of_fmap. by apply (Hfresh c').
        -- intros c' [->|Hin]%elem_of_cons; [done|].
           specialize (Hfree c' Hin). by rewrite lookup_insert_ne in Hfree by (symmetry; auto).
        -- intros k. rewrite Hcn. unfold configFor. cbn [find].
           fold (configFor configs k).
           case_bool_decide as Hk.
           ++ destruct (configFor configs k) as [c'|] eqn:Hfor.
              ** apply configFor_Some in Hfor as [Hin Hc']. exfalso.
                 apply (Hfresh c' Hin). congruence.
              ** subst. by rewrite lookup_insert_eq.
           ++ destruct (configFor configs k); [done|]. by rewrite lookup_insert_ne.
      * intros [Hnd Hfree]. apply IH.
        apply NoDup_cons in Hnd as [Hfresh Hnd].
        split; [done|]. intros c' Hin. rewrite lookup_insert_ne.
        -- apply Hfree. by right.
        -- intros Heq. apply Hfresh. apply list_elem_of_fmap. by exists c'.
Qed.

Lemma checkNeeds_after entries act (m : Mason C S) :
  after (checkNeeds entries act m) = m.
Proof.
  induction entries as [|[t n] entries IH]; cbn; [done|].
  destruct (act !! t) as [a|]; [|done].
  case_bool_decide; [done|]. apply IH.
Qed.

Lemma checkNeeds_calls entries act (m : Mason C S) :
  calls_of (events (checkNeeds entries act m)) = [].
Proof.
  induction entries as [|[t n] entries IH]; cbn; [done|].
  destruct (act !! t) as [a|]; [|done].
  case_bool_decide; [done|]. apply IH.
Qed.

Lemma checkNeeds_fails entries act (m : Mason C S) :
  value (checkNeeds entries act m) ≠ None ↔
  ∃ t n, (t, n) ∈ entries
         ∧ (act !! t = None ∨ ∃ a, act !! t = Some a ∧ (n > a)%Z).
Proof.
  induction entries as [|[t n] entries IH]; cbn.
  - split; [done|]. by intros (t & n & ?%elem_of_nil & _).
  - destruct (act !! t) as [a|] eqn:Ha.
    + case_bool_decide as Hgt.
      * split; [|done]. intros _. exists t, n. split; [left|]. right. eauto.
      * rewrite IH. split.
        -- intros (t' & n' & Hin & Hbad). exists t', n'. split; [by right|done].
        -- intros (t' & n' & [Heq|Hin]%elem_of_cons & Hbad); [|by eauto].
           injection Heq as -> ->. destruct Hbad as [Hbad|(a' & Ha' & Hbad)].
           ++ congruence.
           ++ congruence.
    + split; [|done]. intros _. exists t, n. split; [left|]. by left.
Qed.

Lemma demand_of_demand configs cn census t :
  (∀ k, cn !! k = cNeeds <$> configFor configs k) →
  demand_of cn census t = demand configs census t.
Proof.
  intros Hcn. induction census as [|r census IH]; [done|].
  rewrite demand_of_cons, IH, Hcn. done.
Qed.

Lemma touches_referenced configs cn census t :
  NoDup (cName <$> configs) →
  (∀ k, cn !! k = cNeeds <$> configFor configs k) →
  existsb (touches cn t) census = true ↔ referenced configs census t.
Proof.
  intros Hnd Hcn. rewrite existsb_exists. unfold touches, referenced. split.
  - intros (r & Hin & Hr). rewrite Hcn in Hr.
    destruct (configFor configs (rType r)) as [c|] eqn:Hfor; [|done].
    apply configFor_Some in Hfor as [Hc Hname].
    exists r, c. repeat split; [by apply list_elem_of_In|done|done|].
    by apply bool_decide_eq_true_1 in Hr.
  - intros (r & c & Hr & Hc & Hname & Hsome).
    exists r. split; [by apply list_elem_of_In|].
    rewrite Hcn, (configFor_NoDup configs (rType r) c) by done.
    by apply bool_decide_eq_true_2.
Qed.

Lemma supply_pos (census : list Resource) (t : string) :
  existsb (λ r, bool_decide (rType r = t)) census = true → supply census t ≠ 0%Z.
Proof.
  induction census as [|r census IH]; [done|].
  cbn [existsb]. rewrite supply_cons. intros Hex.
  assert (0 ≤ supply census t)%Z by (unfold supply; lia).
  case_bool_decide; [lia|]. cbn in Hex. specialize (IH Hex). lia.
Qed.

(** C8, as amended.  ValidateConfig returns an error exactly when two
    configs share a name, or a type referenced by the Needs of a config whose
    name is the type of a census resource has no resource in the census, or
    for such a type the needs, added up once per census resource whose type
    names a config (as a Go int), exceed the number of census resources of
    the type; otherwise it returns nil.  It leaves the Mason object
    untouched and calls no broker: its only effect is its log lines. *)
Theorem ValidateConfig_fails_iff (configs : list ResourcesConfig)
    (census : list Resource) (m : Mason C S) :
  (value (ValidateConfig configs census m) ≠ None ↔
     ¬ NoDup (cName <$> configs)
     ∨ (∃ t, referenced configs census t ∧ supply census t = 0%Z)
     ∨ (∃ t, referenced configs census t
             ∧ (int_wrap (demand configs census t) > int_wrap (supply census t))%Z))
  ∧ after (ValidateConfig configs census m) = m
  ∧ calls_of (events (ValidateConfig configs census m)) = [].
Proof.
  unfold ValidateConfig.
  pose proof (collectConfigNames_spec configs ∅) as Hc.
  destruct (collectConfigNames configs ∅) as [cn|err].
  - destruct Hc as (Hnd & _ & Hcn).
    assert (Hcn' : ∀ k, cn !! k = cNeeds <$> configFor configs k).
    { intros k. rewrite Hcn. destruct (configFor configs k); [done|apply lookup_empty]. }
    clear Hcn.
    destruct (countResources_spec census cn ∅ ∅ m) as (rn & act & Hrun & Hrn & Hact).
    unfold bind. rewrite Hrun.
    pose proof (checkNeeds_fails (range rn) act m) as Hfail.
    pose proof (checkNeeds_after (range rn) act m) as Hafter.
    pose proof (checkNeeds_calls (range rn) act m) as Hcalls.
    destruct (checkNeeds (range rn) act m) as [[v m'] tr].
    cbn in Hfail, Hafter, Hcalls |- *. split; [|done].
    rewrite Hfail. clear Hfail Hafter.
    assert (Hentry : ∀ t n, (t, n) ∈ range rn ↔
              referenced configs census t ∧ n = int_wrap (demand configs census t)).
    { intros t n. rewrite elem_of_range, Hrn, lookup_empty.
      rewrite <- (touches_referenced configs cn census t) by done.
      rewrite (demand_of_demand configs) by done.
      unfold needs_at. rewrite lookup_empty. cbn.
      destruct (existsb (touches cn t) census); split.
      - intros [= <-]. done.
      - intros [_ ->]. done.
      - done.
      - intros [? _]. done. }
    assert (Hnone : ∀ t, act !! t = None ↔ supply census t = 0%Z).
    { intros t. rewrite Hact, lookup_empty.
      destruct (existsb _ census) eqn:Hex.
      - split; [done|]. intros Hz. by apply supply_pos in Hex.
      - split; [|done]. intros _. by apply supply_none. }
    assert (Hsome : ∀ t a, act !! t = Some a → a = int_wrap (supply census t)).
    { intros t a. rewrite Hact, lookup_empty. unfold needs_at. rewrite lookup_empty.
      cbn. destruct (existsb _ census); [|done]. by intros [= <-]. }
    split.
    + intros (t & n & [Href ->]%Hentry & [Hno|(a & Ha & Hgt)]); right.
      * left. exists t. split; [done|]. by apply Hnone.
      * right. exists t. split; [done|]. by rewrite <- (Hsome t a Ha).
    + intros [Hdup|[(t & Href & Hzero)|(t & Href & Hgt)]]; [done| |].
      * exists t, (int_wrap (demand configs census t)).
        split; [by apply Hentry|]. left. by apply Hnone.
      * exists t, (int_wrap (demand configs census t)).
        split; [by apply Hentry|].
        destruct (act !! t) as [a|] eqn:Ha; [|by left].
        right. exists a. split; [done|]. by rewrite (Hsome t a Ha).
  - cbn. split; [|done]. split; [|done].
    intros _. left. intros Hnd. apply Hc. split; [done|].
    intros c _. apply lookup_empty.
Qed.
End ValidateFacts.

(* ===================================================================== *)
(** ** Running a computation: value, state and events of its parts *)
(* ===================================================================== *)

Lemma calls_of_app (a b : list event) : calls_of (a ++ b) = calls_of a ++ calls_of b.
Proof. apply omap_app. Qed.

Lemma failures_of_app (a b : list event) :
  failures_of (a ++ b) = failures_of a ++ failures_of b.
Proof. apply omap_app. Qed.

Lemma logged_of_app (a b : list event) : logged_of (a ++ b) = logged_of a ++ logged_of b.
Proof. apply omap_app. Qed.

Lemma acquired_of_app (a b : list event) :
  acquired_of (a ++ b) = acquired_of a ++ acquired_of b.
Proof. apply bind_app. Qed.

Section MonadFacts.
Context {C S : Type}.
Implicit Types m : Mason C S.

Lemma value_bind {A B} (x : M C S A) (k : A → M C S B) m :
  value (bind x k m) = value (k (value (x m)) (after (x m))).
Proof.
  unfold bind, value, after. destruct (x m) as [[a m1] t1]. cbn.
  by destruct (k a m1) as [[b m2] t2].
Qed.

Lemma after_bind {A B} (x : M C S A) (k : A → M C S B) m :
  after (bind x k m) = after (k (value (x m)) (after (x m))).
Proof.
  unfold bind, value, after. destruct (x m) as [[a m1] t1]. cbn.
  by destruct (k a m1) as [[b m2] t2].
Qed.

Lemma events_bind {A B} (x : M C S A) (k : A → M C S B) m :
  events (bind x k m) = events (x m) ++ events (k (value (x m)) (after (x m))).
Proof.
  unfold bind, value, after, events. destruct (x m) as [[a m1] t1]. cbn.
  by destruct (k a m1) as [[b m2] t2].
Qed.

Lemma value_ret {A} (a : A) m : value (ret a m) = a.
Proof. done. Qed.
Lemma after_ret {A} (a : A) m : after (ret a m) = m.
Proof. done. Qed.
Lemma events_ret {A} (a : A) m : events (ret a m) = [].
Proof. done. Qed.

Lemma value_logf lvl err msg m : value (logf lvl err msg m) = tt.
Proof. done. Qed.
Lemma after_logf lvl err msg m : after (logf lvl err msg m) = m.
Proof. done. Qed.
Lemma events_logf lvl err msg m : events (logf lvl err msg m) = [Log lvl err msg].
Proof. done. Qed.

Lemma value_gets {A} (f : Mason C S → A) m : value (gets f m) = f m.
Proof. done. Qed.
Lemma after_gets {A} (f : Mason C S → A) m : after (gets f m) = m.
Proof. done. Qed.
Lemma events_gets {A} (f : Mason C S → A) m : events (gets f m) = [].
Proof. done. Qed.

Lemma after_modify (f : Mason C S → Mason C S) m : after (modify f m) = f m.
Proof. done. Qed.
Lemma events_modify (f : Mason C S → Mason C S) m : events (modify f m) = [].
Proof. done. Qed.

End MonadFacts.

Section ClientFacts.
Context {C S : Type} `{!boskosClient C}.
Implicit Types m : Mason C S.

Lemma value_client_ReleaseOne n d m :
  value (client_ReleaseOne n d m) = (ReleaseOne n d (client m)).1.
Proof. unfold client_ReleaseOne. by destruct (ReleaseOne n d (client m)). Qed.
Lemma after_client_ReleaseOne n d m :
  after (client_ReleaseOne n d m) = set_client (ReleaseOne n d (client m)).2 m.
Proof. unfold client_ReleaseOne. by destruct (ReleaseOne n d (client m)). Qed.
Lemma events_client_ReleaseOne n d m :
  events (client_ReleaseOne n d m)
  = [Call (CReleaseOne n d) [] (ReleaseOne n d (client m)).1].
Proof. unfold client_ReleaseOne. by destruct (ReleaseOne n d (client m)). Qed.

Lemma value_client_UpdateOne n st ud m :
  value (client_UpdateOne n st ud m) = (UpdateOne n st ud (client m)).1.
Proof. unfold client_UpdateOne. by destruct (UpdateOne n st ud (client m)). Qed.
Lemma after_client_UpdateOne n st ud m :
  after (client_UpdateOne n st ud m) = set_client (UpdateOne n st ud (client m)).2 m.
Proof. unfold client_UpdateOne. by destruct (UpdateOne n st ud (client m)). Qed.
Lemma events_client_UpdateOne n st ud m :
  events (client_UpdateOne n st ud m)
  = [Call (CUpdateOne n st ud) [] (UpdateOne n st ud (client m)).1].
Proof. unfold client_UpdateOne. by destruct (UpdateOne n st ud (client m)). Qed.

Lemma value_client_Acquire t st d m :
  value (client_Acquire t st d m) = (Acquire t st d (client m)).1.
Proof. unfold client_Acquire. by destruct (Acquire t st d (client m)). Qed.
Lemma after_client_Acquire t st d m :
  after (client_Acquire t st d m) = set_client (Acquire t st d (client m)).2 m.
Proof. unfold client_Acquire. by destruct (Acquire t st d (client m)). Qed.
Lemma events_client_Acquire t st d m :
  events (client_Acquire t st d m)
  = [Call (CAcquire t st d) (returned_of (Acquire t st d (client m)).1)
       (error_of (Acquire t st d (client m)).1)].
Proof. unfold client_Acquire. by destruct (Acquire t st d (client m)). Qed.

Lemma value_client_AcquireByState st d ns m :
  value (client_AcquireByState st d ns m) = (AcquireByState st d ns (client m)).1.
Proof.
  unfold client_AcquireByState. by destruct (AcquireByState st d ns (client m)).
Qed.
Lemma after_client_AcquireByState st d ns m :
  after (client_AcquireByState st d ns m)
  = set_client (AcquireByState st d ns (client m)).2 m.
Proof.
  unfold client_AcquireByState. by destruct (AcquireByState st d ns (client m)).
Qed.
Lemma events_client_AcquireByState st d ns m :
  events (client_AcquireByState st d ns m)
  = [Call (CAcquireByState st d ns) (AcquireByState st d ns (client m)).1.1
       (AcquireByState st d ns (client m)).1.2].
Proof.
  unfold client_AcquireByState. by destruct (AcquireByState st d ns (client m)).
Qed.

Lemma after_send_cleaned req m :
  after (send_cleaned req m) = set_cleaned (cleaned m ++ [req]) m.
Proof. done. Qed.
Lemma events_send_cleaned req m : events (send_cleaned req m) = [].
Proof. done. Qed.
Lemma after_send_pending req m :
  after (send_pending req m) = set_pending (pending m ++ [req]) m.
Proof. done. Qed.
Lemma events_send_pending req m : events (send_pending req m) = [].
Proof. done. Qed.
Lemma after_send_fulfilled req m :
  after (send_fulfilled req m) = set_fulfilled (fulfilled m ++ [req]) m.
Proof. done. Qed.
Lemma events_send_fulfilled req m : events (send_fulfilled req m) = [].
Proof. done. Qed.

End ClientFacts.

Create Rewrite HintDb run.
#[global] Hint Rewrite @value_bind @after_bind @events_bind
  @value_ret @after_ret @events_ret @value_logf @after_logf @events_logf
  @value_gets @after_gets @events_gets @after_modify @events_modify
  @value_client_ReleaseOne @after_client_ReleaseOne @events_client_ReleaseOne
  @value_client_UpdateOne @after_client_UpdateOne @events_client_UpdateOne
  @value_client_Acquire @after_client_Acquire @events_client_Acquire
  @value_client_AcquireByState @after_client_AcquireByState
  @events_client_AcquireByState
  @after_send_cleaned @events_send_cleaned @after_send_pending @events_send_pending
  @after_send_fulfilled @events_send_fulfilled : run.

(** Runs the computation in the goal as far as its shape is known. *)
Ltac run := repeat (progress (autorewrite with run; cbn beta iota)).

(* ===================================================================== *)
(** ** What a computation preserves and what it emits *)
(* ===================================================================== *)

Section Invariants.
Context {C S : Type} `{!boskosClient C} `{!Storage S}.
Implicit Types m : Mason C S.

Lemma preserves_ret {A X} (f : Mason C S → X) (a : A) : preserves f (ret a).
Proof. done. Qed.
Lemma preserves_logf {X} (f : Mason C S → X) lvl err msg : preserves f (logf lvl err msg).
Proof. done. Qed.
Lemma preserves_gets {A X} (f : Mason C S → X) (g : Mason C S → A) : preserves f (gets g).
Proof. done. Qed.
Lemma preserves_bind {A B X} (f : Mason C S → X) (x : M C S A) (k : A → M C S B) :
  preserves f x → (∀ a, preserves f (k a)) → preserves f (bind x k).
Proof. intros Hx Hk m. rewrite after_bind, Hk. apply Hx. Qed.
Lemma preserves_forM_ {A X} (f : Mason C S → X) (xs : list A) (body : A → M C S unit) :
  (∀ a, preserves f (body a)) → preserves f (forM_ xs body).
Proof.
  intros Hbody. induction xs as [|a xs IH]; [apply preserves_ret|].
  cbn [forM_]. by apply preserves_bind.
Qed.

Lemma preserves_client_ReleaseOne {X} (f : Mason C S → X) n d :
  (∀ c m, f (set_client c m) = f m) → preserves f (client_ReleaseOne n d).
Proof. intros Hf m. by rewrite after_client_ReleaseOne. Qed.
Lemma preserves_client_UpdateOne {X} (f : Mason C S → X) n st ud :
  (∀ c m, f (set_client c m) = f m) → preserves f (client_UpdateOne n st ud).
Proof. intros Hf m. by rewrite after_client_UpdateOne. Qed.
Lemma preserves_client_Acquire {X} (f : Mason C S → X) t st d :
  (∀ c m, f (set_client c m) = f m) → preserves f (client_Acquire t st d).
Proof. intros Hf m. by rewrite after_client_Acquire. Qed.
Lemma preserves_client_AcquireByState {X} (f : Mason C S → X) st d ns :
  (∀ c m, f (set_client c m) = f m) → preserves f (client_AcquireByState st d ns).
Proof. intros Hf m. by rewrite after_client_AcquireByState. Qed.
Lemma preserves_select_timer {X} (f : Mason C S → X) :
  (∀ c m, f (set_ctx c m) = f m) → preserves f select_timer.
Proof.
  intros Hf m. unfold select_timer.
  destruct (ctx m) as [[|n]|]; unfold after; cbn; rewrite ?Hf; done.
Qed.

Lemma emits_ret {A} P (a : A) : emits (C:=C) (S:=S) P (ret a).
Proof. intros m. constructor. Qed.
Lemma emits_gets {A} P (f : Mason C S → A) : emits P (gets f).
Proof. intros m. constructor. Qed.
Lemma emits_modify P (f : Mason C S → Mason C S) : emits P (modify f).
Proof. intros m. constructor. Qed.
Lemma emits_logf (P : event → Prop) lvl err msg :
  P (Log lvl err msg) → emits (C:=C) (S:=S) P (logf lvl err msg).
Proof. intros HP m. by repeat constructor. Qed.
Lemma emits_bind {A B} P (x : M C S A) (k : A → M C S B) :
  emits P x → (∀ a, emits P (k a)) → emits P (bind x k).
Proof.
  intros Hx Hk m. rewrite events_bind. apply Forall_app. split; [apply Hx|apply Hk].
Qed.
Lemma emits_forM_ {A} P (xs : list A) (body : A → M C S unit) :
  (∀ a, emits P (body a)) → emits P (forM_ xs body).
Proof.
  intros Hbody. induction xs as [|a xs IH]; [apply emits_ret|].
  cbn [forM_]. by apply emits_bind.
Qed.

Lemma emits_client_ReleaseOne (P : event → Prop) n d :
  (∀ rs err, P (Call (CReleaseOne n d) rs err)) →
  emits (C:=C) (S:=S) P (client_ReleaseOne n d).
Proof. intros HP m. rewrite events_client_ReleaseOne. by repeat constructor. Qed.
Lemma emits_client_UpdateOne (P : event → Prop) n st ud :
  (∀ rs err, P (Call (CUpdateOne n st ud) rs err)) →
  emits (C:=C) (S:=S) P (client_UpdateOne n st ud).
Proof. intros HP m. rewrite events_client_UpdateOne. by repeat constructor. Qed.
Lemma emits_client_Acquire (P : event → Prop) t st d :
  (∀ rs err, P (Call (CAcquire t st d) rs err)) →
  emits (C:=C) (S:=S) P (client_Acquire t st d).
Proof. intros HP m. rewrite events_client_Acquire. by repeat constructor. Qed.
Lemma emits_client_AcquireByState (P : event → Prop) st d ns :
  (∀ rs err, P (Call (CAcquireByState st d ns) rs err)) →
  emits (C:=C) (S:=S) P (client_AcquireByState st d ns).
Proof. intros HP m. rewrite events_client_AcquireByState. by repeat constructor. Qed.
Lemma emits_select_timer P : emits (C:=C) (S:=S) P select_timer.
Proof. intros m. unfold select_timer. destruct (ctx m) as [[|n]|]; constructor. Qed.

End Invariants.

(** Proves [preserves f x] along the structure of [x], leaving the calls to
    functions it does not know. *)
Ltac preserves_step :=
  first
    [ apply preserves_ret | apply preserves_logf | apply preserves_gets
    | apply preserves_client_ReleaseOne; done
    | apply preserves_client_UpdateOne; done
    | apply preserves_client_Acquire; done
    | apply preserves_client_AcquireByState; done
    | apply preserves_select_timer; done
    | apply preserves_forM_; intros ?
    | apply preserves_bind; [|intros ?]
    | match goal with
      | |- preserves _ (match ?x with _ => _ end) => destruct x
      | |- preserves _ (if ?x then _ else _) => destruct x
      end ].
Ltac preserves_auto := repeat preserves_step.

(** The same for [emits P x]. *)
Ltac emits_step :=
  first
    [ apply emits_ret | apply emits_gets | apply emits_modify
    | apply emits_select_timer
    | apply emits_logf; done
    | apply emits_client_ReleaseOne; done
    | apply emits_client_UpdateOne; done
    | apply emits_client_Acquire; done
    | apply emits_client_AcquireByState; done
    | apply emits_forM_; intros ?
    | apply emits_bind; [|intros ?]
    | match goal with
      | |- emits _ (match ?x with _ => _ end) => destruct x
      | |- emits _ (if ?x then _ else _) => destruct x
      end ].
Ltac emits_auto := repeat emits_step.

(* ===================================================================== *)
(** ** The Releaser *)
(* ===================================================================== *)

Section Releaser.
Context {C S : Type} `{!boskosClient C} `{!Storage S} `{!MapOrder} `{!UserDataCodec}.
Implicit Types m : Mason C S.

Lemma preserves_releaseLogged {X} (f : Mason C S → X) lvl what n d :
  (∀ c m, f (set_client c m) = f m) → preserves f (releaseLogged lvl what n d).
Proof. intros Hf. unfold releaseLogged. preserves_auto. Qed.

Lemma emits_releaseLogged (P : event → Prop) lvl what n d :
  (∀ rs err, P (Call (CReleaseOne n d) rs err)) → (∀ err, P (Log lvl err (what +:+ n))) →
  emits (C:=C) (S:=S) P (releaseLogged lvl what n d).
Proof. intros H1 H2. unfold releaseLogged. emits_auto. Qed.

(** A loop of logged releases calls ReleaseOne once per resource, in order. *)
Lemma releaseAll_calls lvl what dest (rs : list Resource) m :
  calls_of (events (forM_ rs (λ r, releaseLogged lvl what (rName r) dest) m))
  = (λ r, CReleaseOne (rName r) dest) <$> rs.
Proof.
  revert m. induction rs as [|r rs IH]; intros m; [done|].
  cbn [forM_]. unfold releaseLogged at 1. run.
  rewrite !calls_of_app, IH.
  destruct (ReleaseOne _ _ _).1; run; done.
Qed.

(** Every failure of a loop of logged releases is logged, and nothing else
    is. *)
Lemma releaseAll_logged lvl what dest (rs : list Resource) m :
  failures_of (events (forM_ rs (λ r, releaseLogged lvl what (rName r) dest) m))
  = logged_of (events (forM_ rs (λ r, releaseLogged lvl what (rName r) dest) m)).
Proof.
  revert m. induction rs as [|r rs IH]; intros m; [done|].
  cbn [forM_]. unfold releaseLogged at 1 3. run.
  rewrite !failures_of_app, !logged_of_app, IH.
  destruct (ReleaseOne _ _ _).1; run; done.
Qed.

(** The loop of freeOne releases every name to [dest], and returns the
    aggregate of the errors of the releases that failed. *)
Lemma freeLeased_spec names dest acc m :
  calls_of (events (freeLeased names dest acc m)) = (λ n, CReleaseOne n dest) <$> names
  ∧ value (freeLeased names dest acc m)
    = aggregate acc (failures_of (events (freeLeased names dest acc m)))
  ∧ cleaned (after (freeLeased names dest acc m)) = cleaned m.
Proof.
  revert acc m. induction names as [|n names IH]; intros acc m; [done|].
  cbn [freeLeased]. run.
  destruct (ReleaseOne n dest (client m)) as [[err|] c]; cbn [fst snd]; run.
  - destruct (IH (Some (multierror_Append acc err)) (set_client c m)) as (Hc & Hv & Hq).
    rewrite !calls_of_app, !failures_of_app, Hc, Hv, Hq. done.
  - destruct (IH acc (set_client c m)) as (Hc & Hv & Hq).
    rewrite !calls_of_app, !failures_of_app, Hc, Hv, Hq. done.
Qed.

(** One turn of the loop of freeAll: with a live context and a request
    at the head of the cleaned queue, the Releaser takes it off the queue,
    handles it and goes on with the rest; a request it puts back is at the
    end of the queue and is taken again in a later turn. *)
Theorem freeAll_step fuel req rest m :
  ctx m ≠ Some 0 → cleaned m = req :: rest →
  freeAll (Datatypes.S fuel) m
  = (freeRecv req ;;; freeAll fuel) (set_cleaned rest m).
Proof.
  intros Hctx Hq. cbn [freeAll]. unfold bind at 1, select_recv.
  rewrite Hq. destruct (ctx m) as [[|d]|]; [done| |].
  all: cbn; by destruct (bind _ _ _) as [[? ?] ?].
Qed.

(** C1, as amended.  When the release of the primary to free fails, freeOne
    returns that error after this one call, and the Releaser puts the request
    back at the end of the cleaned queue, from where [freeAll_step] takes it
    again.  When the primary is released and its lease list is read, freeOne
    releases every leased name to the state named after the primary and
    returns the aggregate of the errors of the releases that failed; if there
    is such an error the request is put back on the cleaned queue as well,
    and it is dropped only when every release succeeded. *)
Theorem freeRecv_requeues (req : requirements) m :
  let name := rName (resource req) in
  let released := ReleaseOne name Free (client m) in
  (∀ e, released.1 = Some e →
     value (freeOne (resource req) m) = Some e
     ∧ calls_of (events (freeRecv req m)) = [CReleaseOne name Free]
     ∧ cleaned (after (freeRecv req m)) = cleaned m ++ [req])
  ∧ (∀ ud names,
       released.1 = None →
       rUserData (resource req) = Some ud →
       Extract (Some ud) LeasedResourcesKey = Ok names →
       ∃ evs,
         events (freeRecv req m) = Call (CReleaseOne name Free) [] None :: evs
         ∧ calls_of evs = (λ n, CReleaseOne n name) <$> default [] names
         ∧ value (freeOne (resource req) m) = aggregate None (failures_of evs)
         ∧ cleaned (after (freeRecv req m))
           = if aggregate None (failures_of evs) is Some _
             then cleaned m ++ [req] else cleaned m).
Proof.
  intros name released. subst name released. split.
  - intros e He. unfold freeRecv, freeOne. run. rewrite He. run. done.
  - intros ud names Hok Hud Hnames. unfold freeRecv, freeOne. run.
    rewrite Hok, Hud, Hnames. run.
    set (m1 := set_client _ m).
    destruct (freeLeased_spec (default [] names) (rName (resource req)) None m1)
      as (Hc & Hv & Hq).
    destruct (value (freeLeased _ _ None m1)) as [e|] eqn:Hval; run;
      cbn [app]; (eexists; split; [reflexivity|]);
      rewrite ?app_nil_r, ?calls_of_app, ?failures_of_app; cbn [calls_of failures_of omap];
      rewrite ?app_nil_r, <- Hv; cbn [cleaned set_cleaned]; rewrite ?Hq; done.
Qed.

(** C10.  For a request whose primary has nil user data, freeOne calls
    ReleaseOne(primary, free) and nothing else; it returns the error of that
    call if it failed, and otherwise, the primary now being free in the
    broker, the error "UserData is empty", which is not the not-found error
    an extraction from a nil map would give.  Either way the Releaser puts
    the request back on the cleaned queue. *)
Theorem freeOne_nil_UserData (req : requirements) m :
  rUserData (resource req) = None →
  let name := rName (resource req) in
  let released := ReleaseOne name Free (client m) in
  let err := default (Errorf "UserData is empty") released.1 in
  value (freeOne (resource req) m) = Some err
  ∧ (∃ msg, events (freeRecv req m)
            = [Call (CReleaseOne name Free) [] released.1;
               Log ErrorLevel (Some err) msg])
  ∧ client (after (freeRecv req m)) = released.2
  ∧ cleaned (after (freeRecv req m)) = cleaned m ++ [req].
Proof.
  intros Hnil name released err. subst name released err.
  unfold freeRecv, freeOne. run.
  destruct (ReleaseOne (rName (resource req)) Free (client m)) as [[e|] c];
    cbn [fst snd default from_option id]; run.
  - repeat split; eauto.
  - rewrite Hnil. run. repeat split; eauto.
Qed.

End Releaser.

(* ===================================================================== *)
(** ** The Cleaner *)
(* ===================================================================== *)

Section Cleaner.
Context {C S : Type} `{!boskosClient C} `{!Storage S} `{!MapOrder} `{!UserDataCodec}.
Implicit Types m : Mason C S.

Lemma preserves_cleanOne res leased :
  preserves (C:=C) (S:=S) queues (cleanOne res leased).
Proof. unfold cleanOne, storage_GetConfig, convertConfig. preserves_auto. Qed.

(** cleanOne returns an error exactly in the four cases of [cleaningFails]. *)
Lemma cleanOne_fails_iff (req : requirements) m :
  is_Some (value (cleanOne (resource req) (fulfillment req) m)).1 ↔ cleaningFails req m.
Proof.
  unfold cleanOne, cleaningFails, storage_GetConfig, convertConfig. run.
  destruct (GetConfig _ _) as [configEntry|e]; run; [|by split; eauto].
  destruct (configConverters m !! _) as [fn|]; run; [|by split; eauto].
  destruct (fn _) as [config|e]; run; [|by split; eauto].
  destruct (Construct _ _ _) as [userData|e]; run; [|by split; eauto].
  destruct (UpdateOne _ _ _ _).1 as [e|]; run; [by split; eauto|].
  cbn. split; by intros [? ?].
Qed.

(** C2.  When cleaning a request fails (the config lookup, the build of the
    constructor, Construct, or the broker's UpdateOne), cleanOne returns an
    error, and after it the Cleaner calls ReleaseOne(primary, dirty) and then
    ReleaseOne(r, dirty) for every resource of every type of the request's
    fulfillment, and nothing else; no queue changes, so the request is not
    pushed onto cleaned. *)
Theorem cleanRecv_unwinds (req : requirements) m :
  cleaningFails req m →
  is_Some (value (cleanOne (resource req) (fulfillment req) m)).1
  ∧ (∃ evs,
       events (cleanRecv req m)
       = events (cleanOne (resource req) (fulfillment req) m) ++ evs
       ∧ calls_of evs
         = CReleaseOne (rName (resource req)) Dirty
             :: ((λ r, CReleaseOne (rName r) Dirty) <$> allResources (fulfillment req)))
  ∧ (∀ t rs r, fulfillment req !! t = Some rs → r ∈ rs →
       CReleaseOne (rName r) Dirty ∈ calls_of (events (cleanRecv req m)))
  ∧ queues (after (cleanRecv req m)) = queues m.
Proof.
  intros Hfail%cleanOne_fails_iff. split; [done|].
  assert (Hevs : ∃ evs,
    events (cleanRecv req m)
    = events (cleanOne (resource req) (fulfillment req) m) ++ evs
    ∧ calls_of evs
      = CReleaseOne (rName (resource req)) Dirty
          :: ((λ r, CReleaseOne (rName r) Dirty) <$> allResources (fulfillment req))).
  { unfold cleanRecv. run.
    destruct (value (cleanOne _ _ m)) as [[e|] res]; [|by destruct Hfail].
    run. eexists. split; [reflexivity|].
    rewrite calls_of_app, releaseAll_calls. unfold releaseLogged. run.
    rewrite calls_of_app. destruct (ReleaseOne _ _ _).1; run; done. }
  split; [done|]. split.
  - intros t rs r Ht Hr. destruct Hevs as (evs & -> & Hcalls).
    rewrite calls_of_app, Hcalls. apply elem_of_app. right. right.
    apply list_elem_of_fmap. exists r. split; [done|].
    apply elem_of_allResources. eauto.
  - unfold cleanRecv. rewrite after_bind.
    destruct (value (cleanOne _ _ m)) as [[e|] res] eqn:Hv; [|by destruct Hfail].
    cbn beta iota.
    assert (Hk : preserves (C:=C) (S:=S) queues
      (releaseLogged ErrorLevel "Unable to release resource " (rName (resource req)) Dirty ;;;
       forM_ (allResources (fulfillment req))
         (λ r, releaseLogged ErrorLevel "Unable to release leased resource "
                 (rName r) Dirty))).
    { preserves_auto; by apply preserves_releaseLogged. }
    rewrite Hk. apply preserves_cleanOne.
Qed.

End Cleaner.

(* ===================================================================== *)
(** ** The Recycler *)
(* ===================================================================== *)

Section Recycler.
Context {C S : Type} `{!boskosClient C} `{!Storage S} `{!MapOrder} `{!UserDataCodec}.
Implicit Types m : Mason C S.

Lemma preserves_reclaim res cfg lr : preserves (C:=C) (S:=S) queues (reclaim res cfg lr).
Proof. unfold reclaim. preserves_auto; by apply preserves_releaseLogged. Qed.

Lemma preserves_recycleOne res : preserves (C:=C) (S:=S) queues (recycleOne res).
Proof. unfold recycleOne, storage_GetConfig. preserves_auto; apply preserves_reclaim. Qed.

Lemma recycleOne_no_Acquire res :
  emits (C:=C) (S:=S) (λ ev, isAcquire ev = false) (recycleOne res).
Proof.
  unfold recycleOne, reclaim, storage_GetConfig. emits_auto; by apply emits_releaseLogged.
Qed.

(** The value and the calls of the lease reclaim. *)
Lemma reclaim_names res cfg names m :
  let acquired := AcquireByState (rName res) Leased names (client m) in
  value (reclaim res cfg (Some names) m)
  = Ok {| resource := set_rUserData (delete LeasedResourcesKey <$> rUserData res) res;
          needs := cNeeds cfg; fulfillment := ∅ |}
  ∧ calls_of (events (reclaim res cfg (Some names) m))
    = CAcquireByState (rName res) Leased names
        :: ((λ r, CReleaseOne (rName r) Dirty) <$> acquired.1.1)
        ++ [CUpdateOne (rName res) (rState res) (Some {[ LeasedResourcesKey := "" ]})].
Proof.
  intros acquired. subst acquired. unfold reclaim. run. split; [done|].
  rewrite !calls_of_app, releaseAll_calls.
  destruct (AcquireByState _ _ _ _).1.2; run;
    destruct (UpdateOne _ _ _ _).1; run; done.
Qed.

(** Every failure of a broker call of the lease reclaim is logged, and
    nothing else is. *)
Lemma reclaim_logged res cfg lr m :
  failures_of (events (reclaim res cfg lr m)) = logged_of (events (reclaim res cfg lr m)).
Proof.
  unfold reclaim. destruct lr as [names|]; [|done]. run.
  rewrite !failures_of_app, !logged_of_app, releaseAll_logged.
  destruct (AcquireByState _ _ _ _).1.2; run;
    destruct (UpdateOne _ _ _ _).1; run; done.
Qed.

(** C3, as amended.  The lease reclaim is entered on the decoded list, not
    on the key.  When the user data of the primary has no leasedResources
    key, or the value under the key decodes to the nil list, recycleOne makes
    no call to the broker and hands the primary on as it is.  When the key is
    there and decodes to a list of names (and the config of the primary's
    type is found), the calls of recycleOne are, in order:
    AcquireByState(primary name, leased, names), ReleaseOne(r, dirty) for
    every resource r that call returned, and UpdateOne(primary name, primary
    state, {leasedResources: empty}); the request it returns carries the
    primary with the key deleted from its user data. *)
Theorem recycleOne_reclaim (res : Resource) m :
  (rUserData res ≫= (.!! LeasedResourcesKey) = None →
     calls_of (events (recycleOne res m)) = []
     ∧ client (after (recycleOne res m)) = client m
     ∧ ∀ req, value (recycleOne res m) = Ok req → resource req = res)
  ∧ (∀ content,
       rUserData res ≫= (.!! LeasedResourcesKey) = Some content →
       yaml_Unmarshal content = inl None →
       calls_of (events (recycleOne res m)) = []
       ∧ client (after (recycleOne res m)) = client m
       ∧ ∀ req, value (recycleOne res m) = Ok req → resource req = res)
  ∧ (∀ cfg ud content names,
       GetConfig (rType res) (storage m) = Ok cfg →
       rUserData res = Some ud →
       ud !! LeasedResourcesKey = Some content →
       yaml_Unmarshal content = inl (Some names) →
       let acquired := AcquireByState (rName res) Leased names (client m) in
       calls_of (events (recycleOne res m))
       = CAcquireByState (rName res) Leased names
           :: ((λ r, CReleaseOne (rName r) Dirty) <$> acquired.1.1)
           ++ [CUpdateOne (rName res) (rState res) (Some {[ LeasedResourcesKey := "" ]})]
       ∧ value (recycleOne res m)
         = Ok {| resource := set_rUserData (Some (delete LeasedResourcesKey ud)) res;
                 needs := cNeeds cfg; fulfillment := ∅ |}).
Proof.
  split; [|split].
  - intros Habsent. unfold recycleOne, storage_GetConfig, Extract. run.
    rewrite Habsent.
    destruct (GetConfig _ _) as [cfg|e]; run; [|by split; [|split]].
    cbn. run. by split; [|split; [|intros req [= <-]]].
  - intros content Hcontent Hnil. unfold recycleOne, storage_GetConfig, Extract. run.
    rewrite Hcontent, Hnil.
    destruct (GetConfig _ _) as [cfg|e]; run; [|by split; [|split]].
    cbn. run. by split; [|split; [|intros req [= <-]]].
  - intros cfg ud content names Hcfg Hud Hcontent Hnames acquired. subst acquired.
    unfold recycleOne, storage_GetConfig, Extract. run.
    rewrite Hcfg, Hud. cbn [mbind option_bind]. rewrite Hcontent, Hnames. run.
    destruct (reclaim_names res cfg names m) as [Hv Hc].
    cbn [app]. change (calls_of (?ev :: ?evs)) with (calls_of evs).
    rewrite Hv, Hc, Hud. done.
Qed.

Lemma filter_isAcquire_none (evs : list event) :
  Forall (λ ev, isAcquire ev = false) evs → List.filter isAcquire evs = [].
Proof.
  induction 1 as [|ev evs Hev _ IH]; [done|]. cbn. by rewrite Hev.
Qed.

(** The body of the loop of recycleAll calls Acquire once, first. *)
Lemma recycleType_Acquire r m :
  List.filter isAcquire (events (recycleType r m))
  = [Call (CAcquire r Dirty Cleaning) (returned_of (Acquire r Dirty Cleaning (client m)).1)
       (error_of (Acquire r Dirty Cleaning (client m)).1)].
Proof.
  unfold recycleType. run. cbn [app List.filter isAcquire]. f_equal.
  apply filter_isAcquire_none.
  destruct (Acquire _ _ _ _).1 as [res|e]; run.
  - apply Forall_app. split; [apply recycleOne_no_Acquire|].
    destruct (value (recycleOne res _)) as [req|e]; run; [constructor|].
    apply Forall_cons. split; [done|].
    by apply emits_releaseLogged.
  - by repeat constructor.
Qed.

Lemma recycleTypes_Acquire (rtypes : list string) m :
  calls_of (List.filter isAcquire (events (forM_ rtypes recycleType m)))
  = (λ r, CAcquire r Dirty Cleaning) <$> rtypes.
Proof.
  revert m. induction rtypes as [|r rtypes IH]; intros m; [done|].
  cbn [forM_]. run. rewrite List.filter_app, calls_of_app, IH, recycleType_Acquire. done.
Qed.

(** C7.  In one iteration of the Recycler over the configs the storage
    returned, the calls to Acquire are, in the order of the configs, one
    Acquire(c.Name, dirty, cleaning) per config c: the name of a config is
    the type of the primary resource it governs.  When that call fails for a
    config (with NotFound or any other error), the error is logged at debug
    level and nothing else is done for the config: no further call, nothing
    enqueued. *)
Theorem recycleTick_acquires (configs : list ResourcesConfig) m :
  GetConfigs (storage m) = Ok configs →
  calls_of (List.filter isAcquire (events (recycleTick m)))
  = (λ c, CAcquire (cName c) Dirty Cleaning) <$> configs
  ∧ ∀ c e m', c ∈ configs →
      (Acquire (cName c) Dirty Cleaning (client m')).1 = Err e →
      recycleType (cName c) m'
      = (tt, set_client (Acquire (cName c) Dirty Cleaning (client m')).2 m',
         [Call (CAcquire (cName c) Dirty Cleaning) [] (Some e);
          Log DebugLevel (Some e) "boskos acquire failed!"]).
Proof.
  intros Hconfigs. split.
  - unfold recycleTick, storage_GetConfigs. run. rewrite Hconfigs. cbn [app].
    rewrite recycleTypes_Acquire. by rewrite <- list_fmap_compose.
  - intros c e m' _ He. unfold recycleType, bind, client_Acquire.
    destruct (Acquire _ _ _ _) as [a c']. cbn in He. subst a. done.
Qed.

(** recycleOne returns its errors before it calls the broker. *)
Lemma recycleOne_Err_calls res m e :
  value (recycleOne res m) = Err e → calls_of (events (recycleOne res m)) = [].
Proof.
  unfold recycleOne, storage_GetConfig. run.
  destruct (GetConfig _ _) as [cfg|e']; run; [|done].
  destruct (Extract _ _) as [[names|]|e']; run.
  - by destruct (reclaim_names res cfg names m) as [-> _].
  - done.
  - destruct (isUserDataNotFound e'); run; done.
Qed.

(** C6.  For a primary [res] that Acquire returned: recycleOne returns an
    error exactly when the config lookup for the type of [res] fails, or the
    lookup succeeds and extracting leasedResources fails with an error that
    is not the not-found error.  In that case the Recycler, after Acquire,
    only calls ReleaseOne(res, dirty), and no queue changes.  In every other
    case, whatever the broker answers to AcquireByState, to the releases of
    the reclaimed secondaries and to the clearing UpdateOne, the errors of
    these calls are logged (the logged errors are exactly the errors of the
    calls), recycleOne returns a request with the needs of the config and an
    empty fulfillment, and the Recycler appends it to pending. *)
Theorem recycleOne_errors (r : string) (res : Resource) (m0 : Mason C S) :
  (Acquire r Dirty Cleaning (client m0)).1 = Ok res →
  let m := set_client (Acquire r Dirty Cleaning (client m0)).2 m0 in
  (∀ e, value (recycleOne res m) = Err e ↔
        GetConfig (rType res) (storage m) = Err e
        ∨ ((∃ cfg, GetConfig (rType res) (storage m) = Ok cfg)
           ∧ Extract (rUserData res) LeasedResourcesKey = Err e
           ∧ isUserDataNotFound e = false))
  ∧ (∀ e, value (recycleOne res m) = Err e →
        calls_of (events (recycleType r m0))
        = [CAcquire r Dirty Cleaning; CReleaseOne (rName res) Dirty]
        ∧ queues (after (recycleType r m0)) = queues m0)
  ∧ (∀ cfg, GetConfig (rType res) (storage m) = Ok cfg →
        (∀ e, Extract (rUserData res) LeasedResourcesKey = Err e →
              isUserDataNotFound e = true) →
        ∃ req, value (recycleOne res m) = Ok req
               ∧ needs req = cNeeds cfg ∧ fulfillment req = ∅
               ∧ failures_of (events (recycleOne res m))
                 = logged_of (events (recycleOne res m))
               ∧ pending (after (recycleType r m0)) = pending m0 ++ [req]).
Proof.
  intros Hacq m.
  assert (Hiff : ∀ e, value (recycleOne res m) = Err e ↔
        GetConfig (rType res) (storage m) = Err e
        ∨ ((∃ cfg, GetConfig (rType res) (storage m) = Ok cfg)
           ∧ Extract (rUserData res) LeasedResourcesKey = Err e
           ∧ isUserDataNotFound e = false)).
  { intros e. unfold recycleOne, storage_GetConfig. run.
    destruct (GetConfig _ _) as [cfg|e']; run.
    - destruct (Extract _ _) as [[names|]|e']; run.
      + destruct (reclaim_names res cfg names m) as [-> _].
        split; [done|]. by intros [?|(_ & ? & _)].
      + split; [done|]. by intros [?|(_ & ? & _)].
      + destruct (isUserDataNotFound e') eqn:Hnf; run.
        * split; [done|]. intros [?|(_ & [= ->] & ?)]; congruence.
        * split.
          -- intros [= ->]. right. eauto.
          -- intros [?|(_ & [= ->] & _)]; done.
    - split; [intros [= ->]; by left|]. intros [[= ->]|([? ?] & _)]; done. }
  split; [done|]. split.
  - intros e He. pose proof (recycleOne_Err_calls res m e He) as Hcalls.
    unfold recycleType. rewrite after_bind, events_bind.
    rewrite value_client_Acquire, after_client_Acquire, events_client_Acquire, Hacq.
    fold m. cbn beta iota. rewrite after_bind, events_bind, He. cbn beta iota.
    rewrite !calls_of_app, Hcalls. split.
    + unfold releaseLogged. run. destruct (ReleaseOne _ _ _).1; run; done.
    + assert (Hk : preserves (C:=C) (S:=S) queues
        (logf ErrorLevel (Some e) ("unable to recycle resource " +:+ rName res) ;;;
         releaseLogged ErrorLevel "Unable to release resources " (rName res) Dirty)).
      { preserves_auto; by apply preserves_releaseLogged. }
      rewrite Hk. by rewrite preserves_recycleOne.
  - intros cfg Hcfg Hsoft.
    destruct (value (recycleOne res m)) as [req|e] eqn:Hv.
    + exists req.
      assert (needs req = cNeeds cfg ∧ fulfillment req = ∅) as [Hn Hf].
      { revert Hv. unfold recycleOne, storage_GetConfig. run. rewrite Hcfg. run.
        destruct (Extract _ _) as [[names|]|e']; run.
        - destruct (reclaim_names res cfg names m) as [-> _]. by intros [= <-].
        - by intros [= <-].
        - destruct (isUserDataNotFound e'); run; [|done]. by intros [= <-]. }
      assert (Hlog : failures_of (events (recycleOne res m))
                     = logged_of (events (recycleOne res m))).
      { revert Hv. unfold recycleOne, storage_GetConfig. run. rewrite Hcfg. run.
        cbn [app]. change (failures_of (?ev :: ?evs)) with (failures_of evs).
        change (logged_of (Log InfoLevel None ?msg :: ?evs)) with (logged_of evs).
        destruct (Extract _ _) as [lr|e']; run; [intros _; apply reclaim_logged|].
        destruct (isUserDataNotFound e'); run; [|done].
        intros _. apply reclaim_logged. }
      repeat split; [done..|].
      unfold recycleType. rewrite after_bind.
      rewrite value_client_Acquire, after_client_Acquire, Hacq.
      fold m. cbn beta iota. rewrite after_bind, Hv. cbn beta iota. run.
      cbn [pending set_pending].
      pose proof (preserves_recycleOne res m) as Hq.
      by injection Hq as -> _ _.
    + destruct (proj1 (Hiff e) eq_refl) as [Hv'|(_ & Hx & Hnf)]; [congruence|].
      rewrite (Hsoft e Hx) in Hnf. done.
Qed.

End Recycler.

(* ===================================================================== *)
(** ** The Fulfiller *)
(* ===================================================================== *)

Section Fulfiller.
Context {C S : Type} `{!boskosClient C} `{!Storage S} `{!MapOrder} `{!UserDataCodec}.
Implicit Types m : Mason C S.

Lemma preserves_updateResources {X} (f : Mason C S → X) req :
  (∀ c m, f (set_client c m) = f m) → preserves f (updateResources req).
Proof. intros Hf. unfold updateResources. preserves_auto. Qed.

Lemma preserves_fulfillType fuel rType needs req :
  preserves (C:=C) (S:=S) queues (fulfillType fuel rType needs req).
Proof.
  revert needs req. induction fuel as [|fuel IH]; intros needs req;
    cbn [fulfillType]; case_bool_decide; preserves_auto;
    first [apply IH | by apply preserves_updateResources].
Qed.

Lemma preserves_fulfillTypes fuel rTypes needs req :
  preserves (C:=C) (S:=S) queues (fulfillTypes fuel rTypes needs req).
Proof.
  revert needs req. induction rTypes as [|rType rTypes IH]; intros needs req;
    cbn [fulfillTypes]; [apply preserves_ret|].
  apply preserves_bind; [apply preserves_fulfillType|].
  intros [[[[e|] needs'] req']|]; preserves_auto. apply IH.
Qed.

Lemma preserves_persistLease req : preserves (C:=C) (S:=S) queues (persistLease req).
Proof. unfold persistLease. preserves_auto. Qed.

Lemma preserves_fulfillOne fuel req : preserves (C:=C) (S:=S) queues (fulfillOne fuel req).
Proof.
  unfold fulfillOne, acquireNeeds.
  apply preserves_bind; [apply preserves_fulfillTypes|].
  intros [[[e|] req']|]; preserves_auto; apply preserves_persistLease.
Qed.

Lemma preserves_releaseFulfillment req :
  preserves (C:=C) (S:=S) queues (releaseFulfillment req).
Proof. unfold releaseFulfillment. preserves_auto; by apply preserves_releaseLogged. Qed.

(** updateResources only calls UpdateOne, with nil user data. *)
Lemma emits_updateResources (P : event → Prop) req :
  (∀ n st rs err, P (Call (CUpdateOne n st None) rs err)) →
  (∀ lvl err msg, P (Log lvl err msg)) →
  emits (C:=C) (S:=S) P (updateResources req).
Proof. intros H1 H2. unfold updateResources. emits_auto. Qed.

Lemma emits_fulfillType fuel rType needs req :
  emits (C:=C) (S:=S) (λ ev, isRelease ev = false) (fulfillType fuel rType needs req).
Proof.
  revert needs req. induction fuel as [|fuel IH]; intros needs req;
    cbn [fulfillType]; case_bool_decide; emits_auto;
    first [apply IH | by apply emits_updateResources].
Qed.

Lemma emits_fulfillTypes fuel rTypes needs req :
  emits (C:=C) (S:=S) (λ ev, isRelease ev = false) (fulfillTypes fuel rTypes needs req).
Proof.
  revert needs req. induction rTypes as [|rType rTypes IH]; intros needs req;
    cbn [fulfillTypes]; [apply emits_ret|].
  apply emits_bind; [apply emits_fulfillType|].
  intros [[[[e|] needs'] req']|]; emits_auto. apply IH.
Qed.

Lemma emits_fulfillOne fuel req :
  emits (C:=C) (S:=S) (λ ev, isRelease ev = false) (fulfillOne fuel req).
Proof.
  unfold fulfillOne, acquireNeeds.
  apply emits_bind; [apply emits_fulfillTypes|].
  intros [[[e|] req']|]; emits_auto.
  unfold persistLease. emits_auto.
Qed.

Lemma not_release_calls (evs : list event) n d :
  Forall (λ ev, isRelease ev = false) evs → CReleaseOne n d ∉ calls_of evs.
Proof.
  induction 1 as [|ev evs Hev _ IH]; [by intros ?%elem_of_nil|].
  destruct ev as [[]|]; cbn; try done.
  all: intros [?|?]%elem_of_cons; done.
Qed.

Lemma releaseFulfillment_calls req m :
  calls_of (events (releaseFulfillment req m))
  = (λ r, CReleaseOne (rName r) Free) <$> allResources (fulfillment req).
Proof.
  unfold releaseFulfillment. generalize (allResources (fulfillment req)) as rs.
  intros rs. revert m. induction rs as [|r rs IH]; intros m; [done|].
  cbn [forM_]. unfold releaseLogged at 1. run.
  rewrite !calls_of_app, IH.
  destruct (ReleaseOne _ _ _).1; run; done.
Qed.

(** *** What fulfillOne acquires ends in the fulfillment *)

Lemma acquired_of_none (evs : list event) :
  Forall (λ ev, isAcquire ev = false) evs → acquired_of evs = [].
Proof.
  induction 1 as [|ev evs Hev _ IH]; [done|].
  unfold acquired_of in *. rewrite bind_cons, IH.
  by destruct ev as [[]|].
Qed.

Lemma allResources_append rType res req :
  allResources (fulfillment (appendFulfillment rType res req))
  ≡ₚ allResources (fulfillment req) ++ [res].
Proof.
  unfold allResources, appendFulfillment. cbn [fulfillment set_fulfillment].
  rewrite !range_perm.
  destruct (fulfillment req !! rType) as [l|] eqn:Hl; cbn [default from_option id].
  - rewrite <- insert_delete_eq.
    rewrite map_to_list_insert by apply lookup_delete_eq.
    rewrite <- (map_to_list_delete _ _ _ Hl), !bind_cons. cbn [snd].
    rewrite <- !app_assoc. apply Permutation_app_head, Permutation_app_comm.
  - rewrite map_to_list_insert by done. rewrite bind_cons. cbn [snd app].
    apply Permutation_cons_append.
Qed.

Lemma fulfillType_acquired fuel rType needs req m e needs' req' :
  value (fulfillType fuel rType needs req m) = Some (e, needs', req') →
  allResources (fulfillment req')
  ≡ₚ allResources (fulfillment req)
     ++ acquired_of (events (fulfillType fuel rType needs req m)).
Proof.
  revert needs req m. induction fuel as [|fuel IH]; intros needs req m;
    cbn [fulfillType]; case_bool_decide.
  - done.
  - intros [= _ _ ->]. by rewrite app_nil_r.
  - run. unfold select_timer.
    destruct (ctx m) as [[|d]|]; cbn [value after events fst snd]; cbn beta iota.
    + intros [= _ _ ->]. by rewrite app_nil_r.
    + run. rewrite !acquired_of_app.
      rewrite (acquired_of_none (events (updateResources _ _)))
        by (by apply emits_updateResources).
      destruct (Acquire _ _ _ _).1 as [res|err]; run; cbn [app].
      * intros Hv%IH. rewrite Hv, allResources_append.
        by rewrite <- !app_assoc.
      * intros Hv%IH. by rewrite Hv.
    + run. rewrite !acquired_of_app.
      rewrite (acquired_of_none (events (updateResources _ _)))
        by (by apply emits_updateResources).
      destruct (Acquire _ _ _ _).1 as [res|err]; run; cbn [app].
      * intros Hv%IH. rewrite Hv, allResources_append.
        by rewrite <- !app_assoc.
      * intros Hv%IH. by rewrite Hv.
  - intros [= _ _ ->]. by rewrite app_nil_r.
Qed.

Lemma fulfillTypes_acquired fuel rTypes needs req m e req' :
  value (fulfillTypes fuel rTypes needs req m) = Some (e, req') →
  allResources (fulfillment req')
  ≡ₚ allResources (fulfillment req)
     ++ acquired_of (events (fulfillTypes fuel rTypes needs req m)).
Proof.
  revert needs req m. induction rTypes as [|rType rTypes IH]; intros needs req m;
    cbn [fulfillTypes].
  - intros [= _ ->]. by rewrite app_nil_r.
  - run. rewrite acquired_of_app.
    pose proof (fulfillType_acquired fuel rType needs req m) as Hty.
    destruct (value (fulfillType fuel rType needs req m))
      as [[[[e1|] needs1] req1]|]; run; [| |done].
    + intros [= _ <-]. rewrite app_nil_r. by eapply Hty.
    + intros Hv%IH. rewrite Hv, (Hty None needs1 req1 eq_refl).
      by rewrite <- !app_assoc.
Qed.

(** The end of fulfillOne only calls UpdateOne. *)
Lemma emits_persistLease (P : event → Prop) req :
  (∀ n st ud rs err, P (Call (CUpdateOne n st ud) rs err)) →
  (∀ lvl err msg, P (Log lvl err msg)) →
  emits (C:=C) (S:=S) P (persistLease req).
Proof. intros H1 H2. unfold persistLease. emits_auto. Qed.

(** The end of fulfillOne leaves the fulfillment as it is. *)
Lemma persistLease_fulfillment req m :
  fulfillment (value (persistLease req m)).2 = fulfillment req.
Proof.
  unfold persistLease. destruct (isFulFilled req); [|done].
  destruct (UserData_Set _ _ _); run; [|done].
  destruct (UpdateOne _ _ _ _).1; run; done.
Qed.

(** The fulfillment fulfillOne leaves holds what it held before and what
    Acquire handed out meanwhile, and nothing else. *)
Lemma fulfillOne_acquired fuel req m e req' :
  value (fulfillOne fuel req m) = Some (e, req') →
  allResources (fulfillment req')
  ≡ₚ allResources (fulfillment req) ++ acquired_of (events (fulfillOne fuel req m)).
Proof.
  unfold fulfillOne, acquireNeeds. run. rewrite acquired_of_app.
  pose proof (fulfillTypes_acquired fuel (range (copyNeeds req)).*1 (copyNeeds req) req m)
    as Hty.
  destruct (value (fulfillTypes fuel _ _ req m)) as [[[e1|] req1]|]; run; [| |done].
  - intros [= _ <-]. rewrite app_nil_r. by eapply Hty.
  - rewrite app_nil_r, (acquired_of_none (events (persistLease _ _)))
      by (by apply emits_persistLease).
    rewrite app_nil_r. intros [= Hv]. rewrite <- (Hty None req1 eq_refl).
    pose proof (persistLease_fulfillment req1
                  (after (fulfillTypes fuel (range (copyNeeds req)).*1
                            (copyNeeds req) req m))) as Hful.
    rewrite Hv in Hful. cbn in Hful. by rewrite Hful.
Qed.

(** *** The loops leave a request with positive needs fulfilled *)

Lemma foldl_insert_lookup {V} (l : list (string * V)) (acc : gmap string V) (k : string) :
  NoDup l.*1 →
  foldl (λ acc '(k, v), <[k := v]> acc) acc l !! k
  = match (list_to_map l : gmap string V) !! k with
    | Some v => Some v
    | None => acc !! k
    end.
Proof.
  revert acc. induction l as [|[k' v] l IH]; intros acc Hnd; cbn.
  - by rewrite lookup_empty.
  - apply NoDup_cons in Hnd as [Hk Hnd]. rewrite IH by done.
    destruct (decide (k' = k)) as [->|Hne].
    + rewrite lookup_insert_eq, (not_elem_of_list_to_map_1 _ k Hk).
      by rewrite lookup_insert_eq.
    + rewrite (lookup_insert_ne _ k' k) by done.
      by rewrite lookup_insert_ne.
Qed.

Lemma copyNeeds_eq req : copyNeeds req = needs req.
Proof.
  apply map_eq. intros k. unfold copyNeeds.
  rewrite foldl_insert_lookup by apply NoDup_fst_range.
  rewrite list_to_map_range, lookup_empty. by destruct (needs req !! k).
Qed.

Lemma fulfillType_completes fuel t remaining req m remaining' req' :
  (0 ≤ needs_at remaining t < 2 ^ 63)%Z →
  value (fulfillType fuel t remaining req m) = Some (None, remaining', req') →
  held req' t = (held req t + needs_at remaining t)%Z
  ∧ ((0 < needs_at remaining t)%Z → is_Some (fulfillment req' !! t))
  ∧ (∀ t', t' ≠ t → fulfillment req' !! t' = fulfillment req !! t')
  ∧ (∀ t', t' ≠ t → remaining' !! t' = remaining !! t')
  ∧ needs req' = needs req.
Proof.
  revert remaining req m. induction fuel as [|fuel IH]; intros remaining req m Hn;
    cbn [fulfillType]; case_bool_decide as Hpos.
  - done.
  - intros [= <- <-]. repeat split; [lia|lia|done..].
  - run. unfold select_timer.
    assert (Hstep : ∀ m1 res,
      value (fulfillType fuel t (<[t := int_add (needs_at remaining t) (-1)]> remaining)
               (appendFulfillment t res req) m1) = Some (None, remaining', req') →
      held req' t = (held req t + needs_at remaining t)%Z
      ∧ ((0 < needs_at remaining t)%Z → is_Some (fulfillment req' !! t))
      ∧ (∀ t', t' ≠ t → fulfillment req' !! t' = fulfillment req !! t')
      ∧ (∀ t', t' ≠ t → remaining' !! t' = remaining !! t')
      ∧ needs req' = needs req).
    { intros m1 res Hv.
      assert (Hdec : needs_at (<[t := int_add (needs_at remaining t) (-1)]> remaining) t
                     = (needs_at remaining t - 1)%Z).
      { unfold needs_at at 1. rewrite lookup_insert_eq. cbn.
        unfold int_add. apply int_wrap_small. lia. }
      apply IH in Hv as (Hheld & Hsome & Hful & Hneeds & Hreq); [|lia].
      assert (Hheld1 : held (appendFulfillment t res req) t = (held req t + 1)%Z).
      { unfold held, appendFulfillment. cbn [fulfillment set_fulfillment].
        rewrite lookup_insert_eq. cbn. rewrite length_app. cbn. lia. }
      repeat split.
      - rewrite Hheld, Hheld1, Hdec. lia.
      - intros _. destruct (decide (0 < needs_at remaining t - 1)%Z) as [Hgt|Hle].
        + apply Hsome. lia.
        + assert (Hz : held req' t = (held req t + 1)%Z) by (rewrite Hheld, Hheld1, Hdec; lia).
          unfold held in Hz. destruct (fulfillment req' !! t); [by eauto|].
          cbn in Hz. lia.
      - intros t' Hne. rewrite Hful by done.
        unfold appendFulfillment. cbn [fulfillment set_fulfillment].
        by rewrite lookup_insert_ne.
      - intros t' Hne. rewrite Hneeds by done. by rewrite lookup_insert_ne.
      - by rewrite Hreq. }
    destruct (ctx m) as [[|d]|]; cbn [value after events fst snd]; cbn beta iota.
    + done.
    + run. destruct (Acquire _ _ _ _).1 as [res|err]; run.
      * apply Hstep.
      * by apply IH.
    + run. destruct (Acquire _ _ _ _).1 as [res|err]; run.
      * apply Hstep.
      * by apply IH.
  - intros [= <- <-]. repeat split; [lia|lia|done..].
Qed.

Lemma fulfillTypes_completes fuel ts remaining req m req' :
  NoDup ts →
  (∀ t, t ∈ ts → (0 < needs_at remaining t < 2 ^ 63)%Z) →
  value (fulfillTypes fuel ts remaining req m) = Some (None, req') →
  (∀ t, t ∈ ts →
     is_Some (fulfillment req' !! t) ∧ held req' t = (held req t + needs_at remaining t)%Z)
  ∧ (∀ t, t ∉ ts → fulfillment req' !! t = fulfillment req !! t)
  ∧ needs req' = needs req.
Proof.
  revert remaining req m. induction ts as [|t ts IH]; intros remaining req m Hnd Hn;
    cbn [fulfillTypes].
  - intros [= <-]. split; [by intros t ?%elem_of_nil|done].
  - apply NoDup_cons in Hnd as [Ht Hnd]. run.
    pose proof (fulfillType_completes fuel t remaining req m) as Hty.
    destruct (value (fulfillType fuel t remaining req m))
      as [[[[e1|] remaining1] req1]|]; run; [done| |done].
    destruct (Hty remaining1 req1) as (Hheld & Hsome & Hful & Hneeds & Hreq);
      [pose proof (Hn t ltac:(left)); lia|done|].
    intros Hv. apply IH in Hv as (Hall & Hout & Hreq'); [|done|].
    + split; [|split].
      * intros t' [->|Hin]%elem_of_cons.
        -- unfold held in *. rewrite (Hout t Ht). split; [|done].
           apply Hsome. pose proof (Hn t ltac:(left)). lia.
        -- destruct (Hall t' Hin) as [Hs Hh]. split; [done|].
           assert (t' ≠ t) by (intros ->; done).
           rewrite Hh. unfold held, needs_at.
           by rewrite Hful, Hneeds.
      * intros t' Hnot. rewrite Hout by (intros ?; apply Hnot; by right).
        apply Hful. intros ->. apply Hnot. left.
      * by rewrite Hreq'.
    + intros t' Hin. assert (t' ≠ t) by (intros ->; done).
      unfold needs_at. rewrite Hneeds by done. apply Hn. by right.
Qed.

(** X1.  When the request starts with an empty fulfillment and every need is
    at least 1, a run of the acquisition loops that ends without cancellation
    leaves the request fulfilled: the silent return of fulfillOne for an
    unfulfilled request takes a need that is not positive, or a fulfillment
    that was not empty. *)
Theorem acquireNeeds_fulfills fuel (req req' : requirements) m :
  fulfillment req = ∅ →
  (∀ t n, needs req !! t = Some n → (0 < n < 2 ^ 63)%Z) →
  value (acquireNeeds fuel req m) = Some (None, req') →
  isFulFilled req' = true.
Proof.
  intros Hempty Hpos. unfold acquireNeeds. rewrite copyNeeds_eq. intros Hv.
  apply fulfillTypes_completes in Hv as (Hall & _ & Hreq).
  - apply isFulFilled_true. intros t n Hn. rewrite Hreq in Hn.
    destruct (Hall t) as [[rs Hrs] Hheld].
    { apply list_elem_of_fmap. exists (t, n). split; [done|]. by apply elem_of_range. }
    exists rs. split; [done|].
    unfold held, needs_at in Hheld. rewrite Hrs, Hn, Hempty, lookup_empty in Hheld.
    cbn in Hheld. lia.
  - apply NoDup_fst_range.
  - intros t ([t' n] & -> & Hin%elem_of_range)%list_elem_of_fmap.
    unfold needs_at. cbn. rewrite Hin. cbn. eauto.
Qed.
(** *** The loops end once the context is cancelled *)

Lemma fulfillType_returns fuel d rType needs req m :
  ctx m = Some d → (d < fuel)%nat →
  ∃ r d', value (fulfillType fuel rType needs req m) = Some r
          ∧ ctx (after (fulfillType fuel rType needs req m)) = Some d' ∧ (d' ≤ d)%nat.
Proof.
  revert d needs req m. induction fuel as [|fuel IH]; intros d needs req m Hctx Hd; [lia|].
  cbn [fulfillType]. case_bool_decide; [|by eauto].
  rewrite value_bind, after_bind. unfold select_timer at 1 2 3 4. rewrite Hctx.
  destruct d as [|d]; [by eauto|].
  cbn [value after fst snd]. cbn beta iota.
  rewrite value_bind, after_bind, value_bind, after_bind.
  set (m2 := after (client_Acquire _ _ _ _)).
  assert (Hctx2 : ctx m2 = Some d).
  { subst m2. rewrite (preserves_client_Acquire ctx) by done.
    by rewrite (preserves_updateResources ctx). }
  destruct (value (client_Acquire _ _ _ _)) as [res|e]; cbn beta iota.
  - destruct (IH d (<[rType := int_add (needs_at needs rType) (-1)]> needs)
                (appendFulfillment rType res req) m2 Hctx2) as (r & d' & ? & ? & ?);
      [lia|]. exists r, d'. repeat split; [done..|lia].
  - rewrite value_bind, after_bind. cbn [after logf fst snd].
    destruct (IH d needs req m2 Hctx2) as (r & d' & ? & ? & ?); [lia|].
    exists r, d'. repeat split; [done..|lia].
Qed.

Lemma fulfillTypes_returns fuel d rTypes needs req m :
  ctx m = Some d → (d < fuel)%nat →
  is_Some (value (fulfillTypes fuel rTypes needs req m)).
Proof.
  revert d needs req m. induction rTypes as [|rType rTypes IH];
    intros d needs req m Hctx Hd; cbn [fulfillTypes]; [by eauto|].
  rewrite value_bind.
  destruct (fulfillType_returns fuel d rType needs req m Hctx Hd)
    as ([[[e|] needs'] req'] & d' & -> & Hctx' & Hd'); cbn beta iota; [by eauto|].
  eapply IH; [exact Hctx'|lia].
Qed.

(** X2.  With a context that is cancelled after [d] waits, more than [d]
    units of fuel are enough for fulfillOne to return: once the context is
    cancelled the Fulfiller leaves its loops. *)
Theorem fulfillOne_returns fuel d req m :
  ctx m = Some d → (d < fuel)%nat → is_Some (value (fulfillOne fuel req m)).
Proof.
  intros Hctx Hd. unfold fulfillOne, acquireNeeds. rewrite value_bind.
  destruct (fulfillTypes_returns fuel d (range (copyNeeds req)).*1 (copyNeeds req) req m
              Hctx Hd) as [[[e|] req'] ->]; cbn beta iota; [by eauto|].
  rewrite value_bind. by eauto.
Qed.

(** C5.  When fulfillOne returns an error (the context's error, when the
    Fulfiller is cancelled in the middle of a fulfillment), the fulfillment
    it leaves holds what the request held before and every resource Acquire
    handed out meanwhile; the Fulfiller then calls ReleaseOne(r, free) for
    every resource of every type of that fulfillment, and nothing else; these
    are the only releases of the whole step, so the primary is not released;
    and no queue changes, so the request is not pushed onto fulfilled. *)
Theorem fulfillRecv_unwinds fuel (req req' : requirements) (err : error) m :
  value (fulfillOne fuel req m) = Some (Some err, req') →
  allResources (fulfillment req')
  ≡ₚ allResources (fulfillment req) ++ acquired_of (events (fulfillOne fuel req m))
  ∧ (∃ evs,
     events (fulfillRecv fuel req m) = events (fulfillOne fuel req m) ++ evs
     ∧ calls_of evs = (λ r, CReleaseOne (rName r) Free) <$> allResources (fulfillment req'))
  ∧ (∀ t rs r, fulfillment req' !! t = Some rs → r ∈ rs →
       CReleaseOne (rName r) Free ∈ calls_of (events (fulfillRecv fuel req m)))
  ∧ (∀ n d, CReleaseOne n d ∈ calls_of (events (fulfillRecv fuel req m)) →
       d = Free ∧ ∃ r, r ∈ allResources (fulfillment req') ∧ rName r = n)
  ∧ queues (after (fulfillRecv fuel req m)) = queues m.
Proof.
  intros Hv.
  assert (Hevs : events (fulfillRecv fuel req m)
                 = events (fulfillOne fuel req m)
                   ++ events (releaseFulfillment req' (after (fulfillOne fuel req m)))).
  { unfold fulfillRecv. rewrite events_bind, Hv. cbn beta iota. run.
    by rewrite app_nil_r. }
  split; [by eapply fulfillOne_acquired|]. split; [|split; [|split]].
  - eexists. split; [exact Hevs|]. apply releaseFulfillment_calls.
  - intros t rs r Ht Hr. rewrite Hevs, calls_of_app, releaseFulfillment_calls.
    apply elem_of_app. right. apply list_elem_of_fmap. exists r. split; [done|].
    apply elem_of_allResources. eauto.
  - intros n d. rewrite Hevs, calls_of_app, releaseFulfillment_calls.
    intros [Hin|Hin]%elem_of_app.
    + by apply not_release_calls in Hin; [|apply emits_fulfillOne].
    + apply list_elem_of_fmap in Hin as (r & [= -> ->] & Hr). eauto.
  - unfold fulfillRecv. rewrite after_bind, Hv. cbn beta iota. run.
    rewrite preserves_releaseFulfillment. apply preserves_fulfillOne.
Qed.

(** C9.  When the acquisition loops of fulfillOne end without cancellation
    and the request is not fulfilled, fulfillOne returns nil with the request
    as the loops left it, and does nothing more: no UpdateOne, no log
    line. *)
Theorem fulfillOne_unfulfilled fuel (req req' : requirements) m :
  value (acquireNeeds fuel req m) = Some (None, req') →
  isFulFilled req' = false →
  fulfillOne fuel req m
  = (Some (None, req'), after (acquireNeeds fuel req m), events (acquireNeeds fuel req m)).
Proof.
  intros Hv Hunf. unfold fulfillOne, bind.
  destruct (acquireNeeds fuel req m) as [[v m1] evs]. cbn in Hv. subst v.
  unfold persistLease. rewrite Hunf. cbn. by rewrite app_nil_r.
Qed.

End Fulfiller.

(* ===================================================================== *)
(** ** The loops of the stages *)
(* ===================================================================== *)

Section LoopSteps.
Context {C S : Type} `{!boskosClient C} `{!Storage S}.
Implicit Types m : Mason C S.

(** A computation that emits nothing hands its value and state on. *)
Lemma bind_pure {A B} (a : A) (m1 : Mason C S) (k : A → M C S B) (x : M C S A) m :
  x m = (a, m1, []) → bind x k m = k a m1.
Proof. intros Hx. unfold bind. rewrite Hx. by destruct (k a m1) as [[b m2] t2]. Qed.

Lemma preserves_modify {X} (f : Mason C S → X) (g : Mason C S → Mason C S) :
  (∀ m, f (g m) = f m) → preserves f (modify g).
Proof. intros Hg m. apply Hg. Qed.

(** With a live context a receive takes the head of the queue, or waits. *)
Lemma select_recv_live (queue : Mason C S → list requirements) set_queue m :
  ctx m ≠ Some 0 →
  select_recv queue set_queue m
  = match queue m with
    | [] => (Waiting, m, [])
    | req :: rest => (Received req, set_queue rest m, [])
    end.
Proof. intros Hctx. unfold select_recv. by destruct (ctx m) as [[|d]|]. Qed.

(** A wait on the sleep timer touches nothing but the context. *)
Lemma select_timer_cases m :
  select_timer m = (true, m, [])
  ∨ ∃ m1, select_timer m = (false, m1, []) ∧ client m1 = client m.
Proof.
  unfold select_timer. destruct (ctx m) as [[|d]|]; [by left|right; eauto..].
Qed.

Lemma Forall_calls_of (Q : call → Prop) (evs : list event) :
  Forall (callsAre Q) evs →
  Forall Q (calls_of evs).
Proof.
  induction 1 as [|ev evs Hev _ IH]; [constructor|].
  destruct ev; cbn; [by constructor|done].
Qed.

Lemma emits_select_recv (P : event → Prop) (queue : Mason C S → list requirements) set_queue :
  emits P (select_recv queue set_queue).
Proof.
  intros m. unfold select_recv.
  destruct (ctx m) as [[|d]|]; destruct (queue m); constructor.
Qed.

End LoopSteps.

(* ===================================================================== *)
(** ** Registering converters *)
(* ===================================================================== *)

Section ConverterFacts.
Context {C S : Type} `{!boskosClient C} `{!Storage S} `{!MapOrder} `{!UserDataCodec}.
Implicit Types m : Mason C S.

Lemma RegisterConfigConverter_after name fn m :
  after (RegisterConfigConverter name fn m)
  = match configConverters m !! name with
    | Some _ => m
    | None => set_configConverters (<[name := fn]> (configConverters m)) m
    end.
Proof.
  unfold RegisterConfigConverter. run. by destruct (configConverters m !! name).
Qed.

Lemma registered_lookup regs m name :
  configConverters (registered regs m) !! name
  = match configConverters m !! name with
    | Some fn => Some fn
    | None => firstRegistered regs name
    end.
Proof.
  revert m. induction regs as [|[n fn] regs IH]; intros m.
  - cbn. by destruct (configConverters m !! name).
  - unfold registered, firstRegistered in *. cbn [foldl List.find fst].
    rewrite IH, RegisterConfigConverter_after.
    destruct (configConverters m !! n) eqn:Hn; cbn.
    + case_bool_decide; subst; [by rewrite Hn|done].
    + case_bool_decide; subst.
      * by rewrite lookup_insert_eq, Hn.
      * by rewrite lookup_insert_ne.
Qed.

Lemma registered_frame regs m :
  client (registered regs m) = client m ∧ storage (registered regs m) = storage m
  ∧ queues (registered regs m) = queues m ∧ ctx (registered regs m) = ctx m.
Proof.
  revert m. induction regs as [|[n fn] regs IH]; intros m; [done|].
  unfold registered in *. cbn [foldl]. 
  destruct (IH (after (RegisterConfigConverter n fn m))) as (-> & -> & -> & ->).
  rewrite RegisterConfigConverter_after. by destruct (configConverters m !! n).
Qed.

(** X3.  RegisterConfigConverter refuses a name that has a converter, with
    the error "a converter for <name> already exists", and then changes
    nothing; so after any sequence of registrations the converter of a name
    is the one registered first.  convertConfig looks the converter up under
    the Config.Type of the config entry and applies it to Config.Content;
    when there is none its error names the config (c.Name), not the type.
    Registering touches neither the client, nor the storage, nor the
    queues. *)
Theorem RegisterConfigConverter_first_wins name fn regs (cfg : ResourcesConfig) m :
  (value (RegisterConfigConverter name fn m)
   = if configConverters m !! name is Some _
     then Some (Errorf ("a converter for " +:+ name +:+ " already exists")) else None)
  ∧ (is_Some (configConverters m !! name) → RegisterConfigConverter name fn m
       = (Some (Errorf ("a converter for " +:+ name +:+ " already exists")), m, []))
  ∧ value (convertConfig cfg (registered regs m))
    = match configConverters m !! ctType (cConfig cfg) with
      | Some first => first (ctContent (cConfig cfg))
      | None =>
          match firstRegistered regs (ctType (cConfig cfg)) with
          | Some first => first (ctContent (cConfig cfg))
          | None => Err (Errorf ("config type " +:+ cName cfg +:+ " is not supported"))
          end
      end
  ∧ client (registered regs m) = client m ∧ storage (registered regs m) = storage m
  ∧ queues (registered regs m) = queues m.
Proof.
  split; [|split; [|split]].
  - unfold RegisterConfigConverter. run. by destruct (configConverters m !! name).
  - intros [f Hf]. unfold RegisterConfigConverter, bind, gets. cbn. by rewrite Hf.
  - unfold convertConfig. run. rewrite registered_lookup.
    destruct (configConverters m !! _); [done|]. by destruct (firstRegistered _ _).
  - destruct (registered_frame regs m) as (? & ? & ? & _). done.
Qed.
End ConverterFacts.

(* ===================================================================== *)
(** ** The loop of the Recycler *)
(* ===================================================================== *)

Section RecyclerLoop.
Context {C S : Type} `{!boskosClient C} `{!Storage S} `{!MapOrder} `{!UserDataCodec}.
Implicit Types m : Mason C S.

Lemma preserves_reclaim_any {X} (f : Mason C S → X) res cfg lr :
  (∀ c m, f (set_client c m) = f m) → preserves f (reclaim res cfg lr).
Proof. intros Hf. unfold reclaim. preserves_auto; by apply preserves_releaseLogged. Qed.

Lemma preserves_recycleOne_any {X} (f : Mason C S → X) res :
  (∀ c m, f (set_client c m) = f m) → preserves f (recycleOne res).
Proof.
  intros Hf. unfold recycleOne, storage_GetConfig.
  preserves_auto; by apply preserves_reclaim_any.
Qed.

Lemma preserves_recycleType {X} (f : Mason C S → X) r :
  (∀ c m, f (set_client c m) = f m) → (∀ q m, f (set_pending q m) = f m) →
  preserves f (recycleType r).
Proof.
  intros Hc Hq. unfold recycleType, send_pending. preserves_auto;
    first [by apply preserves_reclaim_any | apply preserves_modify; intros; apply Hq].
Qed.

Lemma preserves_recycleTick {X} (f : Mason C S → X) :
  (∀ c m, f (set_client c m) = f m) → (∀ q m, f (set_pending q m) = f m) →
  preserves f recycleTick.
Proof.
  intros Hc Hq. unfold recycleTick, storage_GetConfigs, recycleType, send_pending.
  preserves_auto;
    first [by apply preserves_reclaim_any | apply preserves_modify; intros; apply Hq].
Qed.

(** The request recycleOne returns. *)
Lemma recycleOne_request res m req :
  value (recycleOne res m) = Ok req →
  fulfillment req = ∅
  ∧ (∃ ud, resource req = set_rUserData ud res)
  ∧ ∀ names, Extract (rUserData (resource req)) LeasedResourcesKey ≠ Ok (Some names).
Proof.
  assert (Hres : res = set_rUserData (rUserData res) res) by by destruct res.
  unfold recycleOne, storage_GetConfig. run.
  destruct (GetConfig _ _) as [cfg|e]; run; [|done].
  destruct (Extract (rUserData res) LeasedResourcesKey) as [[names|]|e] eqn:Hx; run.
  - destruct (reclaim_names res cfg names m) as [-> _]. intros [= <-]. cbn.
    split; [done|]. split; [by eauto|]. intros names'.
    unfold Extract. destruct (rUserData res) as [ud|]; cbn; [|done].
    by rewrite lookup_delete_eq.
  - intros [= <-]. cbn. split; [done|]. split; [by eauto|]. intros names'. by rewrite Hx.
  - destruct (isUserDataNotFound e); run; [|done].
    intros [= <-]. cbn. split; [done|]. split; [by eauto|]. intros names'. by rewrite Hx.
Qed.

Lemma recycled_app_l evs evs' req : recycled evs req → recycled (evs ++ evs') req.
Proof.
  intros (Hf & (res & ud & Hin & Hres) & Hx). split; [done|]. split; [|done].
  exists res, ud. split; [|done]. rewrite acquired_of_app. apply elem_of_app. by left.
Qed.

Lemma recycled_app_r evs evs' req : recycled evs' req → recycled (evs ++ evs') req.
Proof.
  intros (Hf & (res & ud & Hin & Hres) & Hx). split; [done|]. split; [|done].
  exists res, ud. split; [|done]. rewrite acquired_of_app. apply elem_of_app. by right.
Qed.

Lemma recycleType_pending r m :
  ∃ new, pending (after (recycleType r m)) = pending m ++ new
         ∧ Forall (recycled (events (recycleType r m))) new.
Proof.
  unfold recycleType. run.
  destruct (Acquire r Dirty Cleaning (client m)).1 as [res|e] eqn:Hacq; run.
  - set (m1 := set_client _ m).
    pose proof (recycleOne_request res m1) as Hreq.
    pose proof (preserves_recycleOne_any pending res ltac:(done) m1) as Hp.
    destruct (value (recycleOne res m1)) as [req|e]; run.
    + exists [req]. cbn [pending set_pending]. rewrite Hp. split; [done|].
      apply Forall_cons. split; [|constructor].
      destruct (Hreq req eq_refl) as (Hf & [ud Hud] & Hx).
      split; [done|]. split; [|done]. exists res, ud. split; [|done].
      cbn. left.
    + exists []. rewrite app_nil_r. split; [|constructor].
      rewrite (preserves_releaseLogged pending) by done. by rewrite Hp.
  - exists []. by rewrite app_nil_r.
Qed.

Lemma recycleTypes_pending (rtypes : list string) m :
  ∃ new, pending (after (forM_ rtypes recycleType m)) = pending m ++ new
         ∧ Forall (recycled (events (forM_ rtypes recycleType m))) new.
Proof.
  revert m. induction rtypes as [|r rtypes IH]; intros m.
  - exists []. by rewrite app_nil_r.
  - cbn [forM_]. run.
    destruct (recycleType_pending r m) as (new1 & Hp1 & Hall1).
    destruct (IH (after (recycleType r m))) as (new2 & Hp2 & Hall2).
    exists (new1 ++ new2). rewrite Hp2, Hp1, app_assoc. split; [done|].
    apply Forall_app. split.
    + eapply Forall_impl; [exact Hall1|]. intros req. apply recycled_app_l.
    + eapply Forall_impl; [exact Hall2|]. intros req. apply recycled_app_r.
Qed.

Lemma recycleTick_pending m :
  ∃ new, pending (after (recycleTick m)) = pending m ++ new
         ∧ Forall (recycled (events (recycleTick m))) new.
Proof.
  unfold recycleTick, storage_GetConfigs. run.
  destruct (GetConfigs _) as [configs|e]; run.
  - apply recycleTypes_pending.
  - exists []. by rewrite app_nil_r.
Qed.

Lemma emits_recycleTick : emits (C:=C) (S:=S) (callsAre recyclerCall) recycleTick.
Proof.
  unfold recycleTick, storage_GetConfigs, recycleType, recycleOne, reclaim, storage_GetConfig,
    send_pending, releaseLogged.
  emits_auto.
Qed.

(** X4.  Whatever the broker and the storage answer, and for any number of
    turns, the Recycler leaves fulfilled and cleaned alone and only appends
    to pending; what it appends is a request for a resource it acquired, with nothing leased and no lease list left
    to read; it acquires from dirty to cleaning and by state into leased,
    releases to dirty only, and its only UpdateOne empties a lease list. *)
Theorem recycleAll_appends fuel m :
  Forall recyclerCall (calls_of (events (recycleAll fuel m)))
  ∧ ∃ new, pending (after (recycleAll fuel m)) = pending m ++ new
         ∧ fulfilled (after (recycleAll fuel m)) = fulfilled m
         ∧ cleaned (after (recycleAll fuel m)) = cleaned m
         ∧ Forall (recycled (events (recycleAll fuel m))) new.
Proof.
  revert m. induction fuel as [|fuel IH]; intros m.
  { split; [constructor|]. exists []. by rewrite app_nil_r. }
  cbn [recycleAll]. run.
  assert (Hsel : ∀ X (f : Mason C S → X), (∀ c m, f (set_ctx c m) = f m) →
            f (after (select_timer m)) = f m).
  { intros X f Hf. by apply preserves_select_timer. }
  assert (events (select_timer m) = []) as ->.
  { unfold select_timer. by destruct (ctx m) as [[|d]|]. }
  destruct (value (select_timer m)); run.
  - split; [constructor|]. exists []. rewrite app_nil_r, !Hsel by done. by repeat split.
  - set (m1 := after (select_timer m)).
    destruct (recycleTick_pending m1) as (new1 & Hp1 & Hall1).
    destruct (IH (after (recycleTick m1))) as (Hcalls & new2 & Hp2 & Hf2 & Hc2 & Hall2).
    split.
    { cbn [app]. rewrite calls_of_app. apply Forall_app. split; [|done].
      apply Forall_calls_of, emits_recycleTick. }
    exists (new1 ++ new2). rewrite Hp2, Hf2, Hc2, Hp1, app_assoc.
    rewrite (preserves_recycleTick fulfilled), (preserves_recycleTick cleaned) by done.
    subst m1. rewrite !Hsel by done. repeat split. cbn [app].
    apply Forall_app. split.
    + eapply Forall_impl; [exact Hall1|]. intros req. apply recycled_app_l.
    + eapply Forall_impl; [exact Hall2|]. intros req. apply recycled_app_r.
Qed.

(** X5.  With a context that is cancelled after [d] waits on the sleep
    timer, the Recycler exits, after [d] rounds: its calls to Acquire are,
    [d] times over, one Acquire(c.Name, dirty, cleaning) per config of the
    storage, in the order of the configs. *)
Theorem recycleAll_exits fuel d (configs : list ResourcesConfig) m :
  ctx m = Some d → (d < fuel)%nat → GetConfigs (storage m) = Ok configs →
  value (recycleAll fuel m) = Exited
  ∧ calls_of (List.filter isAcquire (events (recycleAll fuel m)))
    = mjoin (replicate d ((λ c, CAcquire (cName c) Dirty Cleaning) <$> configs)).
Proof.
  revert d m. induction fuel as [|fuel IH]; intros d m Hctx Hd Hconfigs; [lia|].
  cbn [recycleAll]. destruct d as [|d].
  - erewrite bind_pure by (unfold select_timer; rewrite Hctx; reflexivity). done.
  - erewrite bind_pure by (unfold select_timer; rewrite Hctx; reflexivity).
    cbn beta iota. run.
    set (m1 := set_ctx (Some d) m).
    destruct (IH d (after (recycleTick m1))) as (Hv & Hcalls).
    { by rewrite (preserves_recycleTick ctx). }
    { lia. }
    { by rewrite (preserves_recycleTick storage). }
    split; [done|].
    rewrite List.filter_app, calls_of_app, Hcalls. cbn [replicate mjoin]. f_equal.
    unfold recycleTick, storage_GetConfigs. run.
    change (storage m1) with (storage m). rewrite Hconfigs. cbn beta iota. cbn [app].
    rewrite recycleTypes_Acquire. by rewrite <- list_fmap_compose.
Qed.

End RecyclerLoop.

(* ===================================================================== *)
(** ** The loop of the Fulfiller *)
(* ===================================================================== *)

Section FulfillerLoop.
Context {C S : Type} `{!boskosClient C} `{!Storage S} `{!MapOrder} `{!UserDataCodec}.
Implicit Types m : Mason C S.

(** An invariant of the loop [for needs[rType] > 0]. *)
Lemma fulfillType_invariant (I : ResourceNeeds → requirements → Prop)
    fuel t remaining req m e remaining' req' :
  (∀ remaining req res, I remaining req → (0 < needs_at remaining t)%Z →
     I (<[t := int_add (needs_at remaining t) (-1)]> remaining)
       (appendFulfillment t res req)) →
  I remaining req →
  value (fulfillType fuel t remaining req m) = Some (e, remaining', req') →
  I remaining' req'.
Proof.
  intros Hstep. revert remaining req m.
  induction fuel as [|fuel IH]; intros remaining req m HI;
    cbn [fulfillType]; case_bool_decide as Hpos; try (by intros [= _ <- <-]).
  destruct (select_timer_cases m) as [Hsel|(m1 & Hsel & _)];
    rewrite (bind_pure _ _ _ _ _ Hsel); cbn beta iota; [by intros [= _ <- <-]|].
  run. destruct (Acquire _ _ _ _).1 as [res|err]; run.
  - apply IH. by apply Hstep.
  - by apply IH.
Qed.

Lemma fulfillTypes_invariant (I : ResourceNeeds → requirements → Prop)
    fuel ts remaining req m e req' :
  (∀ t remaining req res, t ∈ ts → I remaining req → (0 < needs_at remaining t)%Z →
     I (<[t := int_add (needs_at remaining t) (-1)]> remaining)
       (appendFulfillment t res req)) →
  I remaining req →
  value (fulfillTypes fuel ts remaining req m) = Some (e, req') →
  ∃ remaining', I remaining' req'.
Proof.
  revert remaining req m. induction ts as [|t ts IH]; intros remaining req m Hstep HI;
    cbn [fulfillTypes].
  - intros [= _ <-]. eauto.
  - run.
    pose proof (fulfillType_invariant I fuel t remaining req m) as Hty.
    destruct (value (fulfillType fuel t remaining req m))
      as [[[[e1|] remaining1] req1]|]; run; [| |done].
    + intros [= _ <-]. exists remaining1. eapply Hty; [|done..].
      intros ???. apply Hstep. left.
    + apply IH.
      * intros t' ????. apply Hstep. by right.
      * eapply Hty; [|done..]. intros ???. apply Hstep. left.
Qed.

Lemma advances_refl req : advances req req.
Proof.
  split; [done|]. split; [exists (rUserData (resource req)); by destruct (resource req)|].
  split; [|done]. intros t l Hl. exists []. by rewrite app_nil_r.
Qed.

Lemma advances_append req0 req t res :
  is_Some (needs req0 !! t) → advances req0 req →
  advances req0 (appendFulfillment t res req).
Proof.
  intros Ht (Hn & Hr & Hgrow & Hout). split; [done|]. split; [done|].
  unfold appendFulfillment. cbn [fulfillment set_fulfillment]. split.
  - intros t' l Hl. destruct (decide (t = t')) as [->|Hne].
    + rewrite lookup_insert_eq. destruct (Hgrow t' l Hl) as [l' ->]. cbn.
      exists (l' ++ [res]). by rewrite app_assoc.
    + rewrite lookup_insert_ne by done. eauto.
  - intros t' Hnone. rewrite lookup_insert_ne; [by apply Hout|].
    intros ->. rewrite Hnone in Ht. by destruct Ht.
Qed.

Lemma acquireNeeds_advances fuel req m e req' :
  value (acquireNeeds fuel req m) = Some (e, req') → advances req req'.
Proof.
  unfold acquireNeeds. intros Hv.
  eapply (fulfillTypes_invariant (λ _ r, advances req r)) in Hv as [_ ?];
    [done| |apply advances_refl].
  intros t remaining r res ([t' n] & -> & Hin%elem_of_range)%list_elem_of_fmap Hadv _.
  apply advances_append; [|done]. rewrite copyNeeds_eq in Hin. by eauto.
Qed.

(** The request the end of fulfillOne returns. *)
Lemma persistLease_value req m :
  value (persistLease req m) = (None, req)
  ∨ (∃ e, value (persistLease req m) = (Some e, req))
  ∨ (∃ content,
       isFulFilled req = true
       ∧ yaml_Marshal (leasedNames (fulfillment req)) = inl content
       ∧ value (persistLease req m)
         = (None, set_resource (mergeUserData (resource req)
                                  (Some {[ LeasedResourcesKey := content ]})) req)).
Proof.
  unfold persistLease, UserData_Set. destruct (isFulFilled req); [|by left].
  destruct (yaml_Marshal _) as [content|msg]; run; [|by right; left; eauto].
  rewrite insert_empty.
  destruct (UpdateOne _ _ _ _).1; run; [by right; left; eauto|].
  right. right. eauto.
Qed.

Lemma fulfillOne_request fuel req m e req' :
  value (fulfillOne fuel req m) = Some (e, req') → advances req req'.
Proof.
  unfold fulfillOne. run.
  pose proof (acquireNeeds_advances fuel req m) as Hadv.
  destruct (value (acquireNeeds fuel req m)) as [[[e1|] req1]|]; run; [| |done].
  - intros [= _ <-]. by eapply Hadv.
  - specialize (Hadv None req1 eq_refl).
    destruct (persistLease_value req1 (after (acquireNeeds fuel req m)))
      as [Hv|[[e' Hv]|(content & _ & _ & Hv)]]; rewrite Hv; intros [= _ <-]; [done..|].
    destruct Hadv as (Hn & [ud Hud] & Hgrow & Hout).
    split; [done|]. split; [|done].
    unfold mergeUserData. cbn [resource set_resource]. rewrite Hud.
    destruct (rUserData (set_rUserData ud (resource req))); cbn; eauto.
Qed.

(** X6.  Whatever fulfillOne returns, it hands the request on with the same needs
    and the same primary (up to its user data), holding every resource it
    held before, in place, and the resources that Acquire handed out
    meanwhile, and no other; the fulfillment of a type outside the needs is
    not touched.  When it returns an error the primary is as it was. *)
Theorem fulfillOne_advances fuel req m e req' :
  value (fulfillOne fuel req m) = Some (e, req') →
  advances req req'
  ∧ allResources (fulfillment req')
    ≡ₚ allResources (fulfillment req) ++ acquired_of (events (fulfillOne fuel req m))
  ∧ (is_Some e → resource req' = resource req).
Proof.
  intros Hv. split; [by eapply fulfillOne_request|].
  split; [by eapply fulfillOne_acquired|].
  intros [err ->]. revert Hv. unfold fulfillOne. run.
  pose proof (acquireNeeds_advances fuel req m) as Hadv.
  destruct (value (acquireNeeds fuel req m)) as [[[e1|] req1]|] eqn:Hacq; run; [| |done].
  - intros [= _ <-]. unfold acquireNeeds in Hacq.
    eapply (fulfillTypes_invariant (λ _ r, resource r = resource req)) in Hacq as [_ ?];
      done.
  - destruct (persistLease_value req1 (after (acquireNeeds fuel req m)))
      as [Hp|[[e' Hp]|(content & _ & _ & Hp)]]; rewrite Hp; intros [= ? <-].
    unfold acquireNeeds in Hacq.
    eapply (fulfillTypes_invariant (λ _ r, resource r = resource req)) in Hacq as [_ ?];
      done.
Qed.

(** *** The calls of fulfillOne *)

Lemma emits_fulfillType_calls (req0 : requirements) fuel t remaining req :
  is_Some (needs req0 !! t) →
  emits (C:=C) (S:=S)
    (callsAre (fulfillerCall req0))
    (fulfillType fuel t remaining req).
Proof.
  intros Ht. revert remaining req. induction fuel as [|fuel IH]; intros remaining req;
    cbn [fulfillType]; case_bool_decide; emits_auto;
    first [apply IH | apply emits_client_UpdateOne; intros; by left].
Qed.

Lemma emits_fulfillTypes_calls (req0 : requirements) fuel ts remaining req :
  (∀ t, t ∈ ts → is_Some (needs req0 !! t)) →
  emits (C:=C) (S:=S)
    (callsAre (fulfillerCall req0))
    (fulfillTypes fuel ts remaining req).
Proof.
  revert remaining req. induction ts as [|t ts IH]; intros remaining req Hts;
    cbn [fulfillTypes]; [apply emits_ret|].
  apply emits_bind; [apply emits_fulfillType_calls, Hts; left|].
  intros [[[[e|] remaining'] req']|]; emits_auto. apply IH.
  intros t' Ht'. apply Hts. by right.
Qed.

(** X7.  fulfillOne calls UpdateOne and Acquire only: it releases nothing,
    it acquires, from free to leased, only types the request needs, and an
    UpdateOne that carries user data is the one on the primary, in the state
    the request has it, with the leasedResources entry alone. *)
Theorem fulfillOne_calls_only fuel req m :
  Forall (fulfillerCall req) (calls_of (events (fulfillOne fuel req m))).
Proof.
  apply Forall_calls_of. unfold fulfillOne. rewrite events_bind.
  apply Forall_app. split.
  - unfold acquireNeeds. apply emits_fulfillTypes_calls.
    intros t ([t' n] & -> & Hin%elem_of_range)%list_elem_of_fmap.
    rewrite copyNeeds_eq in Hin. by eauto.
  - pose proof (acquireNeeds_advances fuel req m) as Hadv.
    destruct (value (acquireNeeds fuel req m)) as [[[e1|] req1]|]; run;
      [constructor| |constructor].
    rewrite app_nil_r.
    destruct (Hadv None req1 eq_refl) as (_ & [ud Hud] & _).
    unfold persistLease, UserData_Set. destruct (isFulFilled req1); [|constructor].
    destruct (yaml_Marshal _) as [content|msg]; run; [|by repeat constructor].
    rewrite insert_empty, Hud. cbn [rName rState set_rUserData].
    apply Forall_app. split.
    + apply Forall_singleton. cbn. right. eauto.
    + destruct (UpdateOne _ _ _ _).1; run; by repeat constructor.
Qed.

(** *** The lease list fulfillOne records *)

Lemma persistLease_recorded req m req' :
  isFulFilled req = true → value (persistLease req m) = (None, req') →
  ∃ content,
    yaml_Marshal (leasedNames (fulfillment req)) = inl content
    ∧ req' = set_resource (mergeUserData (resource req)
                             (Some {[ LeasedResourcesKey := content ]})) req.
Proof.
  intros Hful. unfold persistLease, UserData_Set. rewrite Hful.
  destruct (yaml_Marshal _) as [content|msg]; run; [|done].
  rewrite insert_empty.
  destruct (UpdateOne _ _ _ _).1; run; [done|]. intros [= <-]. eauto.
Qed.

Lemma leasedNames_default (ttr : TypeToResources) :
  default [] (leasedNames ttr) = rName <$> allResources ttr.
Proof. unfold leasedNames. by destruct (map rName (allResources ttr)) eqn:E. Qed.

(** *** A need that is not positive *)


(** *** The loop of the Fulfiller *)

Lemma fulfillAll_turn fuel req rest m :
  ctx m ≠ Some 0 → pending m = req :: rest →
  fulfillAll (Datatypes.S fuel) m
  = (let* r := fulfillRecv fuel req in
     match r with None => ret OutOfFuel | Some _ => fulfillAll fuel end)
      (set_pending rest m).
Proof.
  intros Hctx Hq. cbn [fulfillAll].
  erewrite bind_pure; [|rewrite select_recv_live, Hq by done; reflexivity]. done.
Qed.

Lemma preserves_releaseFulfillment_any {X} (f : Mason C S → X) req :
  (∀ c m, f (set_client c m) = f m) → preserves f (releaseFulfillment req).
Proof. intros Hf. unfold releaseFulfillment, releaseLogged. preserves_auto. Qed.

Lemma fulfillRecv_frame fuel req m :
  pending (after (fulfillRecv fuel req m)) = pending m
  ∧ cleaned (after (fulfillRecv fuel req m)) = cleaned m
  ∧ (fulfilled (after (fulfillRecv fuel req m)) = fulfilled m
     ∨ ∃ req', advances req req'
               ∧ fulfilled (after (fulfillRecv fuel req m)) = fulfilled m ++ [req']).
Proof.
  pose proof (preserves_fulfillOne fuel req m) as Hq.
  pose proof (fulfillOne_request fuel req m) as Hadv.
  unfold fulfillRecv. rewrite after_bind.
  destruct (value (fulfillOne fuel req m)) as [[[e|] req']|]; cbn beta iota; run.
  - rewrite !(preserves_releaseFulfillment_any _ req') by done.
    injection Hq as -> -> ->. eauto.
  - cbn [pending cleaned fulfilled set_fulfilled]. injection Hq as -> -> ->.
    repeat split. right. exists req'. split; [by eapply Hadv|done].
  - injection Hq as -> -> ->. eauto.
Qed.

(** X9.  For any number of turns, the Fulfiller leaves cleaned alone, takes
    requests from the head of pending and appends to fulfilled; what it
    appends are requests it took, in the order it took them, each with the
    same needs, the same primary up to its user data, and a fulfillment
    that extends the one it had. *)
Theorem fulfillAll_forwards fuel m :
  cleaned (after (fulfillAll fuel m)) = cleaned m
  ∧ ∃ k kept new,
      pending (after (fulfillAll fuel m)) = drop k (pending m)
      ∧ kept `sublist_of` take k (pending m)
      ∧ fulfilled (after (fulfillAll fuel m)) = fulfilled m ++ new
      ∧ Forall2 advances kept new.
Proof.
  revert m. induction fuel as [|fuel IH]; intros m.
  { split; [done|]. exists 0%nat, [], []. rewrite app_nil_r. by repeat split. }
  destruct (decide (ctx m = Some 0)) as [Hctx|Hctx].
  { cbn [fulfillAll]. unfold bind, select_recv. rewrite Hctx. cbn.
    split; [done|]. exists 0%nat, [], []. rewrite app_nil_r. by repeat split. }
  destruct (pending m) as [|req rest] eqn:Hq.
  { cbn [fulfillAll].
    erewrite bind_pure; [|rewrite select_recv_live, Hq by done; reflexivity]. cbn.
    split; [done|]. exists 0%nat, [], []. rewrite app_nil_r, Hq. by repeat split. }
  rewrite (fulfillAll_turn fuel req rest) by done. rewrite after_bind.
  set (m1 := set_pending rest m).
  destruct (fulfillRecv_frame fuel req m1) as (Hp & Hc & Hf).
  destruct (value (fulfillRecv fuel req m1)) as [[]|]; cbn beta iota.
  - destruct (IH (after (fulfillRecv fuel req m1))) as (Hc' & k & kept & new & Hp' & Hsub & Hf' & Hall).
    rewrite Hc', Hc. split; [done|].
    rewrite Hp in Hp', Hsub. cbn [m1 pending set_pending] in Hp', Hsub.
    destruct Hf as [Hf|(req' & Hadv & Hf)]; rewrite Hf in Hf'; cbn [m1 fulfilled set_pending] in Hf'.
    + exists (Datatypes.S k), kept, new.
      split; [done|]. split; [by apply sublist_cons|]. by split.
    + exists (Datatypes.S k), (req :: kept), (req' :: new).
      split; [done|]. split; [by apply sublist_skip|].
      split; [by rewrite Hf', <- app_assoc|by constructor].
  - run. rewrite Hc. split; [done|]. rewrite Hp. cbn [m1 pending set_pending].
    destruct Hf as [Hf|(req' & Hadv & Hf)]; rewrite Hf; cbn [m1 fulfilled set_pending].
    + exists 1%nat, [], []. rewrite app_nil_r.
      split; [done|]. split; [apply sublist_nil_l|]. split; [done|constructor].
    + exists 1%nat, [req], [req'].
      split; [done|]. split; [done|]. split; [done|]. by constructor.
Qed.

(** *** The keep-alive of the acquisition loops *)





End FulfillerLoop.

(* ===================================================================== *)
(** ** The loop of the Cleaner *)
(* ===================================================================== *)

Section CleanerLoop.
Context {C S : Type} `{!boskosClient C} `{!Storage S} `{!MapOrder} `{!UserDataCodec}.
Implicit Types m : Mason C S.

Lemma cleanAll_turn fuel req rest m :
  ctx m ≠ Some 0 → fulfilled m = req :: rest →
  cleanAll (Datatypes.S fuel) m = (cleanRecv req ;;; cleanAll fuel) (set_fulfilled rest m).
Proof.
  intros Hctx Hq. cbn [cleanAll].
  erewrite bind_pure; [|rewrite select_recv_live, Hq by done; reflexivity]. done.
Qed.

Lemma cleanAll_idle fuel m :
  ctx m ≠ Some 0 → fulfilled m = [] → cleanAll (Datatypes.S fuel) m = (Idle, m, []).
Proof.
  intros Hctx Hq. cbn [cleanAll].
  erewrite bind_pure; [|rewrite select_recv_live, Hq by done; reflexivity]. done.
Qed.

Lemma cleanAll_exit fuel m :
  ctx m = Some 0 →
  cleanAll (Datatypes.S fuel) m = (Exited, m, [Log InfoLevel None "Exiting cleanAll Thread"]).
Proof. intros Hctx. cbn [cleanAll]. unfold bind, select_recv. by rewrite Hctx. Qed.

(** cleanOne changes nothing of the primary but its user data. *)
Lemma cleanOne_resource res leased m :
  ∃ ud, (value (cleanOne res leased m)).2 = set_rUserData ud res.
Proof.
  unfold cleanOne, storage_GetConfig, convertConfig, mergeUserData. run.
  assert (Hres : res = set_rUserData (rUserData res) res) by by destruct res.
  destruct (GetConfig _ _) as [cfg|e]; run; [|by eauto].
  destruct (configConverters m !! _) as [fn|]; run; [|by eauto].
  destruct (fn _) as [config|e]; run; [|by eauto].
  destruct (Construct _ _ _) as [userData|e]; run; [|by eauto].
  destruct (UpdateOne _ _ _ _).1 as [e|]; run; [by eauto|].
  destruct (rUserData res); by eauto.
Qed.

Lemma emits_cleanRecv req :
  emits (C:=C) (S:=S) (callsAre cleanerCall) (cleanRecv req).
Proof.
  unfold cleanRecv, cleanOne, storage_GetConfig, convertConfig, send_cleaned, releaseLogged.
  emits_auto.
Qed.

(** One request through the Cleaner: it is handed on with new user data, or
    its primary is released to dirty. *)
Lemma cleanRecv_frame req m :
  ctx (after (cleanRecv req m)) = ctx m
  ∧ pending (after (cleanRecv req m)) = pending m
  ∧ fulfilled (after (cleanRecv req m)) = fulfilled m
  ∧ ((cleaned (after (cleanRecv req m)) = cleaned m
      ∧ CReleaseOne (rName (resource req)) Dirty ∈ calls_of (events (cleanRecv req m)))
     ∨ ∃ ud, cleaned (after (cleanRecv req m))
             = cleaned m ++ [set_resource (set_rUserData ud (resource req)) req]).
Proof.
  assert (Hctx : preserves (C:=C) (S:=S) ctx (cleanOne (resource req) (fulfillment req))).
  { unfold cleanOne, storage_GetConfig, convertConfig. preserves_auto. }
  pose proof (preserves_cleanOne (resource req) (fulfillment req) m) as Hq.
  destruct (cleanOne_resource (resource req) (fulfillment req) m) as [ud Hud].
  unfold cleanRecv. rewrite after_bind, events_bind.
  destruct (value (cleanOne _ _ m)) as [[e|] res] eqn:Hv; cbn beta iota.
  - assert (Hk : ∀ X (f : Mason C S → X), (∀ c m, f (set_client c m) = f m) → preserves f
      (releaseLogged ErrorLevel "Unable to release resource " (rName (resource req)) Dirty ;;;
       forM_ (allResources (fulfillment req))
         (λ r, releaseLogged ErrorLevel "Unable to release leased resource "
                 (rName r) Dirty))).
    { intros X f Hf. preserves_auto; by apply preserves_releaseLogged. }
    rewrite !Hk by done. rewrite Hctx.
    injection Hq as -> -> ->. repeat split. left. split; [done|].
    rewrite calls_of_app. apply elem_of_app. right.
    unfold releaseLogged at 1. run. rewrite !calls_of_app.
    apply elem_of_app. left. apply elem_of_app. left. cbn. left.
  - run. cbn [ctx pending fulfilled cleaned set_cleaned]. rewrite Hctx.
    injection Hq as -> -> ->. cbn in Hud. subst res. repeat split; eauto.
Qed.

Lemma cleanAll_cleaned fuel m :
  ∃ new, cleaned (after (cleanAll fuel m)) = cleaned m ++ new.
Proof.
  revert m. induction fuel as [|fuel IH]; intros m; [by exists []; rewrite app_nil_r|].
  destruct (decide (ctx m = Some 0)) as [Hctx|Hctx].
  { rewrite cleanAll_exit by done. exists []. by rewrite app_nil_r. }
  destruct (fulfilled m) as [|req rest] eqn:Hq.
  { rewrite cleanAll_idle by done. exists []. by rewrite app_nil_r. }
  rewrite (cleanAll_turn fuel req rest) by done. run.
  destruct (cleanRecv_frame req (set_fulfilled rest m)) as (_ & _ & _ & Hcl).
  destruct (IH (after (cleanRecv req (set_fulfilled rest m)))) as [new ->].
  destruct Hcl as [[-> _]|[ud ->]]; cbn [cleaned set_fulfilled]; [by eauto|].
  rewrite <- app_assoc. by eauto.
Qed.

(** X11.  For any number of turns, the Cleaner leaves pending alone, takes
    requests from the head of fulfilled and appends to
    cleaned; what it appends is a request it took, with new user data on the
    primary and nothing else changed; it calls UpdateOne and releases to
    dirty, and nothing else. *)
Theorem cleanAll_forwards fuel m :
  pending (after (cleanAll fuel m)) = pending m
  ∧ Forall cleanerCall (calls_of (events (cleanAll fuel m)))
  ∧ ∃ k kept new,
      fulfilled (after (cleanAll fuel m)) = drop k (fulfilled m)
      ∧ kept `sublist_of` take k (fulfilled m)
      ∧ cleaned (after (cleanAll fuel m)) = cleaned m ++ new
      ∧ Forall2 (λ old new, ∃ ud, new = set_resource (set_rUserData ud (resource old)) old)
          kept new.
Proof.
  revert m. induction fuel as [|fuel IH]; intros m.
  { split; [done|]. split; [constructor|].
    exists 0%nat, [], []. rewrite app_nil_r. by repeat split. }
  destruct (decide (ctx m = Some 0)) as [Hctx|Hctx].
  { rewrite cleanAll_exit by done. split; [done|]. split; [constructor|].
    exists 0%nat, [], []. rewrite app_nil_r. by repeat split. }
  destruct (fulfilled m) as [|req rest] eqn:Hq.
  { rewrite cleanAll_idle by done. split; [done|]. split; [constructor|].
    exists 0%nat, [], []. cbn. rewrite app_nil_r, Hq. by repeat split. }
  rewrite (cleanAll_turn fuel req rest) by done. run.
  set (m1 := set_fulfilled rest m).
  destruct (cleanRecv_frame req m1) as (Hc & Hp & Hf & Hcl).
  destruct (IH (after (cleanRecv req m1)))
    as (Hp' & Hcalls & k & kept & new & Hf' & Hsub & Hnew & Hall).
  split; [by rewrite Hp', Hp|]. split.
  { rewrite calls_of_app. apply Forall_app. split; [|done].
    apply Forall_calls_of, emits_cleanRecv. }
  rewrite Hf in Hf', Hsub. cbn [m1 fulfilled set_fulfilled] in Hf', Hsub.
  destruct Hcl as [[Hcl _]|[ud Hcl]]; rewrite Hcl in Hnew; cbn [m1 cleaned set_fulfilled] in Hnew.
  - exists (Datatypes.S k), kept, new.
    split; [done|]. split; [by apply sublist_cons|]. by split.
  - exists (Datatypes.S k), (req :: kept),
      (set_resource (set_rUserData ud (resource req)) req :: new).
    split; [done|]. split; [by apply sublist_skip|].
    split; [by rewrite Hnew, <- app_assoc|]. constructor; eauto.
Qed.

(** X12.  With a live context and fuel for every request, the Cleaner empties the
    fulfilled queue and then waits; no request is lost on the way: each is on
    the cleaned queue with new user data, or its primary was released to
    dirty. *)
Theorem cleanAll_drains fuel m :
  ctx m ≠ Some 0 → (length (fulfilled m) < fuel)%nat →
  value (cleanAll fuel m) = Idle
  ∧ fulfilled (after (cleanAll fuel m)) = []
  ∧ Forall (λ req,
      (∃ ud, set_resource (set_rUserData ud (resource req)) req
               ∈ cleaned (after (cleanAll fuel m)))
      ∨ CReleaseOne (rName (resource req)) Dirty ∈ calls_of (events (cleanAll fuel m)))
      (fulfilled m).
Proof.
  revert m. induction fuel as [|fuel IH]; intros m Hctx Hlen; [lia|].
  destruct (fulfilled m) as [|req rest] eqn:Hq.
  { rewrite cleanAll_idle by done. by repeat split. }
  rewrite (cleanAll_turn fuel req rest) by done. run.
  set (m1 := set_fulfilled rest m).
  destruct (cleanRecv_frame req m1) as (Hc & Hp & Hf & Hcl).
  destruct (IH (after (cleanRecv req m1))) as (Hv & Hf' & Hall).
  { by rewrite Hc. }
  { rewrite Hf. cbn in *. lia. }
  split; [done|]. split; [done|].
  rewrite Hf in Hall. cbn [m1 fulfilled set_fulfilled] in Hall.
  destruct (cleanAll_cleaned fuel (after (cleanRecv req m1))) as [new Hnew].
  rewrite calls_of_app. constructor.
  - destruct Hcl as [[_ Hrel]|[ud Hcl]].
    + right. apply elem_of_app. by left.
    + left. exists ud. rewrite Hnew, Hcl.
      apply elem_of_app. left. apply elem_of_app. right. left.
  - eapply Forall_impl; [exact Hall|]. cbn. intros r [?|Hrel]; [by left|].
    right. apply elem_of_app. by right.
Qed.

(** X13.  The success of cleanOne: when the config is found, its converter builds
    a constructor, Construct returns user data and the broker accepts them,
    the Cleaner makes this one call, UpdateOne(primary, its state, the user
    data), and appends the request to cleaned with the user data merged
    into the primary's. *)
Theorem cleanRecv_cleans (req : requirements) m cfg fn config userData :
  GetConfig (rType (resource req)) (storage m) = Ok cfg →
  configConverters m !! ctType (cConfig cfg) = Some fn →
  fn (ctContent (cConfig cfg)) = Ok config →
  Construct config (resource req) (fulfillment req) = Ok userData →
  let updated := UpdateOne (rName (resource req)) (rState (resource req)) userData (client m) in
  updated.1 = None →
  calls_of (events (cleanRecv req m))
  = [CUpdateOne (rName (resource req)) (rState (resource req)) userData]
  ∧ after (cleanRecv req m)
    = set_cleaned (cleaned m ++ [set_resource (mergeUserData (resource req) userData) req])
        (set_client updated.2 m).
Proof.
  intros Hcfg Hfn Hconfig Hud updated Hup. subst updated.
  unfold cleanRecv, cleanOne, storage_GetConfig, convertConfig. run.
  rewrite Hcfg. run. rewrite Hfn. run. rewrite Hconfig. run. rewrite Hud. run. rewrite Hup. run.
  done.
Qed.

End CleanerLoop.

(* ===================================================================== *)
(** ** The loop of the Releaser *)
(* ===================================================================== *)

Section ReleaserLoop.
Context {C S : Type} `{!boskosClient C} `{!Storage S} `{!MapOrder} `{!UserDataCodec}.
Implicit Types m : Mason C S.

Lemma freeAll_idle fuel m :
  ctx m ≠ Some 0 → cleaned m = [] → freeAll (Datatypes.S fuel) m = (Idle, m, []).
Proof.
  intros Hctx Hq. cbn [freeAll].
  erewrite bind_pure; [|rewrite select_recv_live, Hq by done; reflexivity]. done.
Qed.

Lemma freeAll_exit fuel m :
  ctx m = Some 0 →
  freeAll (Datatypes.S fuel) m = (Exited, m, [Log InfoLevel None "Exiting freeAll Thread"]).
Proof.
  intros Hctx. cbn [freeAll]. unfold bind, select_recv. by rewrite Hctx.
Qed.

Lemma preserves_freeLeased {X} (f : Mason C S → X) names dest acc :
  (∀ c m, f (set_client c m) = f m) → preserves f (freeLeased names dest acc).
Proof.
  intros Hf. revert acc. induction names as [|n names IH]; intros acc;
    cbn [freeLeased]; preserves_auto; apply IH.
Qed.

Lemma preserves_freeOne {X} (f : Mason C S → X) res :
  (∀ c m, f (set_client c m) = f m) → preserves f (freeOne res).
Proof.
  intros Hf. unfold freeOne. preserves_auto. by apply preserves_freeLeased.
Qed.

Lemma freeLeased_releases names dest acc m :
  Forall releaserCall (calls_of (events (freeLeased names dest acc m))).
Proof.
  destruct (freeLeased_spec names dest acc m) as (-> & _).
  apply Forall_fmap. by apply Forall_true.
Qed.

(** The calls of freeOne. *)
Lemma freeOne_calls res m :
  calls_of (events (freeOne res m))
  = CReleaseOne (rName res) Free
      :: match (ReleaseOne (rName res) Free (client m)).1, rUserData res with
         | None, Some _ => (λ n, CReleaseOne n (rName res)) <$> leasedBy res
         | _, _ => []
         end.
Proof.
  unfold freeOne, leasedBy. run.
  destruct (ReleaseOne _ _ _).1 as [e|]; run; [done|].
  destruct (rUserData res) as [ud|] eqn:Hud; run; [|done]. rewrite <- Hud.
  destruct (Extract _ _) as [names|e]; run; [|done].
  cbn [app]. change (calls_of (Call ?c ?rs ?e :: ?evs)) with (c :: calls_of evs). f_equal.
  set (m1 := set_client _ m).
  destruct (freeLeased_spec (default [] names) (rName res) None m1) as (Hc & _).
  rewrite calls_of_app, Hc.
  destruct (value (freeLeased _ _ _ _)); run; cbn; by rewrite app_nil_r.
Qed.

Lemma aggregate_None acc errs : aggregate acc errs = None ↔ acc = None ∧ errs = [].
Proof.
  revert acc. induction errs as [|e errs IH]; intros acc; cbn.
  - split; [done|]. by intros [? _].
  - change (foldl _ ?a errs) with (aggregate a errs). rewrite IH.
    split; [by intros [? _]|by intros [_ ?]].
Qed.

(** freeOne returns nil only when no call failed and the lease list was read. *)
Lemma freeOne_value res m :
  value (freeOne res m) = None ↔
  failures_of (events (freeOne res m)) = []
  ∧ ∃ ud names, rUserData res = Some ud
                ∧ Extract (rUserData res) LeasedResourcesKey = Ok names.
Proof.
  unfold freeOne. run.
  destruct (ReleaseOne _ _ _).1 as [e|] eqn:Hrel; run; [by split; [|intros [? _]]|].
  destruct (rUserData res) as [ud|] eqn:Hud; run;
    [|by split; [|intros (_ & ? & ? & ? & _)]].
  rewrite <- Hud.
  destruct (Extract _ _) as [names|e]; run;
    [|by split; [|intros (_ & ? & ? & _ & ?)]].
  set (m1 := set_client _ m).
  destruct (freeLeased_spec (default [] names) (rName res) None m1) as (_ & Hv & _).
  cbn [app]. change (failures_of (Call ?c ?rs None :: ?evs)) with (failures_of evs).
  rewrite failures_of_app.
  destruct (value (freeLeased _ _ _ _)) as [e|] eqn:Hval; run; rewrite app_nil_r.
  - split; [done|]. intros [Hnone _]. rewrite Hnone in Hv. done.
  - split; [|done]. intros _. split; [|by rewrite Hud; eauto].
    symmetry in Hv. by apply aggregate_None in Hv as [_ ?].
Qed.

Lemma freeRecv_frame req m :
  ctx (after (freeRecv req m)) = ctx m
  ∧ pending (after (freeRecv req m)) = pending m
  ∧ fulfilled (after (freeRecv req m)) = fulfilled m
  ∧ cleaned (after (freeRecv req m))
    = (if value (freeOne (resource req) m) is Some _ then cleaned m ++ [req] else cleaned m)
  ∧ events (freeRecv req m) = events (freeOne (resource req) m).
Proof.
  unfold freeRecv. run.
  pose proof (preserves_freeOne ctx (resource req) ltac:(done) m) as Hc.
  pose proof (preserves_freeOne pending (resource req) ltac:(done) m) as Hp.
  pose proof (preserves_freeOne fulfilled (resource req) ltac:(done) m) as Hf.
  pose proof (preserves_freeOne cleaned (resource req) ltac:(done) m) as Hq.
  destruct (value (freeOne _ _)); run; cbn [ctx pending fulfilled cleaned set_cleaned];
    rewrite Hc, Hp, Hf, Hq, app_nil_r; done.
Qed.

(** X14.  For any number of turns and whatever the broker answers, the
    Releaser calls nothing but ReleaseOne, leaves pending and fulfilled
    alone, and adds no request to cleaned and alters none: the queue it
    leaves holds requests that were on it, each at most as often. *)
Theorem freeAll_shrinks fuel m :
  cleaned (after (freeAll fuel m)) ⊆+ cleaned m
  ∧ pending (after (freeAll fuel m)) = pending m
  ∧ fulfilled (after (freeAll fuel m)) = fulfilled m
  ∧ Forall releaserCall (calls_of (events (freeAll fuel m))).
Proof.
  revert m. induction fuel as [|fuel IH]; intros m; [by repeat split|].
  destruct (decide (ctx m = Some 0)) as [Hctx|Hctx].
  { rewrite freeAll_exit by done. repeat split; by repeat constructor. }
  destruct (cleaned m) as [|req rest] eqn:Hq.
  { rewrite freeAll_idle by done. cbn. rewrite Hq. by repeat split. }
  rewrite (freeAll_step fuel req rest) by done. run.
  set (m1 := set_cleaned rest m).
  destruct (freeRecv_frame req m1) as (Hc & Hp & Hf & Hcl & Hev).
  destruct (IH (after (freeRecv req m1))) as (Hsub & Hp' & Hf' & Hcalls).
  rewrite Hp', Hf', Hp, Hf. repeat split.
  - etrans; [exact Hsub|]. rewrite Hcl. cbn [m1 cleaned set_cleaned].
    destruct (value (freeOne _ _)).
    + apply Permutation_submseteq. symmetry. apply Permutation_cons_append.
    + by apply submseteq_cons.
  - rewrite calls_of_app. apply Forall_app. split; [|done].
    rewrite Hev, freeOne_calls. constructor; [done|].
    destruct (ReleaseOne _ _ _).1; [constructor|].
    destruct (rUserData _); [|constructor].
    apply Forall_fmap. by apply Forall_true.
Qed.

(** X15.  A request whose lease list cannot be read (nil user data, no
    leasedResources entry, or an entry that does not decode) is retried for
    ever: with a live context and a cleaned queue of such requests, the
    Releaser never waits and never drops a request, whatever the broker
    answers; every turn makes one call, ReleaseOne(primary, free), with no
    pause between the turns, and the queue keeps its requests. *)
Theorem freeAll_spins fuel m :
  ctx m ≠ Some 0 → cleaned m ≠ [] →
  Forall (λ req, ∃ e, Extract (rUserData (resource req)) LeasedResourcesKey = Err e)
    (cleaned m) →
  value (freeAll fuel m) = OutOfFuel
  ∧ cleaned (after (freeAll fuel m)) ≡ₚ cleaned m
  ∧ length (calls_of (events (freeAll fuel m))) = fuel
  ∧ Forall (λ c, ∃ req, req ∈ cleaned m ∧ c = CReleaseOne (rName (resource req)) Free)
      (calls_of (events (freeAll fuel m))).
Proof.
  revert m. induction fuel as [|fuel IH]; intros m Hctx Hne Hall;
    [by repeat split|].
  destruct (cleaned m) as [|req rest] eqn:Hq; [done|].
  rewrite (freeAll_step fuel req rest) by done. run.
  set (m1 := set_cleaned rest m).
  destruct (freeRecv_frame req m1) as (Hc & Hp & Hf & Hcl & Hev).
  apply Forall_cons in Hall as [[e He] Hrest].
  assert (Hcalls : calls_of (events (freeOne (resource req) m1))
                   = [CReleaseOne (rName (resource req)) Free]).
  { rewrite freeOne_calls. unfold leasedBy. rewrite He.
    destruct (ReleaseOne _ _ _).1; [done|]. by destruct (rUserData _). }
  assert (Hfail : is_Some (value (freeOne (resource req) m1))).
  { destruct (value (freeOne _ _)) eqn:Hv; [by eauto|].
    apply freeOne_value in Hv as (_ & ud & names & _ & Hx). congruence. }
  destruct Hfail as [e' He']. rewrite He' in Hcl. cbn [m1 cleaned set_cleaned] in Hcl.
  destruct (IH (after (freeRecv req m1))) as (Hv & Hperm & Hlen & Hforall).
  { by rewrite Hc. }
  { rewrite Hcl. by destruct rest. }
  { rewrite Hcl. apply Forall_app. split; [done|]. repeat constructor. eauto. }
  rewrite calls_of_app, Hev, Hcalls. cbn [app length].
  repeat split; [done| |by rewrite Hlen|].
  - rewrite Hperm, Hcl. symmetry. apply Permutation_cons_append.
  - constructor; [exists req; split; [left|done]|].
    eapply Forall_impl; [exact Hforall|]. cbn.
    intros c (r & Hr & ->). exists r. split; [|done].
    rewrite Hcl in Hr. apply elem_of_app in Hr as [Hr|Hr%list_elem_of_singleton].
    + by right.
    + subst. left.
Qed.

(** X16.  When every request on the cleaned queue has a lease list that
    decodes and no call of the run fails, the Releaser, with a live context
    and fuel for every request, empties the queue and then waits; its calls
    are, request by request, ReleaseOne(primary, free) and then
    ReleaseOne(name, primary name) for every leased name, in order. *)
Theorem freeAll_drains fuel m :
  ctx m ≠ Some 0 → (length (cleaned m) < fuel)%nat →
  Forall (λ req, ∃ ud names, rUserData (resource req) = Some ud
                 ∧ Extract (rUserData (resource req)) LeasedResourcesKey = Ok names)
    (cleaned m) →
  failures_of (events (freeAll fuel m)) = [] →
  value (freeAll fuel m) = Idle
  ∧ cleaned (after (freeAll fuel m)) = []
  ∧ calls_of (events (freeAll fuel m))
    = cleaned m ≫= λ req,
        CReleaseOne (rName (resource req)) Free
          :: ((λ n, CReleaseOne n (rName (resource req))) <$> leasedBy (resource req)).
Proof.
  revert m. induction fuel as [|fuel IH]; intros m Hctx Hlen Hall; [lia|].
  destruct (cleaned m) as [|req rest] eqn:Hq.
  { rewrite freeAll_idle by done. cbn. by rewrite Hq. }
  rewrite (freeAll_step fuel req rest) by done. run.
  set (m1 := set_cleaned rest m).
  destruct (freeRecv_frame req m1) as (Hc & Hp & Hf & Hcl & Hev).
  rewrite failures_of_app. intros [Hnow Hlater]%app_eq_nil.
  apply Forall_cons in Hall as [(ud & names & Hud & Hnames) Hrest].
  assert (Hv : value (freeOne (resource req) m1) = None).
  { apply freeOne_value. rewrite <- Hev. eauto. }
  rewrite Hv in Hcl. cbn [m1 cleaned set_cleaned] in Hcl.
  destruct (IH (after (freeRecv req m1))) as (Hv' & Hq' & Hcalls).
  { by rewrite Hc. }
  { rewrite Hcl. cbn in Hlen. lia. }
  { by rewrite Hcl. }
  { done. }
  repeat split; [done..|].
  rewrite calls_of_app, Hcalls, Hcl, Hev, freeOne_calls, bind_cons.
  f_equal. f_equal.
  rewrite Hud.
  destruct (ReleaseOne _ _ _).1 as [e|] eqn:Hrel; [|done].
  exfalso. rewrite Hev in Hnow. revert Hnow. unfold freeOne. run. rewrite Hrel. run. done.
Qed.

End ReleaserLoop.

(* ===================================================================== *)
(** ** The lease list, from the Fulfiller to the Releaser *)
(* ===================================================================== *)

Section LeaseRoundTrip.
Context {C S : Type} `{!boskosClient C} `{!Storage S} `{!MapOrder} `{!UserDataCodec}.
Implicit Types m : Mason C S.

(** X17.  What the Fulfiller records is what the Releaser parks: when fulfillOne
    returns nil for a fulfilled request, the primary carries the names of the
    resources of the fulfillment under the leasedResources key, and freeOne,
    on a primary of that name whose user data still has that entry, releases
    exactly these resources, in the order of the fulfillment, to the state
    named after the primary.  The codec is outside mason.go: that the encoded
    list decodes to the same names, and that the merge stores the entry, are
    assumptions. *)
Theorem lease_round_trip fuel (req req1 : requirements) m1 (res : Resource) ud m3 :
  value (fulfillOne fuel req m1) = Some (None, req1) →
  isFulFilled req1 = true →
  (∀ content, yaml_Marshal (leasedNames (fulfillment req1)) = inl content →
     (∃ names, yaml_Unmarshal content = inl names
               ∧ default [] names = default [] (leasedNames (fulfillment req1)))
     ∧ ∀ ud0, Update ud0 (Some {[ LeasedResourcesKey := content ]}) !! LeasedResourcesKey
              = Some content) →
  rName res = rName (resource req1) →
  rUserData res = Some ud →
  ud !! LeasedResourcesKey = rUserData (resource req1) ≫= (.!! LeasedResourcesKey) →
  (ReleaseOne (rName res) Free (client m3)).1 = None →
  calls_of (events (freeOne res m3))
  = CReleaseOne (rName res) Free
      :: ((λ r, CReleaseOne (rName r) (rName res)) <$> allResources (fulfillment req1)).
Proof.
  intros Hv Hful Hcodec Hname Hud Hkey Hrel.
  assert (Hrec : ∃ req0 content,
    yaml_Marshal (leasedNames (fulfillment req0)) = inl content
    ∧ req1 = set_resource (mergeUserData (resource req0)
                             (Some {[ LeasedResourcesKey := content ]})) req0).
  { revert Hv. unfold fulfillOne. run.
    destruct (value (acquireNeeds fuel req m1)) as [[[e1|] req0]|]; run; [done| |done].
    set (m2 := after _). intros [= Hv].
    destruct (value (persistLease req0 m2)) as [e req'] eqn:Hp.
    injection Hv as -> ->.
    assert (Hful0 : isFulFilled req0 = true).
    { destruct (persistLease_value req0 m2) as [Hx|[[e Hx]|(content & ? & _)]];
        [|congruence|done]. rewrite Hp in Hx. by injection Hx as ->. }
    destruct (persistLease_recorded req0 m2 req1 Hful0 Hp) as (content & ? & ?).
    by exists req0, content. }
  destruct Hrec as (req0 & content & Hmarshal & ->).
  cbn [fulfillment set_resource] in *.
  destruct (Hcodec content Hmarshal) as [(names & Hdecode & Hnames) Hmerge].
  assert (Hentry : ud !! LeasedResourcesKey = Some content).
  { rewrite Hkey. cbn [resource set_resource]. unfold mergeUserData.
    destruct (rUserData (resource req0)); cbn [rUserData set_rUserData mbind option_bind];
      [apply Hmerge|apply lookup_singleton_eq]. }
  rewrite freeOne_calls, Hrel, Hud. f_equal.
  unfold leasedBy, Extract. rewrite Hud. cbn [mbind option_bind].
  rewrite Hentry, Hdecode, Hnames, leasedNames_default.
  by rewrite <- list_fmap_compose.
Qed.

End LeaseRoundTrip.

(* ===================================================================== *)
(** ** No failed call goes unlogged *)
(* ===================================================================== *)

Section Logging.
Context {C S : Type} `{!boskosClient C} `{!Storage S}.
Implicit Types m : Mason C S.

Lemma settles_ret {A} (a : A) : settles (C:=C) (S:=S) [] (ret a).
Proof. intros m. constructor. Qed.

Lemma settles_gets {A} (f : Mason C S → A) : settles [] (gets f).
Proof. intros m. constructor. Qed.

Lemma settles_modify (f : Mason C S → Mason C S) : settles [] (modify f).
Proof. intros m. constructor. Qed.

Lemma settles_logf lvl err msg : settles (C:=C) (S:=S) [] (logf lvl err msg).
Proof. intros m. apply sublist_nil_l. Qed.

Lemma settles_owed lvl e msg : settles (C:=C) (S:=S) [e] (logf lvl (Some e) msg).
Proof. intros m. cbn. done. Qed.

Lemma settles_select_timer : settles (C:=C) (S:=S) [] select_timer.
Proof. intros m. unfold select_timer. destruct (ctx m) as [[|d]|]; constructor. Qed.

Lemma settles_select_recv (queue : Mason C S → list requirements) set_queue :
  settles [] (select_recv queue set_queue).
Proof.
  intros m. unfold select_recv. destruct (ctx m) as [[|d]|]; destruct (queue m); constructor.
Qed.

Lemma settles_bind {A B} owed (x : M C S A) (k : A → M C S B) :
  settles owed x → (∀ a, settles [] (k a)) → settles owed (bind x k).
Proof.
  intros Hx Hk m. rewrite events_bind, failures_of_app, logged_of_app, app_assoc.
  apply sublist_app; [apply Hx|apply Hk].
Qed.

Lemma settles_forM_ {A} (xs : list A) (body : A → M C S unit) :
  (∀ a, settles [] (body a)) → settles [] (forM_ xs body).
Proof.
  intros Hbody. induction xs as [|a xs IH]; [apply settles_ret|].
  cbn [forM_]. by apply settles_bind.
Qed.

Lemma settles_ReleaseOne {B} n d (k : option error → M C S B) :
  (∀ e, settles [e] (k (Some e))) → settles [] (k None) →
  settles [] (bind (client_ReleaseOne n d) k).
Proof.
  intros Hsome Hnone m. run. rewrite failures_of_app, logged_of_app.
  destruct (ReleaseOne n d (client m)).1 as [e|]; [apply Hsome|apply Hnone].
Qed.

Lemma settles_UpdateOne {B} n st ud (k : option error → M C S B) :
  (∀ e, settles [e] (k (Some e))) → settles [] (k None) →
  settles [] (bind (client_UpdateOne n st ud) k).
Proof.
  intros Hsome Hnone m. run. rewrite failures_of_app, logged_of_app.
  destruct (UpdateOne n st ud (client m)).1 as [e|]; [apply Hsome|apply Hnone].
Qed.

Lemma settles_Acquire {B} t st d (k : result Resource → M C S B) :
  (∀ e, settles [e] (k (Err e))) → (∀ res, settles [] (k (Ok res))) →
  settles [] (bind (client_Acquire t st d) k).
Proof.
  intros Herr Hok m. run. rewrite failures_of_app, logged_of_app.
  destruct (Acquire t st d (client m)).1 as [res|e]; [apply Hok|apply Herr].
Qed.

Lemma settles_AcquireByState {B} st d ns (k : list Resource * option error → M C S B) :
  (∀ rs e, settles [e] (k (rs, Some e))) → (∀ rs, settles [] (k (rs, None))) →
  settles [] (bind (client_AcquireByState st d ns) k).
Proof.
  intros Hsome Hnone m. run. rewrite failures_of_app, logged_of_app.
  destruct (AcquireByState st d ns (client m)).1 as [rs [e|]]; [apply Hsome|apply Hnone].
Qed.

End Logging.

(** Proves [settles owed x] along the structure of [x]: a call hands its
    error to what follows, and the log line that follows takes it. *)
Ltac settles_step :=
  first
    [ apply settles_ret | apply settles_gets | apply settles_modify
    | apply settles_owed | apply settles_logf
    | apply settles_select_timer | apply settles_select_recv
    | apply settles_forM_; intros ?
    | apply settles_ReleaseOne; [intros ?|]; cbn beta iota
    | apply settles_UpdateOne; [intros ?|]; cbn beta iota
    | apply settles_Acquire; intros ?; cbn beta iota
    | apply settles_AcquireByState; [intros ? ?|intros ?]; cbn beta iota
    | apply settles_bind; [|intros ?]
    | match goal with
      | |- settles _ (match ?x with _ => _ end) => destruct x
      | |- settles _ (if ?x then _ else _) => destruct x
      end ].
Ltac settles_auto := repeat settles_step.

Section StagesLog.
Context {C S : Type} `{!boskosClient C} `{!Storage S} `{!MapOrder} `{!UserDataCodec}.
Implicit Types m : Mason C S.

Lemma settles_freeLeased names dest acc :
  settles (C:=C) (S:=S) [] (freeLeased names dest acc).
Proof.
  revert acc. induction names as [|n names IH]; intros acc; cbn [freeLeased];
    settles_auto; apply IH.
Qed.

Lemma settles_freeAll fuel : settles (C:=C) (S:=S) [] (freeAll fuel).
Proof.
  induction fuel as [|fuel IH]; cbn [freeAll]; [apply settles_ret|].
  unfold freeRecv, freeOne, send_cleaned.
  settles_auto; first [apply IH | apply settles_freeLeased].
Qed.

Lemma settles_cleanAll fuel : settles (C:=C) (S:=S) [] (cleanAll fuel).
Proof.
  induction fuel as [|fuel IH]; cbn [cleanAll]; [apply settles_ret|].
  unfold cleanRecv, cleanOne, storage_GetConfig, convertConfig, send_cleaned, releaseLogged.
  settles_auto; apply IH.
Qed.

Lemma settles_recycleAll fuel : settles (C:=C) (S:=S) [] (recycleAll fuel).
Proof.
  induction fuel as [|fuel IH]; cbn [recycleAll]; [apply settles_ret|].
  unfold recycleTick, storage_GetConfigs, recycleType, recycleOne, reclaim, storage_GetConfig,
    send_pending, releaseLogged.
  settles_auto; apply IH.
Qed.

Lemma settles_fulfillType fuel t remaining req :
  settles (C:=C) (S:=S) [] (fulfillType fuel t remaining req).
Proof.
  revert remaining req. induction fuel as [|fuel IH]; intros remaining req;
    cbn [fulfillType]; case_bool_decide; unfold updateResources; settles_auto; apply IH.
Qed.

Lemma settles_fulfillTypes fuel ts remaining req :
  settles (C:=C) (S:=S) [] (fulfillTypes fuel ts remaining req).
Proof.
  revert remaining req. induction ts as [|t ts IH]; intros remaining req;
    cbn [fulfillTypes]; [apply settles_ret|].
  apply settles_bind; [apply settles_fulfillType|].
  intros [[[[e|] remaining'] req']|]; settles_auto. apply IH.
Qed.

Lemma settles_fulfillAll fuel : settles (C:=C) (S:=S) [] (fulfillAll fuel).
Proof.
  induction fuel as [|fuel IH]; cbn [fulfillAll]; [apply settles_ret|].
  unfold fulfillRecv, fulfillOne, acquireNeeds, persistLease, releaseFulfillment,
    send_fulfilled, releaseLogged.
  settles_auto; first [apply IH | apply settles_fulfillTypes].
Qed.

(** X18.  No stage swallows the error of a broker call: in every run of each of
    the four loops, the errors of the calls that failed are among the errors
    logged, in the same order. *)
Theorem stages_log_failures fuel m :
  accounted (events (recycleAll fuel m))
  ∧ accounted (events (fulfillAll fuel m))
  ∧ accounted (events (cleanAll fuel m))
  ∧ accounted (events (freeAll fuel m)).
Proof.
  split; [apply (settles_recycleAll fuel m)|].
  split; [apply (settles_fulfillAll fuel m)|].
  split; [apply (settles_cleanAll fuel m)|apply (settles_freeAll fuel m)].
Qed.

(** X19.  The Fulfiller writes "Released resource" for every resource of the
    fulfillment it unwinds, whether the release succeeded or not: the info
    lines of the unwinding are these, one per resource, whatever the broker
    answered. *)
Theorem releaseFulfillment_logs (req : requirements) m :
  infos_of (events (releaseFulfillment req m))
  = (λ r, "Released resource " +:+ rName r) <$> allResources (fulfillment req)
  ∧ calls_of (events (releaseFulfillment req m))
    = (λ r, CReleaseOne (rName r) Free) <$> allResources (fulfillment req)
  ∧ queues (after (releaseFulfillment req m)) = queues m.
Proof.
  split; [|split; [apply releaseFulfillment_calls|apply preserves_releaseFulfillment]].
  unfold releaseFulfillment. generalize (allResources (fulfillment req)) as rs.
  intros rs. revert m. induction rs as [|r rs IH]; intros m; [done|].
  cbn [forM_]. unfold releaseLogged at 1. run.
  unfold infos_of in *. rewrite !omap_app, IH.
  destruct (ReleaseOne _ _ _).1; run; done.
Qed.

End StagesLog.

(* ===================================================================== *)
(** ** ValidateConfig: its errors *)
(* ===================================================================== *)

Section ValidateErrors.
Context {C S : Type} `{!MapOrder}.

(** The first loop fails at the first config whose name was seen before. *)
Lemma collectConfigNames_Err (configs : list ResourcesConfig)
    (acc : gmap string ResourceNeeds) (e : error) :
  collectConfigNames configs acc = Err e →
  ∃ before c after,
    configs = before ++ c :: after
    ∧ e = Errorf ("config " +:+ cName c +:+ " already exists")
    ∧ NoDup (cName <$> before)
    ∧ (∀ c', c' ∈ before → acc !! cName c' = None)
    ∧ (is_Some (acc !! cName c) ∨ cName c ∈ cName <$> before).
Proof.
  revert acc. induction configs as [|c0 configs IH]; intros acc; cbn; [done|].
  destruct (acc !! cName c0) eqn:Hacc.
  - intros [= <-]. exists [], c0, configs.
    split; [done|]. split; [done|]. split; [constructor|].
    split; [by intros c' ?%elem_of_nil|]. left. by eauto.
  - intros (before & c & after & -> & -> & Hnd & Hfree & Hseen)%IH.
    assert (Hfresh : ∀ c', c' ∈ before → cName c' ≠ cName c0).
    { intros c' Hin Heq. specialize (Hfree c' Hin).
      by rewrite Heq, lookup_insert_eq in Hfree. }
    exists (c0 :: before), c, after.
    split; [done|]. split; [done|]. split; [|split].
    + rewrite fmap_cons. apply NoDup_cons. split; [|done].
      intros (c' & Heq & Hin)%list_elem_of_fmap. by apply (Hfresh c').
    + intros c' [->|Hin]%elem_of_cons; [done|].
      specialize (Hfree c' Hin). rewrite lookup_insert_ne in Hfree; [done|].
      intros Heq. by apply (Hfresh c').
    + destruct (decide (cName c = cName c0)) as [Heq|Hne].
      * right. rewrite fmap_cons, Heq. left.
      * destruct Hseen as [Hsome|Hin].
        -- left. by rewrite lookup_insert_ne in Hsome.
        -- right. rewrite fmap_cons. by right.
Qed.

(** The third loop logs the error it returns, once. *)
Lemma checkNeeds_events entries act (m : Mason C S) :
  match value (checkNeeds entries act m) with
  | None => events (checkNeeds entries act m) = []
  | Some err =>
      events (checkNeeds entries act m) = [Log ErrorLevel (Some err) "invalid configuration"]
      ∧ ∃ t n, (t, n) ∈ entries
          ∧ ((act !! t = None
              ∧ err = Errorf ("need for resource " +:+ t +:+ " that does not exist"))
             ∨ (∃ a, act !! t = Some a ∧ (n > a)%Z
                ∧ err = Errorf ("not enough resource of type " +:+ t
                                  +:+ " for provisioning")))
  end.
Proof.
  induction entries as [|[t n] entries IH]; cbn; [done|].
  destruct (act !! t) as [a|] eqn:Ha.
  - case_bool_decide as Hgt.
    + cbn. split; [done|]. exists t, n. split; [left|]. right. by eauto.
    + destruct (value (checkNeeds entries act m)); [|done].
      destruct IH as (Hev & t' & n' & Hin & Hbad). split; [done|].
      exists t', n'. split; [by right|done].
  - cbn. split; [done|]. exists t, n. split; [left|]. by left.
Qed.

Lemma range_empty {V} : range (∅ : gmap string V) = [].
Proof. apply Permutation_nil_r. by rewrite range_perm, map_to_list_empty. Qed.

(** X20.  Every error of ValidateConfig is one of three: a repeated config name,
    reported at the first config that repeats a name and not logged; a needed
    type without a resource in the census; or a needed type with too few.
    The last two are logged once, at error level.  The error of the second
    loop ("does not have associated config") is never returned: its test
    repeats the lookup that just succeeded. *)
Theorem ValidateConfig_errors (configs : list ResourcesConfig) (census : list Resource)
    (m : Mason C S) :
  match value (ValidateConfig configs census m) with
  | None => events (ValidateConfig configs census m) = []
  | Some err =>
      (∃ before c after,
         configs = before ++ c :: after
         ∧ NoDup (cName <$> before) ∧ cName c ∈ cName <$> before
         ∧ err = Errorf ("config " +:+ cName c +:+ " already exists")
         ∧ events (ValidateConfig configs census m) = [])
      ∨ (∃ t,
           events (ValidateConfig configs census m)
           = [Log ErrorLevel (Some err) "invalid configuration"]
           ∧ ((supply census t = 0%Z
               ∧ err = Errorf ("need for resource " +:+ t +:+ " that does not exist"))
              ∨ ((0 < supply census t)%Z
                 ∧ err = Errorf ("not enough resource of type " +:+ t
                                   +:+ " for provisioning"))))
  end.
Proof.
  unfold ValidateConfig.
  destruct (collectConfigNames configs ∅) as [cn|err] eqn:Hcn.
  - destruct (countResources_spec census cn ∅ ∅ m) as (rn & act & Hrun & _ & Hact).
    unfold bind. rewrite Hrun.
    pose proof (checkNeeds_events (range rn) act m) as Hev.
    destruct (checkNeeds (range rn) act m) as [[v m'] tr]. cbn in Hev |- *.
    destruct v as [err|]; [|done]. right.
    destruct Hev as (-> & t & n & _ & Hbad). exists t. split; [done|].
    assert (Hnone : act !! t = None ↔ supply census t = 0%Z).
    { rewrite Hact, lookup_empty.
      destruct (existsb _ census) eqn:Hex.
      - split; [done|]. intros Hz. by apply supply_pos in Hex.
      - split; [|done]. intros _. by apply supply_none. }
    destruct Hbad as [[Hno ->]|(a & Ha & _ & ->)].
    + left. split; [by apply Hnone|done].
    + right. split; [|done].
      assert (0 ≤ supply census t)%Z by (unfold supply; lia).
      destruct (decide (supply census t = 0%Z)) as [Hz|Hz]; [|lia].
      apply Hnone in Hz. congruence.
  - cbn. left. apply collectConfigNames_Err in Hcn
      as (before & c & after & -> & -> & Hnd & _ & [[? Hsome]|Hin]).
    + by rewrite lookup_empty in Hsome.
    + exists before, c, after. by repeat split.
Qed.

(** X21.  Without a primary in the census nothing is needed: when no census
    resource has the type a config is named after, ValidateConfig accepts
    any configs with distinct names, whatever they need, and logs nothing.
    The empty census and the empty config list are cases of it. *)
Theorem ValidateConfig_no_primary (configs : list ResourcesConfig) (census : list Resource)
    (m : Mason C S) :
  NoDup (cName <$> configs) →
  (∀ r, r ∈ census → rType r ∉ cName <$> configs) →
  ValidateConfig configs census m = (None, m, []).
Proof.
  intros Hnd Hnone. unfold ValidateConfig.
  pose proof (collectConfigNames_spec configs ∅) as Hc.
  destruct (collectConfigNames configs ∅) as [cn|err].
  - destruct Hc as (_ & _ & Hcn).
    destruct (countResources_spec census cn ∅ ∅ m) as (rn & act & Hrun & Hrn & _).
    unfold bind. rewrite Hrun.
    assert (rn = ∅) as ->.
    { apply map_eq. intros t. rewrite Hrn.
      destruct (existsb (touches cn t) census) eqn:Hex; [|done]. exfalso.
      apply existsb_exists in Hex as (r & Hin%list_elem_of_In & Hr).
      unfold touches in Hr. rewrite Hcn, lookup_empty in Hr.
      destruct (configFor configs (rType r)) as [c|] eqn:Hfor; [|done].
      apply configFor_Some in Hfor as [Hc Hname].
      apply (Hnone r Hin). apply list_elem_of_fmap. by exists c. }
    by rewrite range_empty.
  - exfalso. apply Hc. split; [done|]. intros c _. apply lookup_empty.
Qed.

End ValidateErrors.

(* ===================================================================== *)
(** ** The scenarios, run *)
(* ===================================================================== *)

Import fake.

(** The request of the happy path is fulfilled once both [B]s are leased,
    and not before. *)
Example isFulFilled_two_of_two :
  isFulFilled scenario.fulfilled_request = true
  ∧ isFulFilled (set_fulfillment {[ "B" := [scenario.b1 Leased] ]} scenario.fulfilled_request)
    = false
  ∧ isFulFilled scenario.pending_request = false.
Proof. vm_compute. done. Qed.

(** C8, as stated, fails: with two primaries of type [A], each needing two
    [B]s, and three [B]s in the census, the configs need two [B]s when each
    config is counted once, which the census has; ValidateConfig adds the
    needs up per primary, finds four, and reports an error. *)
Lemma ValidateConfig_counts_per_resource :
  ¬ (value (ValidateConfig [scenario.cfgA] scenario.census5 scenario.idle) ≠ None ↔
       ¬ NoDup (cName <$> [scenario.cfgA])
       ∨ (∃ t, referenced [scenario.cfgA] scenario.census5 t
               ∧ supply scenario.census5 t = 0%Z)
       ∨ (∃ t, (claimedSum [scenario.cfgA] scenario.census5 t
                > supply scenario.census5 t)%Z)).
Proof.
  intros [Hclaim _].
  destruct Hclaim as [Hdup|[(t & Href & Hzero)|(t & Hgt)]].
  - vm_compute. discriminate.
  - apply Hdup. cbn. apply NoDup_singleton.
  - destruct Href as (r & c & _ & ->%list_elem_of_singleton & _ & [n Hn]).
    cbn [cNeeds scenario.cfgA] in Hn.
    apply lookup_singleton_Some in Hn as [<- _]. vm_compute in Hzero. discriminate.
  - unfold claimedSum in Hgt. cbn [foldr] in Hgt.
    destruct (decide (t = "B")) as [->|Hne].
    + vm_compute in Hgt. discriminate.
    + unfold needs_at in Hgt. cbn [cNeeds scenario.cfgA] in Hgt.
      rewrite lookup_singleton_ne in Hgt by done.
      assert (0 ≤ supply scenario.census5 t)%Z by (unfold supply; lia).
      case_bool_decide; cbn in Hgt; lia.
Qed.

(** With one primary the same config and the same three [B]s validate. *)
Example ValidateConfig_one_primary :
  value (ValidateConfig [scenario.cfgA] (tail scenario.census5) scenario.idle) = None.
Proof. vm_compute. done. Qed.

(** The happy path of the pipeline, one stage after the other: the primary
    ends free with its leases and the constructed user data, and the two
    secondaries are parked under its name. *)
Example happy_path :
  let m0 := scenario.mason
              (mkBroker [mkResource "A" "a1" Dirty None; scenario.b1 Free; scenario.b2 Free] [])
              scenario.greeter None in
  let m1 := after (recycleTick m0) in
  let m2 := after (fulfillAll 3 m1) in
  let m3 := after (cleanAll 3 m2) in
  let m4 := after (freeAll 3 m3) in
  length (pending m1) = 1
  ∧ length (fulfilled m2) = 1
  ∧ length (cleaned m3) = 1
  ∧ queues m4 = ([], [], [])
  ∧ pool (client m4)
    = [scenario.a1_leasing Free;
       mkResource "B" "b1" "a1" (Some ∅); mkResource "B" "b2" "a1" None].
Proof. vm_compute. done. Qed.

(** Release retry: the broker refuses the release of the primary twice; the
    Releaser takes the request from the cleaned queue three times and ends
    as on the happy path. *)
Example release_retry :
  let m := mkMason (mkBroker [scenario.a1_leasing Cleaning; scenario.b1 Leased;
                              scenario.b2 Leased] ["a1"; "a1"])
             [scenario.cfgA] [] [] [scenario.cleaned_request] ∅ None in
  value (freeAll 4 m) = Idle
  ∧ calls_of (events (freeAll 4 m))
    = [CReleaseOne "a1" Free; CReleaseOne "a1" Free; CReleaseOne "a1" Free;
       CReleaseOne "b1" "a1"; CReleaseOne "b2" "a1"]
  ∧ cleaned (after (freeAll 4 m)) = [].
Proof. vm_compute. done. Qed.

(** C1, as stated, fails: the primary is released, the release of the
    secondary [b2] is refused, and the request is back on the cleaned
    queue. *)
Lemma freeRecv_requeues_after_secondary_failure :
  ¬ (∀ (req : requirements) (m : Mason broker (list ResourcesConfig)),
       (ReleaseOne (rName (resource req)) Free (client m)).1 = None →
       failures_of (events (freeRecv req m)) ≠ [] →
       cleaned (after (freeRecv req m)) = cleaned m).
Proof.
  intros Hclaim.
  specialize (Hclaim scenario.cleaned_request scenario.releasing).
  vm_compute in Hclaim.
  discriminate Hclaim; [reflexivity | discriminate].
Qed.

(** The same run through [freeRecv_requeues]: the aggregate holds the one
    refusal, and the request is on the cleaned queue again. *)
Lemma freeRecv_requeues_witness :
  value (freeOne (resource scenario.cleaned_request) scenario.releasing)
  = Some (MultiError [External "cannot release b2"])
  ∧ cleaned (after (freeRecv scenario.cleaned_request scenario.releasing))
    = [scenario.cleaned_request].
Proof.
  assert (Hok : (ReleaseOne (rName (resource scenario.cleaned_request)) Free
                   (client scenario.releasing)).1 = None) by (vm_compute; reflexivity).
  assert (Hnames : Extract (Some {[ LeasedResourcesKey := "b1;b2;"; "greeting" := "hi" ]})
                     LeasedResourcesKey = Ok (Some ["b1"; "b2"]))
    by (vm_compute; reflexivity).
  destruct (proj2 (freeRecv_requeues scenario.cleaned_request scenario.releasing)
              _ _ Hok eq_refl Hnames)
    as (evs & Hevs & _ & Hv & Hq).
  vm_compute in Hevs. injection Hevs as <-.
  split; [exact Hv | exact Hq].
Defined.

(** A primary without user data: it is free in the broker, freeOne reports
    the empty user data, and the request is on the cleaned queue again. *)
Lemma freeOne_nil_UserData_witness :
  rUserData (resource scenario.bare_request) = None
  ∧ value (freeOne (resource scenario.bare_request) scenario.releasing_bare)
    = Some (Errorf "UserData is empty")
  ∧ pool (client (after (freeRecv scenario.bare_request scenario.releasing_bare)))
    = [mkResource "A" "a1" Free None]
  ∧ cleaned (after (freeRecv scenario.bare_request scenario.releasing_bare))
    = [scenario.bare_request].
Proof.
  destruct (freeOne_nil_UserData scenario.bare_request scenario.releasing_bare eq_refl)
    as (Hv & _ & Hc & Hq).
  split; [reflexivity|]. split; [|split].
  - rewrite Hv. vm_compute. reflexivity.
  - rewrite Hc. vm_compute. reflexivity.
  - exact Hq.
Defined.

(** Constructor failure: the secondaries go back to dirty and nothing is
    queued. *)
Lemma cleanRecv_unwinds_witness :
  cleaningFails scenario.fulfilled_request scenario.cleaning_fails
  ∧ CReleaseOne "b2" Dirty
      ∈ calls_of (events (cleanRecv scenario.fulfilled_request scenario.cleaning_fails))
  ∧ queues (after (cleanRecv scenario.fulfilled_request scenario.cleaning_fails))
    = ([], [], []).
Proof.
  assert (Hfails : cleaningFails scenario.fulfilled_request scenario.cleaning_fails)
    by (vm_compute; exact I).
  destruct (cleanRecv_unwinds scenario.fulfilled_request scenario.cleaning_fails Hfails)
    as (_ & _ & Hall & Hq).
  split; [exact Hfails|]. split; [|exact Hq].
  apply (Hall "B" [scenario.b1 Leased; scenario.b2 Leased] (scenario.b2 Leased)).
  - vm_compute. reflexivity.
  - right. left.
Defined.

(** C3, as stated, fails: the key is in the user data of the primary, with
    the empty value, which decodes to the nil list as an empty YAML document
    does; recycleOne finds the config, returns a request, and calls neither
    AcquireByState nor UpdateOne. *)
Lemma recycleOne_skips_nil_lease :
  ¬ (is_Some (rUserData (scenario.a1_cleared Cleaning) ≫= (.!! LeasedResourcesKey)) →
     ∃ names,
       CAcquireByState "a1" Leased names
         ∈ calls_of (events (recycleOne (scenario.a1_cleared Cleaning) scenario.recycling))).
Proof.
  intros Hclaim. destruct Hclaim as [names Hin].
  - vm_compute. eauto.
  - vm_compute in Hin. by apply elem_of_nil in Hin.
Qed.

(** The second recycle cleans the stale lease. *)
Lemma recycleOne_reclaim_witness :
  calls_of (events (recycleOne (scenario.a1_leasing Cleaning) scenario.recycling))
  = [CAcquireByState "a1" Leased ["b1"; "b2"];
     CReleaseOne "b1" Dirty; CReleaseOne "b2" Dirty;
     CUpdateOne "a1" Cleaning (Some {[ LeasedResourcesKey := "" ]})].
Proof.
  assert (Hcfg : GetConfig (rType (scenario.a1_leasing Cleaning))
                   (storage scenario.recycling) = Ok scenario.cfgA)
    by (vm_compute; reflexivity).
  assert (Hkey : ({[ LeasedResourcesKey := "b1;b2;"; "greeting" := "hi" ]}
                    : gmap string string) !! LeasedResourcesKey = Some "b1;b2;")
    by (vm_compute; reflexivity).
  assert (Hnames : yaml_Unmarshal "b1;b2;" = inl (Some ["b1"; "b2"]))
    by (vm_compute; reflexivity).
  destruct (proj2 (proj2 (recycleOne_reclaim (scenario.a1_leasing Cleaning)
                             scenario.recycling))
              _ _ _ _ Hcfg eq_refl Hkey Hnames) as [Hcalls _].
  vm_compute in Hcalls. vm_compute. exact Hcalls.
Defined.

(** A lease list that does not decode: the primary goes back to dirty and
    nothing is queued. *)
Lemma recycleOne_errors_witness :
  (Acquire "A" Dirty Cleaning (client scenario.recycling_garbled)).1
  = Ok (scenario.a1_garbled Cleaning)
  ∧ calls_of (events (recycleType "A" scenario.recycling_garbled))
    = [CAcquire "A" Dirty Cleaning; CReleaseOne "a1" Dirty]
  ∧ queues (after (recycleType "A" scenario.recycling_garbled)) = ([], [], []).
Proof.
  assert (Hacq : (Acquire "A" Dirty Cleaning (client scenario.recycling_garbled)).1
                 = Ok (scenario.a1_garbled Cleaning)) by (vm_compute; reflexivity).
  destruct (recycleOne_errors "A" (scenario.a1_garbled Cleaning) scenario.recycling_garbled
              Hacq) as (_ & Herr & _).
  split; [exact Hacq|].
  apply (Herr (YamlError "malformed name list")). vm_compute. reflexivity.
Defined.

(** Two configs: one Acquire each, and the miss for [Z] is logged at debug
    level and changes nothing. *)
Lemma recycleTick_acquires_witness :
  GetConfigs (storage scenario.recycling_two) = Ok [scenario.cfgZ; scenario.cfgA]
  ∧ calls_of (List.filter isAcquire (events (recycleTick scenario.recycling_two)))
    = [CAcquire "Z" Dirty Cleaning; CAcquire "A" Dirty Cleaning]
  ∧ recycleType "Z" scenario.recycling_two
    = (tt, scenario.recycling_two,
       [Call (CAcquire "Z" Dirty Cleaning) [] (Some NotFound);
        Log DebugLevel (Some NotFound) "boskos acquire failed!"]).
Proof.
  assert (Hconfigs : GetConfigs (storage scenario.recycling_two)
                     = Ok [scenario.cfgZ; scenario.cfgA]) by (vm_compute; reflexivity).
  destruct (recycleTick_acquires [scenario.cfgZ; scenario.cfgA] scenario.recycling_two
              Hconfigs) as (Hcalls & Hskip).
  split; [exact Hconfigs|]. split; [exact Hcalls|].
  apply (Hskip scenario.cfgZ NotFound scenario.recycling_two);
    [left | vm_compute; reflexivity].
Defined.

(** Shutdown mid-fulfillment: [b1] was leased before the context was
    cancelled; it is released to free, the primary is not. *)
Lemma fulfillRecv_unwinds_witness :
  value (fulfillOne 5 scenario.pending_request scenario.fulfilling)
  = Some (Some ContextCanceled,
          appendFulfillment "B" (scenario.b1 Leased) scenario.pending_request)
  ∧ (CReleaseOne "b1" Free
       ∈ calls_of (events (fulfillRecv 5 scenario.pending_request scenario.fulfilling)))
  ∧ (CReleaseOne "a1" Free
       ∉ calls_of (events (fulfillRecv 5 scenario.pending_request scenario.fulfilling)))
  ∧ queues (after (fulfillRecv 5 scenario.pending_request scenario.fulfilling))
    = ([], [], []).
Proof.
  assert (Hv : value (fulfillOne 5 scenario.pending_request scenario.fulfilling)
               = Some (Some ContextCanceled,
                       appendFulfillment "B" (scenario.b1 Leased) scenario.pending_request))
    by (vm_compute; reflexivity).
  destruct (fulfillRecv_unwinds 5 _ _ _ scenario.fulfilling Hv)
    as (_ & _ & Hall & Honly & Hq).
  split; [exact Hv|]. split; [|split; [|exact Hq]].
  - apply (Hall "B" [scenario.b1 Leased] (scenario.b1 Leased));
      [vm_compute; reflexivity | left].
  - intros (_ & r & Hr & Hname)%Honly.
    vm_compute in Hr. apply list_elem_of_singleton in Hr. subst r. discriminate Hname.
Defined.

(** A need of zero: the loops have nothing to do, the request has no entry
    for [B] and so is not fulfilled, and fulfillOne returns nil in silence. *)
Lemma fulfillOne_unfulfilled_witness :
  isFulFilled scenario.zero_request = false
  ∧ fulfillOne 1 scenario.zero_request scenario.fulfilling
    = (Some (None, scenario.zero_request), scenario.fulfilling, []).
Proof.
  assert (Hloop : value (acquireNeeds 1 scenario.zero_request scenario.fulfilling)
                  = Some (None, scenario.zero_request)) by (vm_compute; reflexivity).
  assert (Hunf : isFulFilled scenario.zero_request = false) by (vm_compute; reflexivity).
  split; [exact Hunf|].
  rewrite (fulfillOne_unfulfilled 1 _ _ scenario.fulfilling Hloop Hunf).
  vm_compute. reflexivity.
Defined.

(** The request of the happy path is fulfilled when the loops end. *)
Lemma acquireNeeds_fulfills_witness :
  ∃ req', value (acquireNeeds 3 scenario.pending_request scenario.fulfilling_two)
          = Some (None, req')
          ∧ isFulFilled req' = true.
Proof.
  eexists. split; [vm_compute; reflexivity|].
  eapply (acquireNeeds_fulfills 3 scenario.pending_request _ scenario.fulfilling_two).
  - reflexivity.
  - intros t n Hn. cbn [needs scenario.pending_request] in Hn.
    apply lookup_singleton_Some in Hn as [_ <-]. lia.
  - vm_compute. reflexivity.
Defined.

(** Shutdown mid-fulfillment: fulfillOne returns. *)
Lemma fulfillOne_returns_witness :
  is_Some (value (fulfillOne 5 scenario.pending_request scenario.fulfilling)).
Proof.
  apply (fulfillOne_returns 5 1); [reflexivity | lia].
Defined.

(** The Releaser takes the request of the failed release off the queue. *)
Lemma freeAll_step_witness :
  freeAll 1 (set_cleaned [scenario.cleaned_request] scenario.releasing)
  = (freeRecv scenario.cleaned_request ;;; freeAll 0) scenario.releasing.
Proof.
  apply (freeAll_step 0 scenario.cleaned_request []
           (set_cleaned [scenario.cleaned_request] scenario.releasing));
    [discriminate | reflexivity].
Defined.

(** Two primaries of type [A] are dirty and the context is cancelled after
    one wait: the Recycler polls [Z] and [A] once and exits. *)
Lemma recycleAll_exits_witness :
  value (recycleAll 2 scenario.recycling_once) = Exited
  ∧ calls_of (List.filter isAcquire (events (recycleAll 2 scenario.recycling_once)))
    = [CAcquire "Z" Dirty Cleaning; CAcquire "A" Dirty Cleaning].
Proof.
  apply (recycleAll_exits 2 1 [scenario.cfgZ; scenario.cfgA] scenario.recycling_once);
    [reflexivity | lia | reflexivity].
Defined.

(** Shutdown mid-fulfillment: the request keeps its needs and its primary,
    and holds [b1]. *)
Lemma fulfillOne_advances_witness :
  advances scenario.pending_request
    (appendFulfillment "B" (scenario.b1 Leased) scenario.pending_request)
  ∧ resource (appendFulfillment "B" (scenario.b1 Leased) scenario.pending_request)
    = resource scenario.pending_request.
Proof.
  assert (Hv : value (fulfillOne 5 scenario.pending_request scenario.fulfilling)
               = Some (Some ContextCanceled,
                       appendFulfillment "B" (scenario.b1 Leased) scenario.pending_request))
    by (vm_compute; reflexivity).
  destruct (fulfillOne_advances 5 _ scenario.fulfilling _ _ Hv) as (Hadv & _ & Hres).
  split; [exact Hadv | apply Hres; eauto].
Defined.


(** The happy path through the Cleaner: one UpdateOne with the greeting, and
    the request is on the cleaned queue. *)
Lemma cleanRecv_cleans_witness :
  calls_of (events (cleanRecv scenario.fulfilled_request scenario.cleaning))
  = [CUpdateOne "a1" Cleaning (Some {[ "greeting" := "hi" ]})]
  ∧ length (cleaned (after (cleanRecv scenario.fulfilled_request scenario.cleaning))) = 1%nat.
Proof.
  destruct (cleanRecv_cleans scenario.fulfilled_request scenario.cleaning scenario.cfgA
              scenario.greeter
              (mkMasonable (λ _ _, Ok (Some {[ "greeting" := "hi" ]})))
              (Some {[ "greeting" := "hi" ]})) as [Hcalls Hafter].
  - vm_compute. reflexivity.
  - vm_compute. reflexivity.
  - reflexivity.
  - reflexivity.
  - vm_compute. reflexivity.
  - split; [exact Hcalls|]. rewrite Hafter. reflexivity.
Defined.

(** The Cleaner takes the one request, cleans it and waits. *)
Lemma cleanAll_drains_witness :
  value (cleanAll 2 scenario.cleaning) = Idle
  ∧ fulfilled (after (cleanAll 2 scenario.cleaning)) = [].
Proof.
  destruct (cleanAll_drains 2 scenario.cleaning) as (Hv & Hq & _);
    [discriminate | vm_compute; lia |].
  split; [exact Hv | exact Hq].
Defined.

(** A request without user data: three turns, three releases of the primary,
    and the request is still on the queue. *)
Lemma freeAll_spins_witness :
  value (freeAll 3 scenario.freeing_bare) = OutOfFuel
  ∧ length (calls_of (events (freeAll 3 scenario.freeing_bare))) = 3%nat
  ∧ cleaned (after (freeAll 3 scenario.freeing_bare)) ≡ₚ [scenario.bare_request].
Proof.
  destruct (freeAll_spins 3 scenario.freeing_bare) as (Hv & Hq & Hlen & _).
  - discriminate.
  - discriminate.
  - apply Forall_singleton. eexists. vm_compute. reflexivity.
  - split; [exact Hv|]. split; [exact Hlen | exact Hq].
Defined.

(** The happy path through the Releaser: the primary to free, the two
    secondaries to the state named after it. *)
Lemma freeAll_drains_witness :
  value (freeAll 2 scenario.freeing) = Idle
  ∧ cleaned (after (freeAll 2 scenario.freeing)) = []
  ∧ calls_of (events (freeAll 2 scenario.freeing))
    = [CReleaseOne "a1" Free; CReleaseOne "b1" "a1"; CReleaseOne "b2" "a1"].
Proof.
  destruct (freeAll_drains 2 scenario.freeing) as (Hv & Hq & Hcalls).
  - discriminate.
  - vm_compute. lia.
  - apply Forall_singleton. do 2 eexists. split; vm_compute; reflexivity.
  - vm_compute. reflexivity.
  - split; [exact Hv|]. split; [exact Hq|]. rewrite Hcalls. vm_compute. reflexivity.
Defined.

(** The happy path from the Fulfiller to the Releaser: the two leases
    fulfillOne recorded are the two releases of freeOne. *)
Lemma lease_round_trip_witness :
  ∃ req1,
    value (fulfillOne 3 scenario.pending_request scenario.fulfilling_two) = Some (None, req1)
    ∧ calls_of (events (freeOne (resource req1) scenario.freeing))
      = [CReleaseOne "a1" Free; CReleaseOne "b1" "a1"; CReleaseOne "b2" "a1"].
Proof.
  eexists. split; [vm_compute; reflexivity|].
  match goal with
  | |- calls_of (events (freeOne (resource ?r) _)) = _ =>
      rewrite (lease_round_trip 3 scenario.pending_request r scenario.fulfilling_two
                 (resource r) {[ LeasedResourcesKey := "b1;b2;" ]} scenario.freeing)
  end.
  - vm_compute. reflexivity.
  - vm_compute. reflexivity.
  - vm_compute. reflexivity.
  - intros content Hcontent. vm_compute in Hcontent. injection Hcontent as <-. split.
    + eexists. split; vm_compute; reflexivity.
    + intros ud0. unfold Update, names_codec, update.
      rewrite map_to_list_singleton. cbn. apply lookup_insert_eq.
  - reflexivity.
  - vm_compute. reflexivity.
  - vm_compute. reflexivity.
  - vm_compute. reflexivity.
Defined.

(** A census of secondaries validates, whatever the config of [A] needs. *)
Lemma ValidateConfig_no_primary_witness :
  value (ValidateConfig [scenario.cfgA] scenario.census_secondaries scenario.idle) = None.
Proof.
  rewrite (ValidateConfig_no_primary [scenario.cfgA] scenario.census_secondaries
             scenario.idle).
  - reflexivity.
  - apply NoDup_singleton.
  - intros r Hr Hin. apply list_elem_of_singleton in Hin.
    apply elem_of_cons in Hr as [->|Hr]; [discriminate Hin|].
    apply list_elem_of_singleton in Hr as ->. discriminate Hin.
Defined.
